(** * ordpool-parser: the inscription parser, embedded and verified

    The development embeds [InscriptionParserService] as it appears in the
    two revisions of the repository:

    - [src/src/inscription-parser.service.ts] (module [SrcParser]), and
    - [src/unnamed/part_000] (module [UnnamedParser]), the revision with
      content encoding, pointer, parent, metadata and metaprotocol.

    Both import their byte-level helpers from
    [inscription-parser.service.helper], which is not part of the sources at
    hand.  The helpers are therefore an interface ([HelperModule]); the scanner,
    the field lookup and the single-byte-character conversion are modelled
    from the specification.

    [src/src/lib/mooncat-parser.ts] (module [MooncatParser]) draws a cat from
    a hash; its tables and colour functions are imported from modules that
    are missing too, and are an interface ([MooncatParser.Imports]).

    [inscriptions.push(...vinInscriptions)] passes an array as the
    arguments of one call; how many arguments a call takes before the
    engine throws a [RangeError] is a parameter ([Engine]).

    JavaScript exceptions are explicit.  A helper call is a [result]: it
    returns or it throws.  The parsers' own code loops, so it computes an
    [outcome]: it returns, throws, or runs out of loop fuel. *)

From Stdlib Require Import Strings.Byte Strings.Ascii Sorting.Sorted.
From stdpp Require Import base tactics option list strings pretty.

Set Default Proof Using "Type".

(** ** Bytes, strings and outcomes *)

Definition bytes := list byte.

#[global] Instance byte_eq_decision : EqDecision byte := Byte.byte_eq_dec.

(** A thrown JavaScript value; [catch (ex)] never inspects it. *)
Inductive exn : Type :=
| Error (message : string).

(** What a call of a helper gives: a value or a thrown exception. *)
Inductive result (A : Type) : Type :=
| Ok (a : A)
| Raise (e : exn).
Arguments Ok {A} a.
Arguments Raise {A} e.

#[global] Instance result_ret : MRet result := λ A a, Ok a.
#[global] Instance result_bind : MBind result := λ A B f m,
  match m with
  | Ok a => f a
  | Raise e => Raise e
  end.

Inductive outcome (A : Type) : Type :=
| Ret (a : A)
| Throw (e : exn)
| OutOfFuel.
Arguments Ret {A} a.
Arguments Throw {A} e.
Arguments OutOfFuel {A}.

#[global] Instance outcome_ret : MRet outcome := λ A a, Ret a.
#[global] Instance outcome_bind : MBind outcome := λ A B f m,
  match m with
  | Ret a => f a
  | Throw e => Throw e
  | OutOfFuel => OutOfFuel
  end.

(** Calling a helper from the parsers' code. *)
Definition call {A} (r : result A) : outcome A :=
  match r with
  | Ok a => Ret a
  | Raise e => Throw e
  end.

(** [try { body } catch (ex) { handler }]: a thrown value reaches the
    handler, everything else passes. *)
Definition try_catch {A} (body : outcome A) (handler : exn → outcome A) : outcome A :=
  match body with
  | Throw ex => handler ex
  | o => o
  end.

Definition is_Ok {A} (r : result A) : Prop := ∃ a, r = Ok a.
Definition returns {A} (o : outcome A) : Prop := ∃ a, o = Ret a.

(** ** The data model *)

(** [{ tag: Uint8Array; value: Uint8Array }] *)
Record Field : Type := mkField { tag : bytes; value : bytes }.

(** [{ vin: { witness?: string[] }[] }] *)
Record Vin : Type := mkVin { witness : option (list string) }.
Record Transaction : Type := mkTransaction { vin : list Vin }.

(** The value an accessor such as [getMetadata] hands back from [CBOR.decode]. *)
#[local] Unset Elimination Schemes.
Inductive cbor_value : Type :=
| CborInt (n : Z)
| CborBytes (b : bytes)
| CborText (s : string)
| CborArray (l : list cbor_value)
| CborMap (m : list (cbor_value * cbor_value))
| CborSimple (n : nat).
#[local] Set Elimination Schemes.

(** ** Constants of the helper module *)

(** Modelled from the spec: the helper module's [OP_0] constant is missing
    from the sources; the spec gives it as byte value 0 (OP_0 / empty push). *)
Definition OP_0 : byte := x00.

(** Modelled from the spec: the helper module's [knownFields] table is missing
    from the sources; the spec lists the recognised tag values. *)
Module knownFields.
Definition content_type : byte := x01.
Definition pointer : byte := x02.
Definition parent : byte := x03.
Definition metadata : byte := x05.
Definition metaprotocol : byte := x07.
Definition content_encoding : byte := x09.
End knownFields.

(** ** The helper module as an interface *)

(** Modelled from the spec: the module [inscription-parser.service.helper]
    is missing from the sources.  Each function the parsers import from it
    is a member; one that can fail gives a [result].  The two laws are the
    part of the helpers' contract that loop termination rests on: the
    pushdata reader moves the cursor forward whenever it returns (by 1 for
    the empty push, by the prefix bytes plus the length otherwise), and the
    start-of-envelope marker is a byte pattern, not the empty sequence. *)
Class HelperModule : Type := {
  OP_ENDIF : byte;
  inscriptionMark : bytes;
  hexStringToUint8Array : string → result bytes;
  readPushdata : bytes → nat → result (bytes * nat);
  brotliDecodeUint8Array : bytes → result bytes;
  encodeToBase64 : string → string;
  uint8ArrayToUtf8String : bytes → result string;
  utf8BytesToUtf16String : option bytes → result (option string);
  extractPointer : option bytes → result (option N);
  extractParent : option bytes → result (option string);
  CBOR_decode : bytes → result cbor_value;
  readPushdata_advances : ∀ raw p slice p',
    readPushdata raw p = Ok (slice, p') → p < p';
  inscriptionMark_nonempty : inscriptionMark ≠ [];
}.

(** Modelled from the spec: [uint8ArrayToSingleByteChars] is missing from the
    sources; the spec has the content type decoded as a single-byte-per-character
    string, a direct byte-to-character mapping (not UTF-8). *)
Definition uint8ArrayToSingleByteChars (b : bytes) : string :=
  String.string_of_list_ascii (ascii_of_byte <$> b).

(** Modelled from the spec: [getKnownFieldValue] is missing from the sources;
    the spec locates a known field by its tag and takes the value of the
    field found.  The lookup is the one [SrcParser] writes inline: the first
    field whose tag is exactly the one byte asked for. *)
Definition getKnownFieldValue (fields : list Field) (field : byte) : option bytes :=
  value <$> List.find (λ x, bool_decide (length (tag x) = 1) &&
                             bool_decide (tag x !! 0 = Some field)) fields.

(** The marker's bytes are the bytes of the buffer from [index] on. *)
Definition markAt (mark raw : bytes) (index : nat) : Prop :=
  take (length mark) (drop index raw) = mark.

#[global] Instance markAt_dec mark raw index : Decision (markAt mark raw index).
Proof. unfold markAt. apply _. Defined.

(** Modelled from the spec: [getNextInscriptionMark] is missing from the
    sources; the spec's scanner searches for the start-of-envelope byte
    pattern at or after [fromOffset] and returns the offset just past the
    marker, or a sentinel ([-1] in the callers, [None] here) when there is
    none. *)
Definition getNextInscriptionMark `{HelperModule} (raw : bytes) (startPosition : nat)
  : option nat :=
  match list_find (markAt inscriptionMark raw)
                  (seq startPosition (S (length raw) - startPosition)) with
  | Some (_, index) => Some (index + length inscriptionMark)
  | None => None
  end.

(** ** The engine

    [array.push(...items)] hands the items over as the arguments of one
    call.  A call takes no more arguments than the engine has room for on
    its stack and throws a [RangeError] beyond that; how many it takes is
    the engine's matter and not the program's, so the bound is a parameter. *)
Class Engine : Type := {
  maxArguments : nat;
}.

Definition Array_push_spread `{Engine} {A} (array items : list A) : outcome (list A) :=
  if bool_decide (length items ≤ maxArguments) then Ret (array ++ items)
  else Throw (Error "RangeError: Maximum call stack size exceeded").

(** ** The orchestrator

    [parseInscriptions] and [parseInscriptionsWithinWitness] read the same in
    both revisions (lines 19-60 of [inscription-parser.service.ts], lines
    45-86 of [part_000]); they are embedded once, over the revision's
    [extractInscriptionData] and its record type. *)
Section Orchestrator.
Context `{HelperModule} {E : Engine}.
Context {ParsedInscription : Type}.
Variable extractInscriptionData : bytes → nat → outcome (option ParsedInscription).

(** The [while (true)] loop of [parseInscriptionsWithinWitness]: one unit
    of fuel per iteration. *)
Fixpoint scanLoop (fuel : nat) (raw : bytes) (startPosition : nat)
    (inscriptions : list ParsedInscription) : outcome (list ParsedInscription) :=
  match fuel with
  | 0 => OutOfFuel
  | S fuel' =>
      match getNextInscriptionMark raw startPosition with
      | None => Ret inscriptions
      | Some pointer =>
          inscription ← extractInscriptionData raw pointer;
          let inscriptions :=
            match inscription with
            | Some i => inscriptions ++ [i]
            | None => inscriptions
            end in
          scanLoop fuel' raw pointer inscriptions
      end
  end.

(** The loop on a raw buffer, from offset 0 and with no inscription yet.
    A mark ends at or before the end of the buffer and each one found lies
    past the previous one, so [length raw] iterations find every mark and
    one more sees that none is left. *)
Definition scanWitness (raw : bytes) : outcome (list ParsedInscription) :=
  scanLoop (S (length raw)) raw 0 [].

Definition parseInscriptionsWithinWitness (witness : list string)
  : outcome (option (list ParsedInscription)) :=
  raw ← call (hexStringToUint8Array (String.concat "" witness));
  inscriptions ← scanWitness raw;
  mret (if bool_decide (0 < length inscriptions) then Some inscriptions else None).

(** The [for] loop of [parseInscriptions] over [transaction.vin];
    [inscriptions.push(...vinInscriptions)] is outside every [try]. *)
Fixpoint parseVins (vins : list Vin) (inscriptions : list ParsedInscription)
  : outcome (list ParsedInscription) :=
  match vins with
  | [] => Ret inscriptions
  | vin :: vins' =>
      match witness vin with
      | Some w =>
          vinInscriptions ← parseInscriptionsWithinWitness w;
          match vinInscriptions with
          | Some l =>
              inscriptions ← Array_push_spread inscriptions l;
              parseVins vins' inscriptions
          | None => parseVins vins' inscriptions
          end
      | None => parseVins vins' inscriptions
      end
  end.

Definition parseInscriptions (transaction : Transaction)
  : outcome (list ParsedInscription) :=
  parseVins (vin transaction) [].
End Orchestrator.

(** Body assembly, shared by both revisions word for word (lines 102-110 and
    127-135): the chunk lengths are summed, a zeroed array of that length is
    allocated and each chunk is copied to its offset. *)
Definition Uint8Array_new (n : nat) : bytes := replicate n x00.

(** [target.set(segment, idx)]: a [RangeError] when the segment does not fit. *)
Definition Uint8Array_set (target segment : bytes) (idx : nat) : outcome bytes :=
  if bool_decide (idx + length segment ≤ length target)
  then Ret (take idx target ++ segment ++ drop (idx + length segment) target)
  else Throw (Error "RangeError: offset is out of bounds").

Fixpoint copySegments (data : list bytes) (combinedData : bytes) (idx : nat)
  : outcome bytes :=
  match data with
  | [] => Ret combinedData
  | segment :: data' =>
      combinedData ← Uint8Array_set combinedData segment idx;
      copySegments data' combinedData (idx + length segment)
  end.

Definition combineData (data : list bytes) : outcome bytes :=
  let combinedLengthOfAllArrays := fold_left (λ acc curr, acc + length curr) data 0 in
  copySegments data (Uint8Array_new combinedLengthOfAllArrays) 0.

(** ** [src/src/inscription-parser.service.ts] *)
Module SrcParser.

(** The object literal returned at lines 123-142: two data properties and
    three closures over [combinedData] and [contentType]. *)
Record ParsedInscription : Type := mkParsedInscription {
  contentType : string;
  fields : list Field;
  combinedData : bytes;
}.

(** [let current: { slice: Uint8Array, pointer: number }] *)
Record cursor : Type := mkCursor { slice : bytes; pointer : nat }.

Section Extract.
Context `{HelperModule} {E : Engine}.

(** This revision's [readPushdata] returns the object [{ slice, pointer }]. *)
Definition readPushdataCursor (raw : bytes) (p : nat) : outcome cursor :=
  '(s, p') ← call (readPushdata raw p); mret (mkCursor s p').

(** Lines 76-85: process fields until OP_0 is encountered. *)
Fixpoint readFields (fuel : nat) (raw : bytes) (current : cursor)
    (fields : list Field) : outcome (list Field * cursor) :=
  match fuel with
  | 0 => OutOfFuel
  | S fuel' =>
      if bool_decide (pointer current < length raw)
         && bool_decide (raw !! pointer current ≠ Some OP_0)
      then
        current ← readPushdataCursor raw (pointer current);
        let tag := slice current in
        current ← readPushdataCursor raw (pointer current);
        let value := slice current in
        readFields fuel' raw current (fields ++ [mkField tag value])
      else Ret (fields, current)
  end.

(** Lines 91-93: skip OP_0. *)
Definition skipBodySeparator (raw : bytes) (current : cursor) : cursor :=
  if bool_decide (pointer current < length raw)
     && bool_decide (raw !! pointer current = Some OP_0)
  then mkCursor [] (pointer current + 1)
  else current.

(** Lines 96-100: collect body data until OP_ENDIF. *)
Fixpoint readBody (fuel : nat) (raw : bytes) (current : cursor)
    (data : list bytes) : outcome (list bytes * cursor) :=
  match fuel with
  | 0 => OutOfFuel
  | S fuel' =>
      if bool_decide (pointer current < length raw)
         && bool_decide (raw !! pointer current ≠ Some OP_ENDIF)
      then
        current ← readPushdataCursor raw (pointer current);
        readBody fuel' raw current (data ++ [slice current])
      else Ret (data, current)
  end.

(** Line 112: [fields.find(x => x.tag.length === 1 && x.tag[0] === knownFields.content_type)] *)
Definition findContentTypeField (fields : list Field) : option Field :=
  List.find (λ x, bool_decide (length (tag x) = 1)
                  && bool_decide (tag x !! 0 = Some knownFields.content_type)) fields.

(** The body of the [try] block, lines 74-142. *)
Definition extractBody (raw : bytes) (pointer : nat)
  : outcome (option ParsedInscription) :=
  let current := mkCursor [] pointer in
  '(fields, current) ← readFields (S (length raw)) raw current [];
  let current := skipBodySeparator raw current in
  '(data, current) ← readBody (S (length raw)) raw current [];
  combinedData ← combineData data;
  match findContentTypeField fields with
  | None => mret None
  | Some contentTypeField =>
      let contentType := uint8ArrayToSingleByteChars (value contentTypeField) in
      mret (Some (mkParsedInscription contentType fields combinedData))
  end.

(** Lines 68-148; [console.error(ex)] only logs. *)
Definition extractInscriptionData (raw : bytes) (pointer : nat)
  : outcome (option ParsedInscription) :=
  try_catch (extractBody raw pointer) (λ ex, Ret None).

(** The closures of the returned object. *)
Definition getContentString (i : ParsedInscription) : result string :=
  uint8ArrayToUtf8String (combinedData i).

Definition getData (i : ParsedInscription) : string :=
  let content := uint8ArrayToSingleByteChars (combinedData i) in
  encodeToBase64 content.

Definition getDataUri (i : ParsedInscription) : string :=
  let content := uint8ArrayToSingleByteChars (combinedData i) in
  let fullBase64Data := encodeToBase64 content in
  "data:" +:+ contentType i +:+ ";base64," +:+ fullBase64Data.

Definition parseInscriptions (transaction : Transaction)
  : outcome (list ParsedInscription) :=
  parseInscriptions extractInscriptionData transaction.
End Extract.
End SrcParser.

(** ** [src/unnamed/part_000] *)
Module UnnamedParser.

(** The object literal returned at lines 160-208.  [combinedData],
    [contentType], [fields] and [contentEncoding] are the variables its
    closures capture; [combinedData] has its final value by then. *)
Record ParsedInscription : Type := mkParsedInscription {
  contentType : string;
  fields : list Field;
  combinedData : bytes;
  contentEncoding : option string;
}.

Section Extract.
Context `{HelperModule} {E : Engine}.

(** Lines 103-111: process fields until OP_0 is encountered. *)
Fixpoint readFields (fuel : nat) (raw : bytes) (newPointer : nat)
    (fields : list Field) : outcome (list Field * nat) :=
  match fuel with
  | 0 => OutOfFuel
  | S fuel' =>
      if bool_decide (newPointer < length raw)
         && bool_decide (raw !! newPointer ≠ Some OP_0)
      then
        '(slice, newPointer) ← call (readPushdata raw newPointer);
        let tag := slice in
        '(slice, newPointer) ← call (readPushdata raw newPointer);
        let value := slice in
        readFields fuel' raw newPointer (fields ++ [mkField tag value])
      else Ret (fields, newPointer)
  end.

(** Lines 116-118: skip OP_0. *)
Definition skipBodySeparator (raw : bytes) (newPointer : nat) : nat :=
  if bool_decide (newPointer < length raw)
     && bool_decide (raw !! newPointer = Some OP_0)
  then newPointer + 1
  else newPointer.

(** Lines 121-125: collect body data until OP_ENDIF. *)
Fixpoint readBody (fuel : nat) (raw : bytes) (newPointer : nat)
    (data : list bytes) : outcome (list bytes * nat) :=
  match fuel with
  | 0 => OutOfFuel
  | S fuel' =>
      if bool_decide (newPointer < length raw)
         && bool_decide (raw !! newPointer ≠ Some OP_ENDIF)
      then
        '(slice, newPointer) ← call (readPushdata raw newPointer);
        readBody fuel' raw newPointer (data ++ [slice])
      else Ret (data, newPointer)
  end.

(** Lines 148-158: the content encoding and the decompression. *)
Definition decodeContentEncoding (fields : list Field) : option string :=
  let contentEncodingRaw := getKnownFieldValue fields knownFields.content_encoding in
  match contentEncodingRaw with
  | Some raw => Some (uint8ArrayToSingleByteChars raw)
  | None => None
  end.

Definition decodeBody (contentEncoding : option string) (combinedData : bytes)
  : outcome bytes :=
  if bool_decide (contentEncoding = Some "br")
  then call (brotliDecodeUint8Array combinedData)
  else Ret combinedData.

(** The body of the [try] block, lines 98-208. *)
Definition extractBody (raw : bytes) (pointer : nat)
  : outcome (option ParsedInscription) :=
  let newPointer := pointer in
  '(fields, newPointer) ← readFields (S (length raw)) raw newPointer [];
  let newPointer := skipBodySeparator raw newPointer in
  '(data, newPointer) ← readBody (S (length raw)) raw newPointer [];
  combinedData ← combineData data;
  let contentTypeRaw := getKnownFieldValue fields knownFields.content_type in
  match contentTypeRaw with
  | None => mret None
  | Some contentTypeRaw =>
      let contentType := uint8ArrayToSingleByteChars contentTypeRaw in
      let contentEncoding := decodeContentEncoding fields in
      combinedData ← decodeBody contentEncoding combinedData;
      mret (Some (mkParsedInscription contentType fields combinedData contentEncoding))
  end.

(** Lines 94-214; [console.error(ex)] only logs. *)
Definition extractInscriptionData (raw : bytes) (pointer : nat)
  : outcome (option ParsedInscription) :=
  try_catch (extractBody raw pointer) (λ ex, Ret None).

(** The closures of the returned object.  An accessor's [undefined] is
    [None]. *)
Definition getContentString (i : ParsedInscription) : result string :=
  s ← utf8BytesToUtf16String (Some (combinedData i));
  mret (default "undefined" s +:+ "").

Definition getData (i : ParsedInscription) : string :=
  let content := uint8ArrayToSingleByteChars (combinedData i) in
  encodeToBase64 content.

Definition getDataUri (i : ParsedInscription) : string :=
  let content := uint8ArrayToSingleByteChars (combinedData i) in
  let fullBase64Data := encodeToBase64 content in
  "data:" +:+ contentType i +:+ ";base64," +:+ fullBase64Data.

Definition getPointer (i : ParsedInscription) : result (option N) :=
  let pointerRaw := getKnownFieldValue (fields i) knownFields.pointer in
  extractPointer pointerRaw.

Definition getParent (i : ParsedInscription) : result (option string) :=
  let parentRaw := getKnownFieldValue (fields i) knownFields.parent in
  extractParent parentRaw.

Definition getMetadata (i : ParsedInscription) : result (option cbor_value) :=
  let metadataRaw := getKnownFieldValue (fields i) knownFields.metadata in
  match metadataRaw with
  | None => Ok None
  | Some metadataRaw => v ← CBOR_decode metadataRaw; mret (Some v)
  end.

Definition getMetaprotocol (i : ParsedInscription) : result (option string) :=
  let metaprotocolRaw := getKnownFieldValue (fields i) knownFields.metaprotocol in
  utf8BytesToUtf16String metaprotocolRaw.

Definition getContentEncoding (i : ParsedInscription) : option string :=
  contentEncoding i.

Definition parseInscriptions (transaction : Transaction)
  : outcome (list ParsedInscription) :=
  parseInscriptions extractInscriptionData transaction.
End Extract.
End UnnamedParser.

(** ** A helper module written from the specification

    It shows that the interface and its laws can be met, and it runs the
    parsers on concrete witness data.  The pushdata reader, the hex
    conversion, the base64 encoding and the pointer decoding follow the
    specification; the envelope marker and OP_ENDIF are those of the ord
    protocol.  Decompression and the structured-value decoder are outside the
    specification's core, so the module takes them as arguments. *)
Module SpecHelpers.

Definition OP_ENDIF : byte := x68.

(** OP_FALSE OP_IF OP_PUSHBYTES_3 "ord" *)
Definition inscriptionMark : bytes := [x00; x63; x03; x6f; x72; x64].

(** Modelled from the spec: the witness items are hex strings of even
    length, each byte as two hex characters, and the hex utility is assumed
    correct, with no failure of its own.  On such strings the stand-in is
    the conversion; on any other it returns as well: a pair that is not two
    hex digits counts as the byte 0, and a last character without a partner
    is left out. *)
Definition hexDigit (c : ascii) : option N :=
  let n := N_of_ascii c in
  if bool_decide (48 ≤ n ≤ 57)%N then Some (n - 48)%N
  else if bool_decide (97 ≤ n ≤ 102)%N then Some (n - 87)%N
  else if bool_decide (65 ≤ n ≤ 70)%N then Some (n - 55)%N
  else None.

Definition hexPair (hi lo : ascii) : byte :=
  default x00 (h ← hexDigit hi; l ← hexDigit lo; Byte.of_N (16 * h + l)).

Fixpoint hexToBytes (hex : string) : bytes :=
  match hex with
  | String hi (String lo rest) => hexPair hi lo :: hexToBytes rest
  | _ => []
  end.

Definition hexStringToUint8Array (hex : string) : result bytes :=
  Ok (hexToBytes hex).

(** Modelled from the spec, section 4.1: the reader never reads past the
    buffer boundary and fails when the declared length exceeds the
    remaining buffer or the cursor starts beyond the buffer end. *)
Definition readBytes (raw : bytes) (pointer n : nat) : result (bytes * nat) :=
  if bool_decide (pointer + n ≤ length raw)
  then Ok (take n (drop pointer raw), pointer + n)
  else Raise (Error "TruncatedInput").

Definition littleEndianBytesToNumber (b : bytes) : nat :=
  foldr (λ x acc, Byte.to_nat x + 256 * acc) 0 b.

Definition readPushdata (raw : bytes) (pointer : nat) : result (bytes * nat) :=
  '(opcodeSlice, newPointer) ← readBytes raw pointer 1;
  let opcode := littleEndianBytesToNumber opcodeSlice in
  if bool_decide (opcode = 0) then Ok ([], newPointer)
  else if bool_decide (opcode ≤ 75) then readBytes raw newPointer opcode
  else
    let numBytes :=
      if bool_decide (opcode = 76) then Some 1
      else if bool_decide (opcode = 77) then Some 2
      else if bool_decide (opcode = 78) then Some 4
      else None in
    match numBytes with
    | Some numBytes =>
        '(dataSizeArray, nextPointer) ← readBytes raw newPointer numBytes;
        readBytes raw nextPointer (littleEndianBytesToNumber dataSizeArray)
    | None => Raise (Error "not a push operation")
    end.

(** Modelled from the spec: standard base64 with padding, over a string of
    single-byte characters. *)
Definition base64Alphabet : string :=
  "ABCDEFGHIJKLMNOPQRSTUVWXYZabcdefghijklmnopqrstuvwxyz0123456789+/".

Definition base64Char (n : N) : ascii :=
  default "="%char (String.get (N.to_nat n) base64Alphabet).

Fixpoint encodeToBase64 (content : string) : string :=
  match content with
  | EmptyString => EmptyString
  | String a EmptyString =>
      let n := (N_of_ascii a * 65536)%N in
      String (base64Char (n / 262144)) (String (base64Char ((n / 4096) mod 64)) "==")
  | String a (String b EmptyString) =>
      let n := (N_of_ascii a * 65536 + N_of_ascii b * 256)%N in
      String (base64Char (n / 262144)) (String (base64Char ((n / 4096) mod 64))
        (String (base64Char ((n / 64) mod 64)) "="))
  | String a (String b (String c rest)) =>
      let n := (N_of_ascii a * 65536 + N_of_ascii b * 256 + N_of_ascii c)%N in
      String (base64Char (n / 262144)) (String (base64Char ((n / 4096) mod 64))
        (String (base64Char ((n / 64) mod 64)) (String (base64Char (n mod 64))
          (encodeToBase64 rest))))
  end.

(** Text decoding for the ASCII range, where UTF-8 is the identity on
    bytes; anything else is rejected. *)
Definition asciiOnly (b : bytes) : bool :=
  forallb (λ x, bool_decide (Byte.to_nat x < 128)) b.

Definition uint8ArrayToUtf8String (b : bytes) : result string :=
  if asciiOnly b then Ok (uint8ArrayToSingleByteChars b)
  else Raise (Error "text outside the ASCII range").

Definition utf8BytesToUtf16String (b : option bytes) : result (option string) :=
  match b with
  | None => Ok None
  | Some b => s ← uint8ArrayToUtf8String b; mret (Some s)
  end.

(** Modelled from the spec, section 4.5 (5): a little-endian unsigned
    integer of 0 to 8 bytes; a zero-length or absent value is no pointer. *)
Definition extractPointer (value : option bytes) : result (option N) :=
  match value with
  | None | Some [] => Ok None
  | Some b => Ok (Some (N.of_nat (littleEndianBytesToNumber b)))
  end.

(** The parent reference is not decoded here: every value yields no parent. *)
Definition extractParent (value : option bytes) : result (option string) :=
  Ok None.

Lemma readBytes_pointer raw pointer n slice p' :
  readBytes raw pointer n = Ok (slice, p') → p' = pointer + n.
Proof. unfold readBytes. case_bool_decide; [by intros [= _ <-]|done]. Qed.

Lemma spec_readPushdata_advances raw p slice p' :
  readPushdata raw p = Ok (slice, p') → p < p'.
Proof.
  unfold readPushdata.
  destruct (readBytes raw p 1) as [[opcodeSlice newPointer]|] eqn:E; simpl; try done.
  apply readBytes_pointer in E. subst newPointer.
  repeat case_bool_decide; simpl;
    try (intros ?%readBytes_pointer; lia); try done; try (intros [= _ <-]; lia).
  all: destruct (readBytes raw (p + 1) _) as [[dataSizeArray nextPointer]|] eqn:E;
    simpl; try done;
    apply readBytes_pointer in E; intros ?%readBytes_pointer; lia.
Qed.

Lemma spec_inscriptionMark_nonempty : inscriptionMark ≠ [].
Proof. done. Qed.

Definition helpers (brotliDecodeUint8Array : bytes → result bytes)
    (CBOR_decode : bytes → result cbor_value) : HelperModule :=
  Build_HelperModule OP_ENDIF inscriptionMark hexStringToUint8Array readPushdata
    brotliDecodeUint8Array encodeToBase64 uint8ArrayToUtf8String
    utf8BytesToUtf16String extractPointer extractParent CBOR_decode
  spec_readPushdata_advances spec_inscriptionMark_nonempty.
End SpecHelpers.

(** ** The envelope as the specification describes it

    Sections 4.3 and 4.4 of the specification, as relations on cursor
    positions; the loops of both revisions are compared with them below. *)
Section Envelope.
Context `{HelperModule}.

(** Tag/value pushdata pairs until the body separator or the end of the buffer. *)
Inductive fieldPairs (raw : bytes) : nat → list Field → nat → Prop :=
| fieldPairs_stop p :
    ¬ (p < length raw ∧ raw !! p ≠ Some OP_0) →
    fieldPairs raw p [] p
| fieldPairs_pair p tag p1 value p2 fields p' :
    p < length raw → raw !! p ≠ Some OP_0 →
    readPushdata raw p = Ok (tag, p1) →
    readPushdata raw p1 = Ok (value, p2) →
    fieldPairs raw p2 fields p' →
    fieldPairs raw p (mkField tag value :: fields) p'.

(** The cursor moves past the separator when it is there. *)
Definition afterSeparator (raw : bytes) (p : nat) : nat :=
  if bool_decide (p < length raw) && bool_decide (raw !! p = Some OP_0)
  then p + 1 else p.

(** Pushdata chunks until the end-of-envelope marker or the end of the buffer. *)
Inductive bodyChunks (raw : bytes) : nat → list bytes → nat → Prop :=
| bodyChunks_stop p :
    ¬ (p < length raw ∧ raw !! p ≠ Some OP_ENDIF) →
    bodyChunks raw p [] p
| bodyChunks_chunk p slice p1 data p' :
    p < length raw → raw !! p ≠ Some OP_ENDIF →
    readPushdata raw p = Ok (slice, p1) →
    bodyChunks raw p1 data p' →
    bodyChunks raw p (slice :: data) p'.

(** The first field whose tag is the single byte [field]. *)
Definition hasTag (field : byte) (x : Field) : Prop := tag x = [field].

#[global] Instance hasTag_dec field x : Decision (hasTag field x).
Proof. unfold hasTag. apply _. Defined.
End Envelope.

(** ** A pushdata read that fails inside an envelope *)
Section Failure.
Context `{HelperModule}.

(** The field section, read from [p], arrives at a pushdata read that raises
    [e]: the tag's or the value's, in the first pair or a later one. *)
Inductive fieldsFail (raw : bytes) : nat → exn → Prop :=
| fieldsFail_tag p e :
    p < length raw → raw !! p ≠ Some OP_0 →
    readPushdata raw p = Raise e →
    fieldsFail raw p e
| fieldsFail_value p tag p1 e :
    p < length raw → raw !! p ≠ Some OP_0 →
    readPushdata raw p = Ok (tag, p1) →
    readPushdata raw p1 = Raise e →
    fieldsFail raw p e
| fieldsFail_later p tag p1 value p2 e :
    p < length raw → raw !! p ≠ Some OP_0 →
    readPushdata raw p = Ok (tag, p1) →
    readPushdata raw p1 = Ok (value, p2) →
    fieldsFail raw p2 e →
    fieldsFail raw p e.

(** The body, read from [p], arrives at a pushdata read that raises [e]. *)
Inductive bodyFails (raw : bytes) : nat → exn → Prop :=
| bodyFails_chunk p e :
    p < length raw → raw !! p ≠ Some OP_ENDIF →
    readPushdata raw p = Raise e →
    bodyFails raw p e
| bodyFails_later p slice p1 e :
    p < length raw → raw !! p ≠ Some OP_ENDIF →
    readPushdata raw p = Ok (slice, p1) →
    bodyFails raw p1 e →
    bodyFails raw p e.

(** Reading the envelope at [p] meets a pushdata read that raises [e]. *)
Definition pushdataFails (raw : bytes) (p : nat) (e : exn) : Prop :=
  fieldsFail raw p e
  ∨ ∃ fs p1, fieldPairs raw p fs p1 ∧ bodyFails raw (afterSeparator raw p1) e.
End Failure.

(** ** Comparing helper modules and revisions *)

(** The helper module with another structured-value decoder. *)
Definition withDecoder (H : HelperModule) (decode : bytes → result cbor_value)
  : HelperModule :=
  Build_HelperModule OP_ENDIF inscriptionMark hexStringToUint8Array readPushdata
    brotliDecodeUint8Array encodeToBase64 uint8ArrayToUtf8String
    utf8BytesToUtf16String extractPointer extractParent decode
    readPushdata_advances inscriptionMark_nonempty.

(** What a record of one revision and a record of the other can be compared on. *)
Definition agree `{HelperModule} (a : SrcParser.ParsedInscription)
    (b : UnnamedParser.ParsedInscription) : Prop :=
  SrcParser.contentType a = UnnamedParser.contentType b
  ∧ SrcParser.fields a = UnnamedParser.fields b
  ∧ SrcParser.getData a = UnnamedParser.getData b
  ∧ SrcParser.getDataUri a = UnnamedParser.getDataUri b.

(** ** Declarative views used in the statements *)

Section Views.
Context `{HelperModule}.
Context {ParsedInscription : Type}.
Variable extractInscriptionData : bytes → nat → outcome (option ParsedInscription).

(** The offsets the scanner hands to the loop, one after the other: each
    scan resumes at the offset found last. *)
Fixpoint marksFrom (fuel : nat) (raw : bytes) (startPosition : nat) : list nat :=
  match fuel with
  | 0 => []
  | S fuel' =>
      match getNextInscriptionMark raw startPosition with
      | None => []
      | Some pointer => pointer :: marksFrom fuel' raw pointer
      end
  end.

Definition envelopeOffsets (raw : bytes) : list nat :=
  marksFrom (S (length raw)) raw 0.

(** The record an envelope candidate contributes, if any. *)
Definition extracted (raw : bytes) (pointer : nat) : option ParsedInscription :=
  match extractInscriptionData raw pointer with
  | Ret inscription => inscription
  | _ => None
  end.

Definition witnessInscriptions (raw : bytes) : list ParsedInscription :=
  omap (extracted raw) (envelopeOffsets raw).

Definition vinInscriptions (v : Vin) : list ParsedInscription :=
  match witness v with
  | Some w =>
      match hexStringToUint8Array (String.concat "" w) with
      | Ok raw => witnessInscriptions raw
      | Raise _ => []
      end
  | None => []
  end.

(** The hex conversion returns for every input that has a witness. *)
Definition hexReturns (transaction : Transaction) : Prop :=
  Forall (λ v, match witness v with
               | Some w => is_Ok (hexStringToUint8Array (String.concat "" w))
               | None => True
               end) (vin transaction).

(** No input has more records than one call takes arguments. *)
Definition spreadFits {E : Engine} (transaction : Transaction) : Prop :=
  Forall (λ v, length (vinInscriptions v) ≤ maxArguments) (vin transaction).
End Views.

(** No envelope of the buffer has a content_encoding field. *)
Definition noContentEncoding `{HelperModule} (raw : bytes) : Prop :=
  ∀ p fs p1, p ∈ envelopeOffsets raw → fieldPairs raw p fs p1 →
             getKnownFieldValue fs knownFields.content_encoding = None.

(** The pushdata reader reads the same from an offset of [l] when other
    bytes come before and after [l]. *)
Definition readsLocally `{HelperModule} : Prop :=
  ∀ pre l post p slice p',
    readPushdata l p = Ok (slice, p') →
    readPushdata (pre ++ l ++ post) (length pre + p) = Ok (slice, length pre + p').

(** The buffer of [n] copies of [l]. *)
Definition copies (n : nat) (l : bytes) : bytes := concat (replicate n l).

(** * [src/src/lib/mooncat-parser.ts] *)

Module MooncatParser.

(** Modelled from the spec: the modules [./conversions],
    [./mooncat-parser.colors], [./mooncat-parser.designs],
    [./mooncat-parser.designs-to-traits] and [./mooncat-parser.helper] are
    missing from the sources, and nothing describes them.  What
    [mooncat-parser.ts] imports from them is a member each, with the type
    its use requires and no law: [hexToBytes] gives bytes or throws, the two
    colour functions give their value or throw, the designs are strings of
    digits and dots, and a row of the traits table is an index with four
    names.  [number] stands for the fee rate and the colour channels, which
    the parser only hands on. *)
Class Imports : Type := {
  number : Type;
  hexToBytes : string → result bytes;
  feeRateToMempoolColor : number → result (number * number * number);
  derivePalette : number → number → number → bool → result (list (option string));
  laserDesigns : list string;
  laserCrownDesigns : list string;
  placeholderDesign : string;
  mooncatDesignsToTraits : list (nat * (string * string * string * string));
}.

Inductive Gender : Type := female | male.
Inductive LaserEyes : Type := red | green | blue | orange.
Inductive Background : Type := block9 | cyberpunk | whitepaper | bg_orange.
Inductive Crown : Type := gold | diamond | none.

(** A colour read out of an array: [Some (Some c)] a string, [Some None]
    [null], and [None] the [undefined] of an index outside the array. *)
Abbreviation cell := (option (option string)).

(** [CatTraits], as the object literal of [parse] fills it. *)
Record CatTraits : Type := mkCatTraits {
  genesis : bool;
  colors : list cell;
  gender : Gender;
  designIndex : nat;
  designPose : string;
  designExpression : string;
  designPattern : string;
  designFacing : string;
  laserEyes : LaserEyes;
  background : Background;
  crown : Crown;
}.

(** [bytes[i]]: a number, or [undefined] past the end. *)
Definition byteAt (b : bytes) (i : nat) : option nat := Byte.to_nat <$> b !! i.

(** [x >= lo && x <= hi]; a comparison with [undefined] is false. *)
Definition between (x : option nat) (lo hi : nat) : bool :=
  match x with
  | Some n => bool_decide (lo ≤ n) && bool_decide (n ≤ hi)
  | None => false
  end.

(** [s.split(sep)] for a one-character separator: the pieces between the
    separators, one piece for a string without any. *)
Fixpoint split (sep : ascii) (s : string) : list string :=
  match s with
  | EmptyString => [EmptyString]
  | String c rest =>
      if decide (c = sep) then EmptyString :: split sep rest
      else match split sep rest with
           | piece :: pieces => String c piece :: pieces
           | [] => [String c EmptyString]
           end
  end.

(** [parseInt(cell, 10)] on a one-character string: the digit, or [NaN]. *)
Definition parseInt (c : ascii) : option nat :=
  let n := nat_of_ascii c in
  if bool_decide (48 ≤ n) && bool_decide (n ≤ 57) then Some (n - 48) else None.

(** [row.split('').map(cell => colors[parseInt(cell, 10)])]; an array has
    no entry [NaN]. *)
Definition colorRow (colors : list (option string)) (row : string) : list cell :=
  (λ c, d ← parseInt c; colors !! d) <$> String.list_ascii_of_string row.

(** Lines 83-86 and 125-139: the colours and the name of the laser eyes. *)
Definition laserEyesOf (b5 : option nat) : result ((string * string) * LaserEyes) :=
  let orangeLaserEyes := between b5 0 63 in
  let redLaserEyes := between b5 64 127 in
  let greenLaserEyes := between b5 128 191 in
  let blueLaserEyes := between b5 192 255 in
  if redLaserEyes then Ok (("#ff0000", "#ff9900"), red)
  else if greenLaserEyes then Ok (("#009900", "#33ff00"), green)
  else if blueLaserEyes then Ok (("#0033cc", "#66ccff"), blue)
  else if orangeLaserEyes then Ok (("#ff9900", "#ffffff"), orange)
  else Raise (Error "This should never never happen").

(** Lines 141-146: the two palettes of a genesis cat. *)
Definition genesisPalette (designIndex : nat) (inverted : bool) : list (option string) :=
  if bool_decide (designIndex mod 2 = 0) && inverted
     || bool_decide (designIndex mod 2 = 1) && negb inverted
  then [None; Some "#555555"; Some "#d3d3d3"; Some "#ffffff"; Some "#aaaaaa"; Some "#ff9999"]
  else [None; Some "#555555"; Some "#222222"; Some "#111111"; Some "#bbbbbb"; Some "#ff9999"].

(** The TypeError of a property read on [undefined]. *)
Definition TypeError (property : string) : exn :=
  Error ("TypeError: Cannot read properties of undefined (reading '" +:+ property +:+ "')").

Section Parse.
Context `{Imports}.

(** [MooncatParser.parse], lines 65-206.  Without a second byte [k % 128]
    is [NaN], and so is no index of the design tables. *)
Definition parse (catHash : string) (feeRate : number)
  : result (list (list cell) * CatTraits) :=
  bytes ← hexToBytes catHash;
  let genesis := bool_decide (byteAt bytes 0 = Some 79) in
  let k := byteAt bytes 1 in
  let block9Background := between (byteAt bytes 6) 0 25 in
  let cyberpunkBackground := between (byteAt bytes 6) 26 76 in
  let whitepaperBackground := between (byteAt bytes 6) 77 153 in
  let orangeBackground := between (byteAt bytes 6) 154 255 in
  let crown := between (byteAt bytes 7) 120 145 in
  let inverted := match k with Some n => bool_decide (128 ≤ n) | None => false end in
  match (λ n, n mod 128) <$> k with
  | None => Raise (TypeError "split")
  | Some designIndex =>
      match (if crown then laserCrownDesigns else laserDesigns) !! designIndex with
      | None => Raise (TypeError "split")
      | Some text =>
          let design := split "." text in
          let crownColors :=
            if orangeBackground then ("#b8d8e7", "#cbe3f0") else ("#ffaf51", "#ffcf39") in
          '(laserEyesColors, laserEyesName) ← laserEyesOf (byteAt bytes 5);
          colors ←
            (if genesis then Ok (genesisPalette designIndex inverted)
             else
               '(r, g, b) ← feeRateToMempoolColor feeRate;
               derivePalette r g b inverted);
          let colors :=
            colors ++ [Some laserEyesColors.1; Some laserEyesColors.2;
                       Some crownColors.1; Some crownColors.2] in
          let catData := colorRow colors <$> design in
          let designTraits :=
            List.find (λ design, bool_decide (design.1 = designIndex))
                      mooncatDesignsToTraits in
          let genderName := if inverted then female else male in
          let backgroundName :=
            if block9Background then block9
            else if cyberpunkBackground then cyberpunk
            else if whitepaperBackground then whitepaper
            else bg_orange in
          let crownName :=
            if crown then if orangeBackground then diamond else gold else none in
          match designTraits with
          | None => Raise (TypeError "1")
          | Some (_, (pose, expression, pattern, facing)) =>
              Ok (catData,
                  mkCatTraits genesis
                    [colors !! 1; colors !! 2; colors !! 3; colors !! 4; colors !! 5]
                    genderName designIndex pose expression pattern facing
                    laserEyesName backgroundName crownName)
          end
      end
  end.

(** [MooncatParser.parsePlaceholder], lines 213-226. *)
Definition parsePlaceholder : list (list cell) :=
  let colors := [None; Some "#bbbbbb"; Some "#ffffff"; Some "#ffffff"; Some "#ffffff";
                 Some "#ffffff"; Some "#ffffff"; Some "#555555"] in
  colorRow colors <$> split "." placeholderDesign.

(** Lines 243-249: [if (catHash)] takes a string that is not empty. *)
Definition parsed (catHash : option string) (feeRate : number)
  : result (list (list cell) * option CatTraits) :=
  match catHash with
  | Some h =>
      if decide (h = EmptyString) then Ok (parsePlaceholder, None)
      else '(catData, traits) ← parse h feeRate; Ok (catData, Some traits)
  | None => Ok (parsePlaceholder, None)
  end.

(** The double quote and the line feed of the template strings. *)
Definition dq : string := String (ascii_of_nat 34) EmptyString.
Definition lf : string := String (ascii_of_nat 10) EmptyString.

(** [catData[i][j]], for a column [i] of the array. *)
Definition cellAt (catData : list (list cell)) (i j : nat) : cell :=
  column ← catData !! i; mjoin (column !! j).

(** [if (color)]: a string that is not empty. *)
Definition truthy (color : cell) : option string :=
  match color with
  | Some (Some c) => if decide (c = EmptyString) then None else Some c
  | _ => None
  end.

(** Line 263. *)
Definition svgHeader : string :=
  "<svg viewBox=" +:+ dq +:+ "0 0 " +:+ pretty 22%Z +:+ " " +:+ pretty 22%Z +:+ dq
  +:+ " xmlns=" +:+ dq +:+ "http://www.w3.org/2000/svg" +:+ dq +:+ ">" +:+ lf.

(** The template string of line 296. *)
Definition rect (x y : Z) (color : string) : string :=
  "<rect x=" +:+ dq +:+ pretty x +:+ dq +:+ " y=" +:+ dq +:+ pretty y +:+ dq
  +:+ " width=" +:+ dq +:+ "1" +:+ dq +:+ " height=" +:+ dq +:+ "1" +:+ dq
  +:+ " fill=" +:+ dq +:+ color +:+ dq +:+ " stroke=" +:+ dq +:+ color +:+ dq
  +:+ " stroke-width=" +:+ dq +:+ "0.05" +:+ dq +:+ " />" +:+ lf.

(** [generateAxonometricCubePattern(10, 10, 1)], lines 311-361, computes
    its text with [Math.sqrt] on floating-point numbers, which are not
    modelled: the text is a variable. *)
Context (cubePattern : string).

(** The switch of lines 265-290 on [traits?.background]. *)
Definition backgroundSvg (traits : option CatTraits) : string :=
  match background <$> traits with
  | Some block9 => cubePattern
  | Some cyberpunk =>
      "<text x=" +:+ dq +:+ "0" +:+ dq +:+ " y=" +:+ dq +:+ "0" +:+ dq
      +:+ ">010101010101</text>"
  | Some whitepaper =>
      "<text x=" +:+ dq +:+ "0" +:+ dq +:+ " y=" +:+ dq +:+ "0" +:+ dq
      +:+ ">Bitcoin: A Peer-to-Peer Electronic Cash System</text>"
  | _ =>
      "<rect x=" +:+ dq +:+ "0" +:+ dq +:+ " y=" +:+ dq +:+ "0" +:+ dq
      +:+ " width=" +:+ dq +:+ "22" +:+ dq +:+ " height=" +:+ dq +:+ "22" +:+ dq
      +:+ " fill=" +:+ dq +:+ "#ff9900" +:+ dq +:+ " />"
  end.

(** The inner loop of lines 293-298, over [j], for the column [i]. *)
Definition drawColumn (catData : list (list cell)) (xOffset yOffset : Z) (catHeight : nat)
    (i : nat) (svg : string) : string :=
  foldl (λ svg j,
           match truthy (cellAt catData i j) with
           | Some color =>
               svg +:+ rect (Z.of_nat i + xOffset) (Z.of_nat j + yOffset) color
           | None => svg
           end) svg (seq 0 catHeight).

(** Lines 251-306.  [catData[0].length] is a TypeError on an empty array. *)
Definition generateSvg (catData : list (list cell)) (traits : option CatTraits)
  : result (string * option CatTraits) :=
  let gridWidth := 22%Z in
  let gridHeight := 22%Z in
  let catWidth := length catData in
  match catData !! 0 with
  | None => Raise (TypeError "length")
  | Some row0 =>
      let catHeight := length row0 in
      let xOffset := ((gridWidth - Z.of_nat catWidth) `div` 2)%Z in
      let yOffset := Z.max (gridHeight - Z.of_nat catHeight - 1) 0 in
      let svg := svgHeader in
      let svg := svg +:+ backgroundSvg traits in
      let svg := foldl (λ svg i, drawColumn catData xOffset yOffset catHeight i svg)
                       svg (seq 0 catWidth) in
      let svg := svg +:+ "</svg>" in
      Ok (svg, traits)
  end.

(** [MooncatParser.parseAndGenerateSvg], lines 239-306. *)
Definition parseAndGenerateSvg (catHash : option string) (feeRate : number)
  : result (string * option CatTraits) :=
  '(catData, traits) ← parsed catHash feeRate;
  generateSvg catData traits.

(** The squares of a cat, as [(x, y, colour)], in the order of drawing:
    the cells with a colour, column after column, no further down a column
    than the first column is long. *)
Definition pixelsOfColumn (x yOffset : Z) (catHeight : nat) (column : list cell)
  : list (Z * Z * string) :=
  omap (λ '(j, color), (λ c, (x, (Z.of_nat j + yOffset)%Z, c)) <$> truthy color)
       (imap pair (take catHeight column)).

Definition pixels (catData : list (list cell)) : list (Z * Z * string) :=
  let catHeight := length (default [] (catData !! 0)) in
  let xOffset := ((22 - Z.of_nat (length catData)) `div` 2)%Z in
  let yOffset := Z.max (22 - Z.of_nat catHeight - 1) 0 in
  concat (imap (λ i column,
                  pixelsOfColumn (Z.of_nat i + xOffset) yOffset catHeight column)
               catData).

Definition svgOf (catData : list (list cell)) (traits : option CatTraits) : string :=
  svgHeader +:+ backgroundSvg traits
  +:+ String.concat "" ((λ '(x, y, color), rect x y color) <$> pixels catData)
  +:+ "</svg>".
End Parse.
End MooncatParser.

(** ** Concrete helper modules and witness data *)

Module Examples.

(** A stand-in for the decompressor: a stream is the byte 0 followed by the
    payload, stored as it is; anything else is a decompression failure. *)
Definition storedDecompress (b : bytes) : result bytes :=
  match b with
  | x00 :: payload => Ok payload
  | _ => Raise (Error "DecompressionFailure")
  end.

(** The structured-value decoder on its smallest fragment: an unsigned
    integer below 24 is the one byte itself; everything else, truncated
    input included, is a decode error. *)
Definition decodeSmallInt (b : bytes) : result cbor_value :=
  match b with
  | [x] =>
      if bool_decide (Byte.to_nat x < 24)
      then Ok (CborInt (Z.of_nat (Byte.to_nat x)))
      else Raise (Error "MetadataDecodeFailure")
  | _ => Raise (Error "MetadataDecodeFailure")
  end.

Definition helpers : HelperModule :=
  SpecHelpers.helpers storedDecompress decodeSmallInt.

(** A stand-in for the engine: a call takes 65535 arguments. *)
Definition engine : Engine := {| maxArguments := 256 * 256 - 1 |}.

Definition mark : string := "0063036f7264".

(** One envelope: content type text/plain, body "hi". *)
Definition hiEnvelope : list string :=
  [mark; "0101"; "0a746578742f706c61696e"; "00"; "026869"; "68"].

(** An envelope whose value push declares 255 bytes, then [hiEnvelope]. *)
Definition truncatedThenHi : list string :=
  [mark; "0101"; "4cff"] ++ hiEnvelope.

(** An envelope with a pointer field only, then [hiEnvelope]. *)
Definition untypedThenHi : list string :=
  [mark; "0102"; "0105"; "00"; "026869"; "68"] ++ hiEnvelope.

(** The type declared under the two-byte tag 01 00. *)
Definition wideTagEnvelope : list string :=
  [mark; "020100"; "0a746578742f706c61696e"; "00"; "026869"; "68"].

(** Content encoding "br" and a body of one stored stream. *)
Definition brEnvelope : list string :=
  [mark; "0101"; "0a746578742f706c61696e"; "0109"; "026272"; "00"; "03006869"; "68"].

(** Content encoding "br" and a body that is no stream. *)
Definition brokenBrEnvelope : list string :=
  [mark; "0101"; "0a746578742f706c61696e"; "0109"; "026272"; "00"; "026869"; "68"].



(** Three marks in a row, then a push that declares 255 bytes: every
    candidate fails, and each scan resumes inside the bytes the previous
    candidate tried to read. *)
Definition marksOnly : list string :=
  [mark; mark; mark; "4cff"].

(** A metadata field whose bytes are a truncated integer head. *)
Definition badMetadataEnvelope : list string :=
  [mark; "0101"; "0a746578742f706c61696e"; "0105"; "0118"; "00"; "026869"; "68"].

Definition transactionOf (witnesses : list (option (list string))) : Transaction :=
  mkTransaction (mkVin <$> witnesses).

Definition rawOf (w : list string) : bytes :=
  SpecHelpers.hexToBytes (String.concat "" w).

Definition textPlain : bytes :=
  ["t"; "e"; "x"; "t"; "/"; "p"; "l"; "a"; "i"; "n"]%byte.

(** [hiEnvelope] as one witness item, and its 24 bytes. *)
Definition hiItem : string := String.concat "" hiEnvelope.
Definition hiBytes : bytes := rawOf hiEnvelope.
End Examples.

(** ** Stand-ins for the imports of the Mooncat parser *)

Module MooncatExamples.
Import MooncatParser.

(** Two designs each, one traits row for every index below 128; the fee rate
    is a natural number and every cat that is not a genesis cat is grey. *)
Definition imports : Imports := {|
  number := nat;
  hexToBytes := SpecHelpers.hexStringToUint8Array;
  feeRateToMempoolColor := λ feeRate, Ok (feeRate, feeRate, feeRate);
  derivePalette := λ _ _ _ inverted,
    Ok [None; Some "#333333"; Some (if inverted then "#999999" else "#666666");
        Some "#cccccc"; Some "#eeeeee"; Some "#ff9999"];
  laserDesigns := ["0110.1671.0110"; "010.161.020.000"];
  laserCrownDesigns := ["0890.1671.0110"; "080.161.020.000"];
  placeholderDesign := "010.171.0x0";
  mooncatDesignsToTraits :=
    (λ i, (i, ("Standing", "Smile", "Solid", "Left"))) <$> seq 0 128;
|}.

Definition cubes : string := "<svg></svg>".

(** Byte 1 is [0x81]: design 1, female; byte 5 is [0x79]: red laser eyes;
    byte 6 is [0x78]: whitepaper; byte 7 is [0x00]: no crown. *)
Definition genesisHash : string := "4f81000000797800".
(** Byte 6 is [0xff] and byte 7 is [0x80]: a diamond crown on orange. *)
Definition crownedHash : string := "0000000000c0ff80".
(** Four bytes only. *)
Definition shortHash : string := "4f000000".

(** The genesis hash of the stand-ins, parsed: design 1 in the dark palette,
    red laser eyes. *)
Definition genesisCat : list (list cell) :=
  [[Some None; Some (Some "#555555"); Some None];
   [Some (Some "#555555"); Some (Some "#ff0000"); Some (Some "#555555")];
   [Some None; Some (Some "#222222"); Some None];
   [Some None; Some None; Some None]].

Definition genesisTraits : CatTraits :=
  mkCatTraits true
    ((λ c, Some (Some c)) <$> ["#555555"; "#222222"; "#111111"; "#bbbbbb"; "#ff9999"])
    female 1 "Standing" "Smile" "Solid" "Left"
    red whitepaper none.

(** The crowned hash of the stand-ins, parsed: design 0 with a diamond crown
    on the orange background. *)
Definition crownedCat : list (list cell) :=
  [[Some None; Some (Some "#b8d8e7"); Some (Some "#cbe3f0"); Some None];
   [Some (Some "#333333"); Some (Some "#0033cc"); Some (Some "#66ccff");
    Some (Some "#333333")];
   [Some None; Some (Some "#333333"); Some (Some "#333333"); Some None]].

Definition crownedTraits : CatTraits :=
  mkCatTraits false
    ((λ c, Some (Some c)) <$> ["#333333"; "#666666"; "#cccccc"; "#eeeeee"; "#ff9999"])
    male 0 "Standing" "Smile" "Solid" "Left"
    blue bg_orange diamond.
End MooncatExamples.

(** * Properties *)

(** ** Strings *)

Lemma append_empty_r (s : string) : s +:+ "" = s.
Proof. induction s as [|c s IH]; [done|]. exact (f_equal (String c) IH). Qed.

Lemma append_assoc (s1 s2 s3 : string) : (s1 +:+ s2) +:+ s3 = s1 +:+ (s2 +:+ s3).
Proof. induction s1 as [|c s1 IH]; [done|]. exact (f_equal (String c) IH). Qed.

Lemma join_cons (x : string) (w : list string) :
  String.concat "" (x :: w) = x +:+ String.concat "" w.
Proof. destruct w; simpl; [by rewrite append_empty_r|done]. Qed.

Lemma join_app (w1 w2 : list string) :
  String.concat "" (w1 ++ w2) = String.concat "" w1 +:+ String.concat "" w2.
Proof.
  induction w1 as [|x w1 IH]; [done|].
  rewrite <- app_comm_cons, !join_cons, IH. by rewrite append_assoc.
Qed.

(** ** Outcomes *)

Lemma bind_Ret {A B} (m : outcome A) (f : A → outcome B) (b : B) :
  m ≫= f = Ret b ↔ ∃ a, m = Ret a ∧ f a = Ret b.
Proof.
  destruct m as [a| |]; simpl; split; try done; try (by intros (? & ? & _)).
  - by exists a.
  - by intros (? & [= <-] & ?).
Qed.

Lemma bind_Ret_l {A B} (a : A) (f : A → outcome B) : Ret a ≫= f = f a.
Proof. done. Qed.

Lemma omap_cons {A B} (f : A → option B) (x : A) (l : list A) :
  omap f (x :: l) = match f x with Some y => y :: omap f l | None => omap f l end.
Proof. done. Qed.

Lemma try_catch_returns {A} (body : outcome A) (a : A) :
  body ≠ OutOfFuel → returns (try_catch body (λ _, Ret a)).
Proof. destruct body as [a'| |]; simpl; intros Hb; [by exists a'|by exists a|done]. Qed.

(** ** Body assembly is concatenation *)

Lemma combinedLength_sum (data : list bytes) (n : nat) :
  fold_left (λ acc curr, acc + length curr) data n = n + sum_list_with length data.
Proof.
  revert n. induction data as [|segment data IH]; intros n; simpl; [lia|].
  rewrite IH. lia.
Qed.


Lemma copySegments_concat (data : list bytes) (combinedData : bytes) (idx : nat) :
  length combinedData = idx + sum_list_with length data →
  copySegments data combinedData idx = Ret (take idx combinedData ++ concat data).
Proof.
  revert combinedData idx.
  induction data as [|segment data IH]; intros combinedData idx Hlen; simpl in *.
  - rewrite take_ge by lia. by rewrite app_nil_r.
  - unfold Uint8Array_set. rewrite bool_decide_eq_true_2 by lia. simpl.
    rewrite IH.
    + rewrite (assoc_L (++)), take_app_length'; [by rewrite <- (assoc_L (++))|].
      rewrite length_app, length_take_le by lia. done.
    + rewrite !length_app, length_take_le, length_drop by lia. lia.
Qed.

Lemma combineData_concat (data : list bytes) : combineData data = Ret (concat data).
Proof.
  unfold combineData. rewrite copySegments_concat; [done|].
  unfold Uint8Array_new. by rewrite length_replicate, combinedLength_sum.
Qed.

(** ** The scanner *)

Section Scanner.
Context `{HelperModule}.

Lemma inscriptionMark_length : 0 < length inscriptionMark.
Proof.
  pose proof inscriptionMark_nonempty as Hne.
  destruct inscriptionMark; [done|simpl; lia].
Qed.

Lemma markAt_bound (raw : bytes) (index : nat) :
  markAt inscriptionMark raw index → index + length inscriptionMark ≤ length raw.
Proof.
  unfold markAt. intros Hm. pose proof inscriptionMark_length.
  assert (length (take (length inscriptionMark) (drop index raw))
          = length inscriptionMark) as Hl by (by rewrite Hm).
  rewrite length_take, length_drop in Hl. lia.
Qed.

(** What the scanner returns: the end of the first mark that starts at or
    after [startPosition]. *)
Lemma getNextInscriptionMark_Some (raw : bytes) (startPosition pointer : nat) :
  getNextInscriptionMark raw startPosition = Some pointer ↔
  ∃ index, pointer = index + length inscriptionMark ∧
           startPosition ≤ index ∧
           markAt inscriptionMark raw index ∧
           ∀ j, startPosition ≤ j < index → ¬ markAt inscriptionMark raw j.
Proof.
  unfold getNextInscriptionMark. split.
  - destruct (list_find _ _) as [[i index]|] eqn:E; [|done].
    intros [= <-]. apply list_find_Some in E as (Hi & Hm & Hmin).
    apply lookup_seq in Hi as [-> Hi]. exists (startPosition + i).
    split_and!; [done|lia|done|].
    intros j Hj. apply (Hmin (j - startPosition) j); [|lia].
    apply lookup_seq. lia.
  - intros (index & -> & Hle & Hm & Hmin).
    pose proof (markAt_bound _ _ Hm) as Hb.
    assert (list_find (markAt inscriptionMark raw)
              (seq startPosition (S (length raw) - startPosition))
            = Some (index - startPosition, index)) as ->; [|done].
    apply list_find_Some. split_and!; [apply lookup_seq; lia|done|].
    intros j y [-> ?]%lookup_seq ?. apply Hmin. lia.
Qed.

Lemma getNextInscriptionMark_None (raw : bytes) (startPosition : nat) :
  getNextInscriptionMark raw startPosition = None ↔
  ∀ index, startPosition ≤ index → ¬ markAt inscriptionMark raw index.
Proof.
  unfold getNextInscriptionMark. split.
  - destruct (list_find _ _) as [[i index]|] eqn:E; [done|].
    intros _ index Hle Hm. pose proof (markAt_bound _ _ Hm).
    apply list_find_None in E. rewrite Forall_forall in E.
    apply (E index); [|done]. apply elem_of_seq. lia.
  - intros Hnone. destruct (list_find _ _) as [[i index]|] eqn:E; [|done].
    apply list_find_Some in E as ([-> ?]%lookup_seq & Hm & _).
    destruct (Hnone (startPosition + i)); [lia|done].
Qed.

(** The offset returned lies strictly past the offset the scan started
    at, and within the buffer. *)
Lemma getNextInscriptionMark_advances (raw : bytes) (startPosition pointer : nat) :
  getNextInscriptionMark raw startPosition = Some pointer →
  startPosition < pointer ≤ length raw.
Proof.
  intros (index & -> & Hle & Hm & _)%getNextInscriptionMark_Some.
  pose proof (markAt_bound _ _ Hm). pose proof inscriptionMark_length. lia.
Qed.
End Scanner.

(** ** The orchestrator, for an extraction that always returns *)

Section OrchestratorTheory.
Context `{HelperModule} {E : Engine}.
Context {ParsedInscription : Type}.
Variable extract : bytes → nat → outcome (option ParsedInscription).
Hypothesis extract_returns : ∀ raw p, returns (extract raw p).

Lemma scanLoop_marks (fuel : nat) (raw : bytes) (s : nat) (acc : list ParsedInscription) :
  length raw - s < fuel →
  scanLoop extract fuel raw s acc
  = Ret (acc ++ omap (extracted extract raw) (marksFrom fuel raw s)).
Proof using extract_returns.
  revert s acc. induction fuel as [|fuel IH]; intros s acc Hfuel; [lia|].
  cbn [scanLoop marksFrom].
  destruct (getNextInscriptionMark raw s) as [p|] eqn:Hscan.
  - apply getNextInscriptionMark_advances in Hscan.
    rewrite omap_cons. unfold extracted at 1.
    destruct (extract_returns raw p) as [o ->]. rewrite bind_Ret_l.
    rewrite IH by lia. destruct o; [|done].
    by rewrite <- (assoc_L (++)).
  - by rewrite app_nil_r.
Qed.

Lemma marksFrom_fuel (fuel fuel' : nat) (raw : bytes) (s : nat) :
  length raw - s < fuel → length raw - s < fuel' →
  marksFrom fuel raw s = marksFrom fuel' raw s.
Proof.
  revert fuel' s. induction fuel as [|fuel IH]; intros fuel' s Hf Hf'; [lia|].
  destruct fuel' as [|fuel']; [lia|]. simpl.
  destruct (getNextInscriptionMark raw s) as [p|] eqn:Hscan; [|done].
  apply getNextInscriptionMark_advances in Hscan. f_equal. apply IH; lia.
Qed.

Lemma marksFrom_sorted (fuel : nat) (raw : bytes) (s : nat) :
  StronglySorted lt (s :: marksFrom fuel raw s).
Proof.
  revert s. induction fuel as [|fuel IH]; intros s; simpl.
  { repeat constructor. }
  destruct (getNextInscriptionMark raw s) as [p|] eqn:Hscan; [|repeat constructor].
  apply getNextInscriptionMark_advances in Hscan.
  specialize (IH p). constructor; [done|].
  apply StronglySorted_inv in IH as [_ Hall].
  constructor; [lia|]. eapply Forall_impl; [exact Hall|]. simpl. lia.
Qed.

Lemma scanLoop_enough_fuel (fuel : nat) (raw : bytes) :
  length raw < fuel →
  scanLoop extract fuel raw 0 [] = Ret (witnessInscriptions extract raw).
Proof using extract_returns.
  intros Hf. rewrite scanLoop_marks by lia. simpl. unfold witnessInscriptions, envelopeOffsets.
  do 2 f_equal. apply marksFrom_fuel; lia.
Qed.

Lemma scanWitness_witnessInscriptions (raw : bytes) :
  scanWitness extract raw = Ret (witnessInscriptions extract raw).
Proof using extract_returns. apply scanLoop_enough_fuel. lia. Qed.

Lemma parseInscriptionsWithinWitness_Ret (w : list string) (raw : bytes) :
  hexStringToUint8Array (String.concat "" w) = Ok raw →
  parseInscriptionsWithinWitness extract w
  = Ret (if bool_decide (0 < length (witnessInscriptions extract raw))
         then Some (witnessInscriptions extract raw) else None).
Proof using extract_returns.
  intros Hhex. unfold parseInscriptionsWithinWitness. rewrite Hhex. simpl.
  by rewrite scanWitness_witnessInscriptions.
Qed.

Lemma Array_push_spread_Ret {A} (array items l : list A) :
  Array_push_spread array items = Ret l ↔
  length items ≤ maxArguments ∧ l = array ++ items.
Proof.
  unfold Array_push_spread. case_bool_decide; split.
  - by intros [= <-].
  - by intros [_ ->].
  - done.
  - intros [? _]. lia.
Qed.

Lemma parseVins_Ret (vins : list Vin) (acc : list ParsedInscription) :
  Forall (λ v, match witness v with
               | Some w => is_Ok (hexStringToUint8Array (String.concat "" w))
               | None => True
               end) vins →
  Forall (λ v, length (vinInscriptions extract v) ≤ maxArguments) vins →
  parseVins extract vins acc = Ret (acc ++ (vins ≫= vinInscriptions extract)).
Proof using extract_returns.
  revert acc. induction vins as [|v vins IH]; intros acc Hhex Hfits; simpl.
  { by rewrite app_nil_r. }
  apply Forall_cons in Hhex as [Hv Hvins]. apply Forall_cons in Hfits as [Hfit Hfits].
  unfold vinInscriptions in Hfit |- * at 1.
  destruct (witness v) as [w|]; [|by rewrite IH].
  destruct Hv as [raw Hraw]. rewrite (parseInscriptionsWithinWitness_Ret _ _ Hraw), Hraw.
  rewrite Hraw in Hfit. simpl.
  case_bool_decide as Hlen.
  - unfold Array_push_spread. rewrite bool_decide_eq_true_2 by done. simpl.
    rewrite IH by done. by rewrite (assoc_L (++)).
  - rewrite IH by done. destruct (witnessInscriptions extract raw); [done|simpl in Hlen; lia].
Qed.

Lemma parseVins_returns_hex (vins : list Vin) (acc : list ParsedInscription) :
  returns (parseVins extract vins acc) →
  Forall (λ v, match witness v with
               | Some w => is_Ok (hexStringToUint8Array (String.concat "" w))
               | None => True
               end) vins.
Proof.
  revert acc. induction vins as [|v vins IH]; intros acc Hret; [constructor|].
  simpl in Hret. destruct (witness v) as [w|] eqn:Hw.
  - destruct Hret as [l Hl]. apply bind_Ret in Hl as (o & Hwithin & Hrest).
    constructor.
    + rewrite Hw. unfold parseInscriptionsWithinWitness in Hwithin.
      apply bind_Ret in Hwithin as (raw & Hraw & _).
      destruct (hexStringToUint8Array _) as [raw'|]; [by exists raw'|done].
    + destruct o.
      * apply bind_Ret in Hrest as (acc' & _ & Hrest). eapply IH. by eexists.
      * eapply IH. by eexists.
  - constructor; [by rewrite Hw|]. by eapply IH.
Qed.

Lemma parseVins_returns_fits (vins : list Vin) (acc : list ParsedInscription) :
  returns (parseVins extract vins acc) →
  Forall (λ v, length (vinInscriptions extract v) ≤ maxArguments) vins.
Proof using extract_returns.
  revert acc. induction vins as [|v vins IH]; intros acc Hret; [constructor|].
  simpl in Hret. destruct (witness v) as [w|] eqn:Hw.
  - destruct Hret as [l Hl]. apply bind_Ret in Hl as (o & Hwithin & Hrest).
    destruct (hexStringToUint8Array (String.concat "" w)) as [raw|e] eqn:Hraw.
    2: { unfold parseInscriptionsWithinWitness in Hwithin. by rewrite Hraw in Hwithin. }
    rewrite (parseInscriptionsWithinWitness_Ret _ _ Hraw) in Hwithin.
    injection Hwithin as <-. case_bool_decide as Hlen.
    + apply bind_Ret in Hrest as (acc' & [Hfit _]%Array_push_spread_Ret & Hrest).
      constructor; [unfold vinInscriptions; by rewrite Hw, Hraw|]. eapply IH. by eexists.
    + constructor; [|eapply IH; by eexists].
      unfold vinInscriptions. rewrite Hw, Hraw.
      destruct (witnessInscriptions extract raw); simpl in *; lia.
  - constructor; [unfold vinInscriptions; rewrite Hw; simpl; lia|]. by eapply IH.
Qed.

Lemma parseInscriptions_Ret (transaction : Transaction) :
  hexReturns transaction →
  spreadFits extract transaction →
  parseInscriptions extract transaction
  = Ret (vin transaction ≫= vinInscriptions extract).
Proof using extract_returns.
  intros Hhex Hfits. unfold parseInscriptions. by rewrite parseVins_Ret.
Qed.

Lemma parseInscriptions_returns_iff (transaction : Transaction) :
  returns (parseInscriptions extract transaction) ↔
  hexReturns transaction ∧ spreadFits extract transaction.
Proof using extract_returns.
  split.
  - intros Hret. split; [by eapply parseVins_returns_hex|by eapply parseVins_returns_fits].
  - intros [Hhex Hfits]. rewrite parseInscriptions_Ret by done. by eexists.
Qed.
End OrchestratorTheory.

(** ** [UnnamedParser]: the loops against the specification's relations *)

Lemma call_Ret {A} (r : result A) (a : A) : call r = Ret a ↔ r = Ok a.
Proof. destruct r; simpl; split; congruence. Qed.

Lemma loop_condition (raw : bytes) (p : nat) (stop : byte) :
  bool_decide (p < length raw) && bool_decide (raw !! p ≠ Some stop) = true
  ↔ p < length raw ∧ raw !! p ≠ Some stop.
Proof. by rewrite andb_true_iff, !bool_decide_eq_true. Qed.

Ltac case_loop_condition Hc :=
  match goal with
  | |- context [bool_decide (?p < length ?raw) && bool_decide (?raw !! ?p ≠ Some ?b)] =>
      destruct (bool_decide (p < length raw) && bool_decide (raw !! p ≠ Some b)) eqn:Hc;
      [apply loop_condition in Hc
      |apply not_true_iff_false in Hc; rewrite loop_condition in Hc]
  | H : context [bool_decide (?p < length ?raw) && bool_decide (?raw !! ?p ≠ Some ?b)] |- _ =>
      destruct (bool_decide (p < length raw) && bool_decide (raw !! p ≠ Some b)) eqn:Hc;
      [apply loop_condition in Hc
      |apply not_true_iff_false in Hc; rewrite loop_condition in Hc]
  end.

Section UnnamedTheory.
Context `{HelperModule}.
Import UnnamedParser.

Lemma unnamed_readFields_sound (fuel : nat) (raw : bytes) (p : nat) (acc fs : list Field) (p' : nat) :
  readFields fuel raw p acc = Ret (fs, p') →
  ∃ fs', fs = acc ++ fs' ∧ fieldPairs raw p fs' p'.
Proof.
  revert p acc. induction fuel as [|fuel IH]; intros p acc; simpl; [done|].
  case_loop_condition Hc.
  - intros ([tg p1] & Htag%call_Ret & ([vl p2] & Hvalue%call_Ret & Hrest)%bind_Ret)%bind_Ret.
    apply IH in Hrest as (fs' & -> & Hfs'). exists (mkField tg vl :: fs'). split.
    + by rewrite <- (assoc_L (++)).
    + destruct Hc. by eapply fieldPairs_pair.
  - intros [= <- <-]. exists []. split; [by rewrite app_nil_r|by constructor].
Qed.

Lemma unnamed_readFields_complete (fuel : nat) (raw : bytes) (p : nat) (acc fs : list Field) (p' : nat) :
  fieldPairs raw p fs p' → length raw - p < fuel →
  readFields fuel raw p acc = Ret (acc ++ fs, p').
Proof.
  intros Hfs. revert fuel acc.
  induction Hfs as [p Hstop|p tg p1 vl p2 fs p' Hlt Hne Htag Hvalue _ IH];
    intros fuel acc Hfuel; (destruct fuel as [|fuel]; [lia|]); simpl.
  - case_loop_condition Hc; [done|]. by rewrite app_nil_r.
  - case_loop_condition Hc; [|by destruct Hc].
    rewrite Htag. simpl. rewrite Hvalue. simpl.
    apply readPushdata_advances in Htag, Hvalue.
    rewrite IH by lia. by rewrite <- (assoc_L (++)).
Qed.

Lemma unnamed_readFields_fuel (fuel : nat) (raw : bytes) (p : nat) (acc : list Field) :
  length raw - p < fuel → readFields fuel raw p acc ≠ OutOfFuel.
Proof.
  revert p acc. induction fuel as [|fuel IH]; intros p acc Hfuel; [lia|]. simpl.
  case_loop_condition Hc; [|done].
  destruct (readPushdata raw p) as [[tg p1]|] eqn:Htag; [|done]. simpl.
  destruct (readPushdata raw p1) as [[vl p2]|] eqn:Hvalue; [|done]. simpl.
  apply readPushdata_advances in Htag, Hvalue. apply IH. lia.
Qed.

Lemma unnamed_readBody_sound (fuel : nat) (raw : bytes) (p : nat) (acc data : list bytes) (p' : nat) :
  readBody fuel raw p acc = Ret (data, p') →
  ∃ data', data = acc ++ data' ∧ bodyChunks raw p data' p'.
Proof.
  revert p acc. induction fuel as [|fuel IH]; intros p acc; simpl; [done|].
  case_loop_condition Hc.
  - intros ([sl p1] & Hsl%call_Ret & Hrest)%bind_Ret.
    apply IH in Hrest as (data' & -> & Hdata'). exists (sl :: data'). split.
    + by rewrite <- (assoc_L (++)).
    + destruct Hc. by eapply bodyChunks_chunk.
  - intros [= <- <-]. exists []. split; [by rewrite app_nil_r|by constructor].
Qed.

Lemma unnamed_readBody_complete (fuel : nat) (raw : bytes) (p : nat) (acc data : list bytes) (p' : nat) :
  bodyChunks raw p data p' → length raw - p < fuel →
  readBody fuel raw p acc = Ret (acc ++ data, p').
Proof.
  intros Hdata. revert fuel acc.
  induction Hdata as [p Hstop|p sl p1 data p' Hlt Hne Hsl _ IH];
    intros fuel acc Hfuel; (destruct fuel as [|fuel]; [lia|]); simpl.
  - case_loop_condition Hc; [done|]. by rewrite app_nil_r.
  - case_loop_condition Hc; [|by destruct Hc].
    rewrite Hsl. simpl. apply readPushdata_advances in Hsl.
    rewrite IH by lia. by rewrite <- (assoc_L (++)).
Qed.

Lemma unnamed_readBody_fuel (fuel : nat) (raw : bytes) (p : nat) (acc : list bytes) :
  length raw - p < fuel → readBody fuel raw p acc ≠ OutOfFuel.
Proof.
  revert p acc. induction fuel as [|fuel IH]; intros p acc Hfuel; [lia|]. simpl.
  case_loop_condition Hc; [|done].
  destruct (readPushdata raw p) as [[sl p1]|] eqn:Hsl; [|done]. simpl.
  apply readPushdata_advances in Hsl. apply IH. lia.
Qed.

Lemma try_catch_Ret_Some {A} (body : outcome (option A)) (a : A) :
  try_catch body (λ _, Ret None) = Ret (Some a) ↔ body = Ret (Some a).
Proof. destruct body; simpl; split; congruence. Qed.

Lemma unnamed_skipBodySeparator (raw : bytes) (p : nat) :
  skipBodySeparator raw p = afterSeparator raw p.
Proof. done. Qed.

Lemma unnamed_extractBody_fuel (raw : bytes) (p : nat) :
  extractBody raw p ≠ OutOfFuel.
Proof.
  unfold extractBody.
  pose proof (unnamed_readFields_fuel (S (length raw)) raw p []) as Hfields.
  destruct (readFields _ raw p []) as [[fs p1]| |];
    [rewrite bind_Ret_l; cbv beta iota|done|destruct Hfields; [lia|done]].
  pose proof (unnamed_readBody_fuel (S (length raw)) raw (skipBodySeparator raw p1) []) as Hbody.
  destruct (readBody _ raw _ []) as [[data p2]| |];
    [rewrite bind_Ret_l; cbv beta iota|done|destruct Hbody; [lia|done]].
  rewrite combineData_concat, bind_Ret_l.
  destruct (getKnownFieldValue fs _); [|done].
  unfold decodeBody. case_bool_decide; [|done].
  by destruct (brotliDecodeUint8Array _).
Qed.

(** The extraction always returns: whatever is thrown inside is caught. *)
Lemma unnamed_extract_returns (raw : bytes) (p : nat) :
  returns (extractInscriptionData raw p).
Proof. apply try_catch_returns, unnamed_extractBody_fuel. Qed.

(** When the extraction yields a record, and which. *)
Lemma unnamed_extract_Some (raw : bytes) (p : nat) (r : ParsedInscription) :
  extractInscriptionData raw p = Ret (Some r) ↔
  ∃ fs p1 data p2 ct body,
    fieldPairs raw p fs p1 ∧
    bodyChunks raw (afterSeparator raw p1) data p2 ∧
    getKnownFieldValue fs knownFields.content_type = Some ct ∧
    decodeBody (decodeContentEncoding fs) (concat data) = Ret body ∧
    r = mkParsedInscription (uint8ArrayToSingleByteChars ct) fs body
          (decodeContentEncoding fs).
Proof.
  unfold extractInscriptionData. rewrite try_catch_Ret_Some. unfold extractBody. split.
  - intros ([fs p1] & Hfields & ([data p2] & Hbody & Hrest)%bind_Ret)%bind_Ret.
    apply unnamed_readFields_sound in Hfields as (fs' & -> & Hfields).
    apply unnamed_readBody_sound in Hbody as (data' & -> & Hbody).
    rewrite combineData_concat, bind_Ret_l in Hrest. simpl in *.
    destruct (getKnownFieldValue fs' _) as [ct|] eqn:Hct; [|done].
    apply bind_Ret in Hrest as (body & Hdecode & [= <-]).
    by exists fs', p1, data', p2, ct, body.
  - intros (fs & p1 & data & p2 & ct & body & Hfields & Hbody & Hct & Hdecode & ->).
    rewrite (unnamed_readFields_complete _ _ _ [] _ _ Hfields) by lia.
    rewrite bind_Ret_l. cbv beta iota. rewrite unnamed_skipBodySeparator.
    rewrite (unnamed_readBody_complete _ _ _ [] _ _ Hbody) by lia.
    rewrite bind_Ret_l. cbv beta iota.
    rewrite combineData_concat, bind_Ret_l. simpl. by rewrite Hct, Hdecode.
Qed.

(** A candidate whose field section has no content type yields no record. *)
Lemma unnamed_extract_no_content_type (raw : bytes) (p : nat) (fs : list Field) (p1 : nat) :
  fieldPairs raw p fs p1 →
  getKnownFieldValue fs knownFields.content_type = None →
  extractInscriptionData raw p = Ret None.
Proof.
  intros Hfields Hct.
  destruct (unnamed_extract_returns raw p) as [[r|] Hr]; [|done].
  apply unnamed_extract_Some in Hr as (fs' & p1' & _ & _ & ct & _ & Hfields' & _ & Hct' & _).
  apply (unnamed_readFields_complete (S (length raw)) _ _ []) in Hfields, Hfields'; try lia.
  rewrite Hfields in Hfields'. simplify_eq. 
Qed.

(** A candidate in which something is thrown yields no record. *)
Lemma unnamed_extract_throw (raw : bytes) (p : nat) (e : exn) :
  extractBody raw p = Throw e → extractInscriptionData raw p = Ret None.
Proof. unfold extractInscriptionData. by intros ->. Qed.
End UnnamedTheory.

(** ** [SrcParser]: the loops against the specification's relations *)

Section SrcTheory.
Context `{HelperModule}.
Import SrcParser.

Lemma readPushdataCursor_Ret (raw : bytes) (p : nat) (c : cursor) :
  readPushdataCursor raw p = Ret c ↔ readPushdata raw p = Ok (slice c, pointer c).
Proof.
  unfold readPushdataCursor. destruct (readPushdata raw p) as [[s p']|]; simpl; [|done].
  destruct c as [s' p'']. simpl. split; by intros [= -> ->].
Qed.

Lemma readPushdataCursor_Ok (raw : bytes) (p : nat) (s : bytes) (p' : nat) :
  readPushdata raw p = Ok (s, p') → readPushdataCursor raw p = Ret (mkCursor s p').
Proof. intros Hr. by apply readPushdataCursor_Ret. Qed.

Lemma readPushdataCursor_fuel (raw : bytes) (p : nat) :
  readPushdataCursor raw p ≠ OutOfFuel.
Proof. unfold readPushdataCursor. by destruct (readPushdata raw p) as [[s p']|]. Qed.

Lemma src_readFields_sound (fuel : nat) (raw : bytes) (c : cursor) (acc fs : list Field) (c' : cursor) :
  readFields fuel raw c acc = Ret (fs, c') →
  ∃ fs', fs = acc ++ fs' ∧ fieldPairs raw (pointer c) fs' (pointer c').
Proof.
  revert c acc. induction fuel as [|fuel IH]; intros c acc; simpl; [done|].
  case_loop_condition Hc.
  - intros (c1 & Htag%readPushdataCursor_Ret & (c2 & Hvalue%readPushdataCursor_Ret & Hrest)%bind_Ret)%bind_Ret.
    apply IH in Hrest as (fs' & -> & Hfs'). exists (mkField (slice c1) (slice c2) :: fs'). split.
    + by rewrite <- (assoc_L (++)).
    + destruct Hc. by eapply fieldPairs_pair.
  - intros [= <- <-]. exists []. split; [by rewrite app_nil_r|by constructor].
Qed.

Lemma src_readFields_complete (fuel : nat) (raw : bytes) (p : nat) (acc fs : list Field) (p' : nat) :
  fieldPairs raw p fs p' → length raw - p < fuel →
  ∀ c, pointer c = p →
  ∃ c', readFields fuel raw c acc = Ret (acc ++ fs, c') ∧ pointer c' = p'.
Proof.
  intros Hfs. revert fuel acc.
  induction Hfs as [p Hstop|p tg p1 vl p2 fs p' Hlt Hne Htag Hvalue _ IH];
    intros fuel acc Hfuel c <-; (destruct fuel as [|fuel]; [lia|]); simpl.
  - case_loop_condition Hc; [done|]. exists c. by rewrite app_nil_r.
  - case_loop_condition Hc; [|by destruct Hc].
    rewrite (readPushdataCursor_Ok _ _ _ _ Htag), bind_Ret_l. simpl.
    rewrite (readPushdataCursor_Ok _ _ _ _ Hvalue), bind_Ret_l. simpl.
    apply readPushdata_advances in Htag, Hvalue.
    destruct (IH fuel (acc ++ [mkField tg vl]) ltac:(lia) (mkCursor vl p2) eq_refl)
      as (c' & -> & <-).
    exists c'. by rewrite <- (assoc_L (++)).
Qed.

Lemma src_readFields_fuel (fuel : nat) (raw : bytes) (c : cursor) (acc : list Field) :
  length raw - pointer c < fuel → readFields fuel raw c acc ≠ OutOfFuel.
Proof.
  revert c acc. induction fuel as [|fuel IH]; intros c acc Hfuel; [lia|]. simpl.
  case_loop_condition Hc; [|done].
  destruct (readPushdataCursor raw (pointer c)) as [c1| |] eqn:Htag;
    [|done|by destruct (readPushdataCursor_fuel raw (pointer c))].
  rewrite bind_Ret_l.
  destruct (readPushdataCursor raw (pointer c1)) as [c2| |] eqn:Hvalue;
    [|done|by destruct (readPushdataCursor_fuel raw (pointer c1))].
  rewrite bind_Ret_l.
  apply readPushdataCursor_Ret, readPushdata_advances in Htag, Hvalue. apply IH. lia.
Qed.

Lemma src_readBody_sound (fuel : nat) (raw : bytes) (c : cursor) (acc data : list bytes) (c' : cursor) :
  readBody fuel raw c acc = Ret (data, c') →
  ∃ data', data = acc ++ data' ∧ bodyChunks raw (pointer c) data' (pointer c').
Proof.
  revert c acc. induction fuel as [|fuel IH]; intros c acc; simpl; [done|].
  case_loop_condition Hc.
  - intros (c1 & Hsl%readPushdataCursor_Ret & Hrest)%bind_Ret.
    apply IH in Hrest as (data' & -> & Hdata'). exists (slice c1 :: data'). split.
    + by rewrite <- (assoc_L (++)).
    + destruct Hc. by eapply bodyChunks_chunk.
  - intros [= <- <-]. exists []. split; [by rewrite app_nil_r|by constructor].
Qed.

Lemma src_readBody_complete (fuel : nat) (raw : bytes) (p : nat) (acc data : list bytes) (p' : nat) :
  bodyChunks raw p data p' → length raw - p < fuel →
  ∀ c, pointer c = p →
  ∃ c', readBody fuel raw c acc = Ret (acc ++ data, c') ∧ pointer c' = p'.
Proof.
  intros Hdata. revert fuel acc.
  induction Hdata as [p Hstop|p sl p1 data p' Hlt Hne Hsl _ IH];
    intros fuel acc Hfuel c <-; (destruct fuel as [|fuel]; [lia|]); simpl.
  - case_loop_condition Hc; [done|]. exists c. by rewrite app_nil_r.
  - case_loop_condition Hc; [|by destruct Hc].
    rewrite (readPushdataCursor_Ok _ _ _ _ Hsl), bind_Ret_l. simpl.
    apply readPushdata_advances in Hsl.
    destruct (IH fuel (acc ++ [sl]) ltac:(lia) (mkCursor sl p1) eq_refl) as (c' & -> & <-).
    exists c'. by rewrite <- (assoc_L (++)).
Qed.

Lemma src_readBody_fuel (fuel : nat) (raw : bytes) (c : cursor) (acc : list bytes) :
  length raw - pointer c < fuel → readBody fuel raw c acc ≠ OutOfFuel.
Proof.
  revert c acc. induction fuel as [|fuel IH]; intros c acc Hfuel; [lia|]. simpl.
  case_loop_condition Hc; [|done].
  destruct (readPushdataCursor raw (pointer c)) as [c1| |] eqn:Hsl;
    [|done|by destruct (readPushdataCursor_fuel raw (pointer c))].
  rewrite bind_Ret_l.
  apply readPushdataCursor_Ret, readPushdata_advances in Hsl. apply IH. lia.
Qed.

Lemma src_skipBodySeparator (raw : bytes) (c : cursor) :
  pointer (skipBodySeparator raw c) = afterSeparator raw (pointer c).
Proof. unfold skipBodySeparator, afterSeparator. by destruct (_ && _). Qed.

Lemma src_extractBody_fuel (raw : bytes) (p : nat) :
  extractBody raw p ≠ OutOfFuel.
Proof.
  unfold extractBody.
  pose proof (src_readFields_fuel (S (length raw)) raw (mkCursor [] p) []) as Hfields.
  destruct (readFields _ raw _ []) as [[fs c1]| |];
    [rewrite bind_Ret_l; cbv beta iota|done|destruct Hfields; [simpl; lia|done]].
  pose proof (src_readBody_fuel (S (length raw)) raw (skipBodySeparator raw c1) []) as Hbody.
  destruct (readBody _ raw _ []) as [[data c2]| |];
    [rewrite bind_Ret_l; cbv beta iota|done|destruct Hbody; [lia|done]].
  rewrite combineData_concat, bind_Ret_l.
  by destruct (findContentTypeField fs).
Qed.

(** The extraction always returns: whatever is thrown inside is caught. *)
Lemma src_extract_returns (raw : bytes) (p : nat) :
  returns (extractInscriptionData raw p).
Proof. apply try_catch_returns, src_extractBody_fuel. Qed.

(** When the extraction yields a record, and which. *)
Lemma src_extract_Some (raw : bytes) (p : nat) (r : ParsedInscription) :
  extractInscriptionData raw p = Ret (Some r) ↔
  ∃ fs p1 data p2 f,
    fieldPairs raw p fs p1 ∧
    bodyChunks raw (afterSeparator raw p1) data p2 ∧
    findContentTypeField fs = Some f ∧
    r = mkParsedInscription (uint8ArrayToSingleByteChars (value f)) fs (concat data).
Proof.
  unfold extractInscriptionData. rewrite try_catch_Ret_Some. unfold extractBody. split.
  - intros ([fs c1] & Hfields & ([data c2] & Hbody & Hrest)%bind_Ret)%bind_Ret.
    apply src_readFields_sound in Hfields as (fs' & -> & Hfields).
    apply src_readBody_sound in Hbody as (data' & -> & Hbody).
    rewrite src_skipBodySeparator in Hbody.
    rewrite combineData_concat, bind_Ret_l in Hrest. simpl in *.
    destruct (findContentTypeField fs') as [f|] eqn:Hf; [|done].
    injection Hrest as <-.
    by exists fs', (pointer c1), data', (pointer c2), f.
  - intros (fs & p1 & data & p2 & f & Hfields & Hbody & Hf & ->).
    destruct (src_readFields_complete (S (length raw)) _ _ [] _ _ Hfields ltac:(lia)
                (mkCursor [] p) eq_refl) as (c1 & -> & <-).
    rewrite bind_Ret_l. cbv beta iota.
    rewrite <- src_skipBodySeparator in Hbody.
    destruct (src_readBody_complete (S (length raw)) _ _ [] _ _ Hbody ltac:(lia)
                (skipBodySeparator raw c1) eq_refl) as (c2 & -> & <-).
    rewrite bind_Ret_l. cbv beta iota.
    rewrite combineData_concat, bind_Ret_l. simpl. by rewrite Hf.
Qed.

(** A candidate whose field section has no content type yields no record. *)
Lemma src_extract_no_content_type (raw : bytes) (p : nat) (fs : list Field) (p1 : nat) :
  fieldPairs raw p fs p1 →
  findContentTypeField fs = None →
  extractInscriptionData raw p = Ret None.
Proof.
  intros Hfields Hct.
  destruct (src_extract_returns raw p) as [[r|] Hr]; [|done].
  apply src_extract_Some in Hr as (fs' & p1' & _ & _ & f & Hfields' & _ & Hf & _).
  apply (unnamed_readFields_complete (S (length raw)) _ _ []) in Hfields, Hfields'; try lia.
  rewrite Hfields in Hfields'. simplify_eq.
Qed.

(** A candidate in which something is thrown yields no record. *)
Lemma src_extract_throw (raw : bytes) (p : nat) (e : exn) :
  extractBody raw p = Throw e → extractInscriptionData raw p = Ret None.
Proof. unfold extractInscriptionData. by intros ->. Qed.
End SrcTheory.

(** ** Where the records of a transaction come from *)

Section Provenance.
Context `{HelperModule} {E : Engine}.
Context {ParsedInscription : Type}.
Variable extract : bytes → nat → outcome (option ParsedInscription).
Hypothesis extract_returns : ∀ raw p, returns (extract raw p).

Lemma extracted_Some (raw : bytes) (p : nat) (r : ParsedInscription) :
  extracted extract raw p = Some r ↔ extract raw p = Ret (Some r).
Proof. unfold extracted. destruct (extract raw p) as [[r'|]| |]; split; congruence. Qed.

(** Every record returned was extracted at one of the offsets the scanner
    found in some input's witness buffer. *)
Lemma parseInscriptions_provenance (transaction : Transaction)
    (l : list ParsedInscription) (r : ParsedInscription) :
  parseInscriptions extract transaction = Ret l → r ∈ l →
  ∃ v w raw p,
    v ∈ vin transaction ∧ witness v = Some w ∧
    hexStringToUint8Array (String.concat "" w) = Ok raw ∧
    p ∈ envelopeOffsets raw ∧ extract raw p = Ret (Some r).
Proof using extract_returns.
  intros Hl Hr.
  assert (hexReturns transaction ∧ spreadFits extract transaction) as [Hhex Hfits].
  { apply (parseInscriptions_returns_iff extract extract_returns). by exists l. }
  rewrite (parseInscriptions_Ret extract extract_returns _ Hhex Hfits) in Hl.
  injection Hl as <-. apply list_elem_of_bind in Hr as (v & Hr & Hv).
  unfold vinInscriptions in Hr. destruct (witness v) as [w|] eqn:Hw; [|by apply elem_of_nil in Hr].
  destruct (hexStringToUint8Array _) as [raw|] eqn:Hraw; [|by apply elem_of_nil in Hr].
  apply list_elem_of_omap in Hr as (p & Hp & Hext%extracted_Some).
  by exists v, w, raw, p.
Qed.

(** A candidate that yields no record leaves the loop where it would be had
    the scan started at the candidate's offset. *)
Lemma scanLoop_skip (fuel : nat) (raw : bytes) (s p : nat) (acc : list ParsedInscription) :
  getNextInscriptionMark raw s = Some p →
  extract raw p = Ret None →
  scanLoop extract (S fuel) raw s acc = scanLoop extract fuel raw p acc.
Proof. intros Hscan Hext. simpl. by rewrite Hscan, Hext. Qed.

End Provenance.

(** ** Field lookup *)

Lemma single_byte_tag (x : Field) (field : byte) :
  bool_decide (length (tag x) = 1) && bool_decide (tag x !! 0 = Some field) = true
  ↔ tag x = [field].
Proof.
  rewrite andb_true_iff, !bool_decide_eq_true. split.
  - intros [Hlen Hhd]. destruct (tag x) as [|b [|b' t]]; simplify_eq/=. done.
  - by intros ->.
Qed.

Lemma getKnownFieldValue_Some (fs : list Field) (field : byte) (v : bytes) :
  getKnownFieldValue fs field = Some v →
  ∃ f, f ∈ fs ∧ tag f = [field] ∧ value f = v.
Proof.
  unfold getKnownFieldValue. destruct (find _ fs) as [f|] eqn:Hfind; [|done].
  intros [= <-]. apply find_some in Hfind as [Hin Htag].
  exists f. split_and!; [by apply list_elem_of_In|by apply single_byte_tag|done].
Qed.

Lemma getKnownFieldValue_None (fs : list Field) (field : byte) :
  getKnownFieldValue fs field = None ↔ Forall (λ f, tag f ≠ [field]) fs.
Proof.
  unfold getKnownFieldValue. rewrite fmap_None, Forall_forall. split.
  - intros Hfind f Hin Htag. apply list_elem_of_In in Hin.
    eapply find_none in Hfind; [|done]. apply single_byte_tag in Htag. congruence.
  - intros Hall. destruct (find _ fs) as [f|] eqn:Hfind; [|done].
    apply find_some in Hfind as [Hin Htag%single_byte_tag].
    destruct (Hall f); [by apply list_elem_of_In|done].
Qed.

(** The lookup written inline in [SrcParser] is the helper's lookup. *)
Lemma findContentTypeField_getKnownFieldValue (fs : list Field) :
  value <$> SrcParser.findContentTypeField fs
  = getKnownFieldValue fs knownFields.content_type.
Proof. done. Qed.

(** ** A failing pushdata read makes the extraction throw inside its [try] *)

Section FailureTheory.
Context `{HelperModule}.

Lemma unnamed_readFields_fail (fuel : nat) (raw : bytes) (p : nat) (acc : list Field) (e : exn) :
  fieldsFail raw p e → length raw - p < fuel →
  UnnamedParser.readFields fuel raw p acc = Throw e.
Proof.
  intros Hfail. revert fuel acc.
  induction Hfail as [p e Hlt Hne Htag|p tg p1 e Hlt Hne Htag Hvalue
                     |p tg p1 vl p2 e Hlt Hne Htag Hvalue _ IH];
    intros fuel acc Hfuel; (destruct fuel as [|fuel]; [lia|]); simpl;
    (case_loop_condition Hc; [|by destruct Hc]); rewrite Htag; simpl; [done|..];
    rewrite Hvalue; simpl; [done|].
  apply readPushdata_advances in Htag, Hvalue. apply IH. lia.
Qed.

Lemma unnamed_readBody_fail (fuel : nat) (raw : bytes) (p : nat) (acc : list bytes) (e : exn) :
  bodyFails raw p e → length raw - p < fuel →
  UnnamedParser.readBody fuel raw p acc = Throw e.
Proof.
  intros Hfail. revert fuel acc.
  induction Hfail as [p e Hlt Hne Hsl|p sl p1 e Hlt Hne Hsl _ IH];
    intros fuel acc Hfuel; (destruct fuel as [|fuel]; [lia|]); simpl;
    (case_loop_condition Hc; [|by destruct Hc]); rewrite Hsl; simpl; [done|].
  apply readPushdata_advances in Hsl. apply IH. lia.
Qed.

Lemma unnamed_extractBody_fail (raw : bytes) (p : nat) (e : exn) :
  pushdataFails raw p e → UnnamedParser.extractBody raw p = Throw e.
Proof.
  unfold UnnamedParser.extractBody. intros [Hfail|(fs & p1 & Hfields & Hfail)].
  - by rewrite (unnamed_readFields_fail _ _ _ [] _ Hfail) by lia.
  - rewrite (unnamed_readFields_complete _ _ _ [] _ _ Hfields) by lia.
    rewrite bind_Ret_l. cbv beta iota. rewrite unnamed_skipBodySeparator.
    by rewrite (unnamed_readBody_fail _ _ _ [] _ Hfail) by lia.
Qed.

Lemma readPushdataCursor_Raise (raw : bytes) (p : nat) (e : exn) :
  readPushdata raw p = Raise e → SrcParser.readPushdataCursor raw p = Throw e.
Proof. unfold SrcParser.readPushdataCursor. by intros ->. Qed.

Lemma src_readFields_fail (fuel : nat) (raw : bytes) (p : nat) (acc : list Field) (e : exn) :
  fieldsFail raw p e → length raw - p < fuel →
  ∀ c, SrcParser.pointer c = p → SrcParser.readFields fuel raw c acc = Throw e.
Proof.
  intros Hfail. revert fuel acc.
  induction Hfail as [p e Hlt Hne Htag|p tg p1 e Hlt Hne Htag Hvalue
                     |p tg p1 vl p2 e Hlt Hne Htag Hvalue _ IH];
    intros fuel acc Hfuel c <-; (destruct fuel as [|fuel]; [lia|]); simpl;
    (case_loop_condition Hc; [|by destruct Hc]).
  - by rewrite (readPushdataCursor_Raise _ _ _ Htag).
  - rewrite (readPushdataCursor_Ok _ _ _ _ Htag), bind_Ret_l. simpl.
    by rewrite (readPushdataCursor_Raise _ _ _ Hvalue).
  - rewrite (readPushdataCursor_Ok _ _ _ _ Htag), bind_Ret_l. simpl.
    rewrite (readPushdataCursor_Ok _ _ _ _ Hvalue), bind_Ret_l. simpl.
    apply readPushdata_advances in Htag, Hvalue. apply IH; [lia|done].
Qed.

Lemma src_readBody_fail (fuel : nat) (raw : bytes) (p : nat) (acc : list bytes) (e : exn) :
  bodyFails raw p e → length raw - p < fuel →
  ∀ c, SrcParser.pointer c = p → SrcParser.readBody fuel raw c acc = Throw e.
Proof.
  intros Hfail. revert fuel acc.
  induction Hfail as [p e Hlt Hne Hsl|p sl p1 e Hlt Hne Hsl _ IH];
    intros fuel acc Hfuel c <-; (destruct fuel as [|fuel]; [lia|]); simpl;
    (case_loop_condition Hc; [|by destruct Hc]).
  - by rewrite (readPushdataCursor_Raise _ _ _ Hsl).
  - rewrite (readPushdataCursor_Ok _ _ _ _ Hsl), bind_Ret_l. simpl.
    apply readPushdata_advances in Hsl. apply IH; [lia|done].
Qed.

Lemma src_extractBody_fail (raw : bytes) (p : nat) (e : exn) :
  pushdataFails raw p e → SrcParser.extractBody raw p = Throw e.
Proof.
  unfold SrcParser.extractBody. intros [Hfail|(fs & p1 & Hfields & Hfail)].
  - by rewrite (src_readFields_fail (S (length raw)) _ _ [] _ Hfail ltac:(lia)
                  (SrcParser.mkCursor [] p) eq_refl).
  - destruct (src_readFields_complete (S (length raw)) _ _ [] _ _ Hfields ltac:(lia)
                (SrcParser.mkCursor [] p) eq_refl) as (c1 & -> & <-).
    rewrite bind_Ret_l. cbv beta iota.
    rewrite <- src_skipBodySeparator in Hfail.
    by rewrite (src_readBody_fail (S (length raw)) _ _ [] _ Hfail ltac:(lia) _ eq_refl).
Qed.
End FailureTheory.

(** ** The first field with a given tag *)

Lemma findContentTypeField_first (fs : list Field) (f : Field) :
  SrcParser.findContentTypeField fs = Some f ↔
  ∃ before after,
    fs = before ++ f :: after ∧ tag f = [knownFields.content_type]
    ∧ Forall (λ g, tag g ≠ [knownFields.content_type]) before.
Proof.
  unfold SrcParser.findContentTypeField.
  induction fs as [|g fs IH]; simpl.
  - split; [done|]. intros (before & after & Heq & _). by destruct before.
  - destruct (bool_decide (length (tag g) = 1) && _) eqn:Hg.
    + apply single_byte_tag in Hg. split.
      * intros [= <-]. by exists [], fs.
      * intros ([|g' before] & after & Heq & Htag & Hbefore); simplify_eq/=; [done|].
        by apply Forall_cons in Hbefore as [? _].
    + apply not_true_iff_false in Hg. rewrite single_byte_tag in Hg.
      rewrite IH. split.
      * intros (before & after & -> & Htag & Hbefore).
        exists (g :: before), after. split_and!; [done|done|by constructor].
      * intros ([|g' before] & after & Heq & Htag & Hbefore); simplify_eq/=.
        apply Forall_cons in Hbefore as [_ Hbefore]. by exists before, after.
Qed.

Lemma findContentTypeField_None (fs : list Field) :
  SrcParser.findContentTypeField fs = None ↔
  Forall (λ f, tag f ≠ [knownFields.content_type]) fs.
Proof.
  rewrite <- getKnownFieldValue_None, <- findContentTypeField_getKnownFieldValue.
  by rewrite fmap_None.
Qed.

(** The two relations are functions of the buffer and the start offset. *)
Lemma fieldPairs_functional `{HelperModule} (raw : bytes) (p : nat)
    (fs fs' : list Field) (p1 p1' : nat) :
  fieldPairs raw p fs p1 → fieldPairs raw p fs' p1' → fs = fs' ∧ p1 = p1'.
Proof.
  intros Hfs Hfs'.
  apply (unnamed_readFields_complete (S (length raw)) _ _ []) in Hfs, Hfs'; try lia.
  rewrite Hfs in Hfs'. by simplify_eq/=.
Qed.

Lemma bodyChunks_functional `{HelperModule} (raw : bytes) (p : nat)
    (data data' : list bytes) (p1 p1' : nat) :
  bodyChunks raw p data p1 → bodyChunks raw p data' p1' → data = data' ∧ p1 = p1'.
Proof.
  intros Hdata Hdata'.
  apply (unnamed_readBody_complete (S (length raw)) _ _ []) in Hdata, Hdata'; try lia.
  rewrite Hdata in Hdata'. by simplify_eq/=.
Qed.

(** ** The two revisions, candidate by candidate *)

Lemma Forall2_omap {A B C} (R : B → C → Prop) (f : A → option B) (g : A → option C)
    (l : list A) :
  (∀ x, x ∈ l → option_Forall2 R (f x) (g x)) →
  Forall2 R (omap f l) (omap g l).
Proof.
  induction l as [|x l IH]; intros Hl; [constructor|].
  rewrite !omap_cons.
  destruct (Hl x) as [b c Hbc|]; [by left| |];
    [constructor; [done|]|]; apply IH; intros y Hy; apply Hl; by right.
Qed.

Lemma decodeContentEncoding_None (fs : list Field) :
  getKnownFieldValue fs knownFields.content_encoding = None →
  UnnamedParser.decodeContentEncoding fs = None.
Proof. unfold UnnamedParser.decodeContentEncoding. by intros ->. Qed.

Lemma extracted_agree `{HelperModule} (raw : bytes) (p : nat) :
  (∀ fs p1, fieldPairs raw p fs p1 →
            getKnownFieldValue fs knownFields.content_encoding = None) →
  option_Forall2 agree
    (extracted SrcParser.extractInscriptionData raw p)
    (extracted UnnamedParser.extractInscriptionData raw p).
Proof.
  intros Hplain. unfold extracted.
  destruct (src_extract_returns raw p) as [[a|] Ha];
    destruct (unnamed_extract_returns raw p) as [[b|] Hb]; rewrite Ha, Hb;
    [|exfalso|exfalso|constructor].
  - constructor.
    apply src_extract_Some in Ha as (fs & p1 & data & p2 & f & Hfs & Hdata & Hf & ->).
    apply unnamed_extract_Some in Hb
      as (fs' & p1' & data' & p2' & ct & body & Hfs' & Hdata' & Hct & Hdecode & ->).
    destruct (fieldPairs_functional _ _ _ _ _ _ Hfs Hfs') as [<- <-].
    destruct (bodyChunks_functional _ _ _ _ _ _ Hdata Hdata') as [<- <-].
    rewrite (decodeContentEncoding_None _ (Hplain _ _ Hfs)) in Hdecode |- *.
    injection Hdecode as <-.
    rewrite <- findContentTypeField_getKnownFieldValue, Hf in Hct. injection Hct as <-.
    by repeat split.
  - apply src_extract_Some in Ha as (fs & p1 & data & p2 & f & Hfs & Hdata & Hf & ->).
    assert (UnnamedParser.extractInscriptionData raw p
            = Ret (Some (UnnamedParser.mkParsedInscription
                           (uint8ArrayToSingleByteChars (value f)) fs (concat data)
                           (UnnamedParser.decodeContentEncoding fs)))) as Hb'; [|congruence].
    apply unnamed_extract_Some. exists fs, p1, data, p2, (value f), (concat data).
    split_and!; [done|done| | |done].
    + by rewrite <- findContentTypeField_getKnownFieldValue, Hf.
    + by rewrite (decodeContentEncoding_None _ (Hplain _ _ Hfs)).
  - apply unnamed_extract_Some in Hb
      as (fs & p1 & data & p2 & ct & body & Hfs & Hdata & Hct & Hdecode & ->).
    rewrite <- findContentTypeField_getKnownFieldValue in Hct.
    destruct (SrcParser.findContentTypeField fs) as [f|] eqn:Hf; [|done].
    assert (SrcParser.extractInscriptionData raw p
            = Ret (Some (SrcParser.mkParsedInscription
                           (uint8ArrayToSingleByteChars (value f)) fs (concat data)))) as Ha';
      [|congruence].
    apply src_extract_Some. by exists fs, p1, data, p2, f.
Qed.

(** ** The orchestrator never runs out of fuel, and what it throws *)

Section OrchestratorTotality.
Context `{HelperModule} {E : Engine}.
Context {ParsedInscription : Type}.
Variable extract : bytes → nat → outcome (option ParsedInscription).
Hypothesis extract_returns : ∀ raw p, returns (extract raw p).




(** An input with more records than a call takes arguments: the spread
    throws, whatever was collected before and whatever comes after. *)
Lemma parseVins_spread_overflow (w : list string) (raw : bytes) (vins : list Vin)
    (acc : list ParsedInscription) :
  hexStringToUint8Array (String.concat "" w) = Ok raw →
  maxArguments < length (witnessInscriptions extract raw) →
  parseVins extract (mkVin (Some w) :: vins) acc
  = Throw (Error "RangeError: Maximum call stack size exceeded").
Proof using extract_returns.
  intros Hraw Hlen. simpl.
  rewrite (parseInscriptionsWithinWitness_Ret extract extract_returns _ _ Hraw), bind_Ret_l.
  rewrite bool_decide_eq_true_2 by lia.
  unfold Array_push_spread. by rewrite bool_decide_eq_false_2 by lia.
Qed.
End OrchestratorTotality.

(** ** An envelope inside a longer buffer, and many of them in a row *)

Section Locality.
Context `{HelperModule}.

Hypothesis readPushdata_local : readsLocally.

Lemma lookup_in_context {A} (pre l post : list A) (p : nat) (x : A) :
  l !! p = Some x → (pre ++ l ++ post) !! (length pre + p) = Some x.
Proof.
  intros Hx. rewrite lookup_app_r by lia.
  replace (length pre + p - length pre) with p by lia. by apply lookup_app_l_Some.
Qed.

Lemma fieldPairs_in_context (pre l post : bytes) (p : nat) (fs : list Field) (p1 : nat) :
  fieldPairs l p fs p1 → p1 < length l →
  fieldPairs (pre ++ l ++ post) (length pre + p) fs (length pre + p1).
Proof using readPushdata_local.
  induction 1 as [p Hstop|p tag p1 value p2 fields p' Hlt Hne Htag Hvalue _ IH]; intros Hin.
  - apply fieldPairs_stop. intros [_ Hne]. apply Hne.
    apply lookup_in_context.
    destruct (l !! p) as [x|] eqn:Hx; [|apply lookup_ge_None in Hx; lia].
    destruct (decide (x = OP_0)) as [->|?]; [done|].
    exfalso. apply Hstop. split; [done|]. by intros [= ->].
  - destruct (lookup_lt_is_Some_2 l p Hlt) as [x Hx].
    eapply fieldPairs_pair.
    + rewrite !length_app. lia.
    + rewrite (lookup_in_context _ _ _ _ _ Hx). intros [= ->]. exact (Hne Hx).
    + by apply readPushdata_local.
    + by apply readPushdata_local.
    + by apply IH.
Qed.

Lemma afterSeparator_in_context (pre l post : bytes) (p : nat) :
  p < length l →
  afterSeparator (pre ++ l ++ post) (length pre + p) = length pre + afterSeparator l p.
Proof.
  intros Hlt. unfold afterSeparator, bytes in *.
  destruct (lookup_lt_is_Some_2 l p Hlt) as [x Hx].
  rewrite (lookup_in_context _ _ _ _ _ Hx), Hx.
  rewrite (bool_decide_eq_true_2 (p < length l)) by done.
  rewrite (bool_decide_eq_true_2 (length pre + p < _)) by (rewrite !length_app; lia).
  simpl. case_bool_decide; lia.
Qed.

Lemma bodyChunks_in_context (pre l post : bytes) (p : nat) (data : list bytes) (p1 : nat) :
  bodyChunks l p data p1 → p1 < length l →
  bodyChunks (pre ++ l ++ post) (length pre + p) data (length pre + p1).
Proof using readPushdata_local.
  induction 1 as [p Hstop|p slice p1 data p' Hlt Hne Hslice _ IH]; intros Hin.
  - apply bodyChunks_stop. intros [_ Hne]. apply Hne.
    apply lookup_in_context.
    destruct (l !! p) as [x|] eqn:Hx; [|apply lookup_ge_None in Hx; lia].
    destruct (decide (x = OP_ENDIF)) as [->|?]; [done|].
    exfalso. apply Hstop. split; [done|]. by intros [= ->].
  - destruct (lookup_lt_is_Some_2 l p Hlt) as [x Hx].
    eapply bodyChunks_chunk.
    + rewrite !length_app. lia.
    + rewrite (lookup_in_context _ _ _ _ _ Hx). intros [= ->]. exact (Hne Hx).
    + by apply readPushdata_local.
    + by apply IH.
Qed.

(** An envelope that is closed inside [l], its fields ended by the
    separator and its body by OP_ENDIF, is extracted from the longer buffer
    as it is from [l]. *)
Lemma extract_in_context (pre l post : bytes) (p : nat)
    (fs : list Field) (p1 : nat) (data : list bytes) (p2 : nat) :
  fieldPairs l p fs p1 → p1 < length l →
  bodyChunks l (afterSeparator l p1) data p2 → p2 < length l →
  (∀ r, UnnamedParser.extractInscriptionData l p = Ret (Some r) →
        UnnamedParser.extractInscriptionData (pre ++ l ++ post) (length pre + p)
        = Ret (Some r))
  ∧ (∀ r, SrcParser.extractInscriptionData l p = Ret (Some r) →
          SrcParser.extractInscriptionData (pre ++ l ++ post) (length pre + p)
          = Ret (Some r)).
Proof using readPushdata_local.
  intros Hfs Hp1 Hdata Hp2.
  pose proof (fieldPairs_in_context pre l post _ _ _ Hfs Hp1) as Hfs'.
  pose proof (bodyChunks_in_context pre l post _ _ _ Hdata Hp2) as Hdata'.
  rewrite <- (afterSeparator_in_context pre l post) in Hdata' by done.
  split; intros r Hr.
  - apply unnamed_extract_Some in Hr
      as (fs0 & p0 & data0 & p3 & ct & body & Hfs0 & Hdata0 & Hct & Hbody & ->).
    destruct (fieldPairs_functional _ _ _ _ _ _ Hfs Hfs0) as [<- <-].
    destruct (bodyChunks_functional _ _ _ _ _ _ Hdata Hdata0) as [<- <-].
    apply unnamed_extract_Some. by eexists fs, _, data, _, ct, body.
  - apply src_extract_Some in Hr as (fs0 & p0 & data0 & p3 & f & Hfs0 & Hdata0 & Hf & ->).
    destruct (fieldPairs_functional _ _ _ _ _ _ Hfs Hfs0) as [<- <-].
    destruct (bodyChunks_functional _ _ _ _ _ _ Hdata Hdata0) as [<- <-].
    apply src_extract_Some. by eexists fs, _, data, _, f.
Qed.
End Locality.

Section Repeated.
Context `{HelperModule}.
Context {ParsedInscription : Type}.
Variable extract : bytes → nat → outcome (option ParsedInscription).

Variable l : bytes.
Hypothesis l_starts_with_the_mark : markAt inscriptionMark l 0.
Hypothesis l_has_no_other_mark :
  ∀ d, 0 < d < length l →
       ¬ markAt inscriptionMark l d ∧ ¬ markAt inscriptionMark (l ++ l) d.

Lemma length_copies (n : nat) : length (copies n l) = n * length l.
Proof.
  unfold copies. induction n as [|n IH]; [done|]. simpl. rewrite length_app, IH. lia.
Qed.

Lemma copies_split (n k : nat) :
  k < n → copies n l = copies k l ++ l ++ copies (n - S k) l.
Proof.
  intros Hk. unfold copies.
  replace n with (k + S (n - S k)) at 1 by lia.
  by rewrite replicate_add, concat_app.
Qed.

Lemma length_mark_le : length inscriptionMark ≤ length l.
Proof using l_starts_with_the_mark.
  unfold markAt in l_starts_with_the_mark. rewrite drop_0 in l_starts_with_the_mark.
  rewrite <- l_starts_with_the_mark at 1. rewrite length_take. lia.
Qed.

Lemma markAt_copy (n k : nat) : k < n → markAt inscriptionMark (copies n l) (k * length l).
Proof using l_starts_with_the_mark.
  intros Hk. rewrite (copies_split n k Hk). unfold markAt.
  rewrite <- (length_copies k), drop_app_length.
  rewrite take_app_le by apply length_mark_le.
  unfold markAt in l_starts_with_the_mark. by rewrite drop_0 in l_starts_with_the_mark.
Qed.

Lemma markAt_copies (n j : nat) :
  markAt inscriptionMark (copies n l) j → ∃ k, k < n ∧ j = k * length l.
Proof using l_starts_with_the_mark l_has_no_other_mark.
  intros Hm. pose proof (markAt_bound _ _ Hm) as Hb.
  pose proof inscriptionMark_length as Hmark. pose proof length_mark_le as Hle.
  rewrite length_copies in Hb.
  assert (0 < length l) as Hl by lia.
  pose proof (Nat.div_mod_eq j (length l)) as Hj.
  pose proof (Nat.mod_upper_bound j (length l) ltac:(lia)) as Hd.
  set (k := j `div` length l) in *. set (d := j `mod` length l) in *.
  assert (k < n) as Hk by nia.
  exists k. split; [done|].
  destruct (decide (d = 0)) as [->|Hd0]; [lia|]. exfalso.
  destruct (l_has_no_other_mark d ltac:(lia)) as [Hone Htwo].
  unfold markAt in Hm, Hone, Htwo.
  rewrite (copies_split n k Hk) in Hm.
  replace j with (length (copies k l) + d) in Hm by (rewrite length_copies; lia).
  rewrite drop_app_add' in Hm by done.
  destruct (decide (n - S k = 0)) as [Hlast|Hmore].
  - rewrite Hlast in Hm. unfold copies in Hm. simpl in Hm. rewrite app_nil_r in Hm. done.
  - rewrite (copies_split (n - S k) 0 ltac:(lia)) in Hm. simpl in Hm.
    rewrite (assoc_L (++) l l), drop_app_le in Hm by (rewrite length_app; lia).
    rewrite take_app_le in Hm by (rewrite length_drop, length_app; lia).
    exact (Htwo Hm).
Qed.

(** The scanner finds the copies one after the other. *)
Lemma marksFrom_copies (n fuel k s : nat) :
  k ≤ n → n - k < fuel →
  s ≤ k * length l →
  (∀ j, s ≤ j < k * length l → ¬ markAt inscriptionMark (copies n l) j) →
  marksFrom fuel (copies n l) s
  = (λ i, i * length l + length inscriptionMark) <$> seq k (n - k).
Proof using l_starts_with_the_mark l_has_no_other_mark.
  pose proof inscriptionMark_length as Hmark. pose proof length_mark_le as Hle.
  revert k s. induction fuel as [|fuel IH]; intros k s Hk Hfuel Hs Hnone; [lia|].
  cbn [marksFrom].
  destruct (decide (k = n)) as [->|Hkn].
  - replace (n - n) with 0 by lia. simpl.
    assert (getNextInscriptionMark (copies n l) s = None) as ->; [|done].
    apply getNextInscriptionMark_None. intros j Hj Hm.
    destruct (markAt_copies _ _ Hm) as (k' & Hk' & ->).
    apply (Hnone (k' * length l)); [|done]. split; [done|].
    apply Nat.mul_lt_mono_pos_r; lia.
  - assert (getNextInscriptionMark (copies n l) s
            = Some (k * length l + length inscriptionMark)) as ->.
    { apply getNextInscriptionMark_Some. exists (k * length l).
      split_and!; [done|done|apply markAt_copy; lia|done]. }
    replace (n - k) with (S (n - S k)) by lia. cbn [seq fmap list_fmap]. f_equal.
    apply (IH (S k)); [lia|lia|nia|].
    intros j Hj Hm. destruct (markAt_copies _ _ Hm) as (k' & Hk' & ->).
    destruct (decide (k' ≤ k)).
    + assert (k' * length l ≤ k * length l) by (apply Nat.mul_le_mono_r; lia). lia.
    + assert (S k * length l ≤ k' * length l) by (apply Nat.mul_le_mono_r; lia). lia.
Qed.

Lemma envelopeOffsets_copies (n : nat) :
  envelopeOffsets (copies n l)
  = (λ i, i * length l + length inscriptionMark) <$> seq 0 n.
Proof using l_starts_with_the_mark l_has_no_other_mark.
  unfold envelopeOffsets.
  rewrite (marksFrom_copies n _ 0 0); [by rewrite Nat.sub_0_r|lia| |lia|intros; lia].
  rewrite length_copies. pose proof length_mark_le. pose proof inscriptionMark_length. nia.
Qed.

(** When every copy yields the record [r], [n] copies yield [n] records. *)
Lemma witnessInscriptions_copies (n : nat) (r : ParsedInscription) :
  (∀ k, k < n →
        extract (copies n l) (k * length l + length inscriptionMark) = Ret (Some r)) →
  witnessInscriptions extract (copies n l) = replicate n r.
Proof using l_starts_with_the_mark l_has_no_other_mark.
  intros Hext. unfold witnessInscriptions. rewrite envelopeOffsets_copies.
  assert (∀ m a, a + m ≤ n →
            omap (extracted extract (copies n l))
                 ((λ i, i * length l + length inscriptionMark) <$> seq a m)
            = replicate m r) as Hgen; [|apply (Hgen n 0); lia].
  induction m as [|m IH]; intros a Ha; [done|].
  cbn [seq]. rewrite fmap_cons, omap_cons. unfold extracted at 1.
  rewrite Hext by lia. simpl. f_equal. apply IH. lia.
Qed.
End Repeated.

(** ** The stand-in reader is local, and [Examples.hiEnvelope] many times *)

Lemma spec_readBytes_local (pre l post : bytes) (p n : nat) (slice : bytes) (p' : nat) :
  SpecHelpers.readBytes l p n = Ok (slice, p') →
  SpecHelpers.readBytes (pre ++ l ++ post) (length pre + p) n = Ok (slice, length pre + p').
Proof.
  unfold SpecHelpers.readBytes, bytes in *. case_bool_decide as Hfit; [|done].
  intros [= <- <-]. rewrite bool_decide_eq_true_2 by (rewrite !length_app; lia).
  f_equal. f_equal; [|lia].
  rewrite drop_app_add' by done. rewrite drop_app_le by lia.
  rewrite take_app_le; [done|]. rewrite length_drop. lia.
Qed.

Lemma spec_readPushdata_local : @readsLocally Examples.helpers.
Proof.
  intros pre l post p slice p'. simpl. unfold SpecHelpers.readPushdata.
  destruct (SpecHelpers.readBytes l p 1) as [[opcodeSlice newPointer]|] eqn:Hop; [|done].
  rewrite (spec_readBytes_local pre l post _ _ _ _ Hop). simpl.
  case_bool_decide; [by intros [= <- <-]|].
  case_bool_decide; [apply spec_readBytes_local|].
  repeat case_bool_decide; try done.
  all: destruct (SpecHelpers.readBytes l newPointer _)
         as [[dataSizeArray nextPointer]|] eqn:Hsize; [|done].
  all: rewrite (spec_readBytes_local pre l post _ _ _ _ Hsize); simpl.
  all: apply spec_readBytes_local.
Qed.

Lemma hiEnvelope_hex (rest : string) :
  SpecHelpers.hexToBytes (Examples.hiItem +:+ rest)
  = Examples.hiBytes ++ SpecHelpers.hexToBytes rest.
Proof. reflexivity. Qed.

Lemma hiEnvelope_repeated_hex (n : nat) :
  @hexStringToUint8Array Examples.helpers (String.concat "" (replicate n Examples.hiItem))
  = Ok (copies n Examples.hiBytes).
Proof.
  simpl. unfold SpecHelpers.hexStringToUint8Array. f_equal.
  induction n as [|n IH]; [done|].
  cbn [replicate]. rewrite join_cons, hiEnvelope_hex, IH. done.
Qed.

Lemma hiEnvelope_starts_with_the_mark :
  @markAt (@inscriptionMark Examples.helpers) Examples.hiBytes 0.
Proof. by vm_compute. Qed.

Lemma hiEnvelope_has_no_other_mark (d : nat) :
  0 < d < length Examples.hiBytes →
  ¬ markAt (@inscriptionMark Examples.helpers) Examples.hiBytes d
  ∧ ¬ markAt (@inscriptionMark Examples.helpers) (Examples.hiBytes ++ Examples.hiBytes) d.
Proof.
  intros Hd.
  assert (Forall (λ d, ¬ markAt (@inscriptionMark Examples.helpers) Examples.hiBytes d
                       ∧ ¬ markAt (@inscriptionMark Examples.helpers)
                                  (Examples.hiBytes ++ Examples.hiBytes) d)
                 (seq 1 (length Examples.hiBytes - 1))) as Hall.
  { apply (bool_decide_unpack _). by vm_compute. }
  rewrite Forall_forall in Hall. apply Hall, elem_of_seq. lia.
Qed.

Lemma hiEnvelope_fields :
  @fieldPairs Examples.helpers Examples.hiBytes 6 [mkField [x01] Examples.textPlain] 19.
Proof.
  eapply (@fieldPairs_pair Examples.helpers Examples.hiBytes 6 _ 8 _ 19);
    [vm_compute; lia|by vm_compute|done|done|].
  apply fieldPairs_stop. vm_compute. intros [_ Hne]. by apply Hne.
Qed.

Lemma hiEnvelope_body :
  @bodyChunks Examples.helpers Examples.hiBytes (afterSeparator Examples.hiBytes 19)
    [["h"; "i"]%byte] 23.
Proof.
  eapply (@bodyChunks_chunk Examples.helpers Examples.hiBytes 20 _ 23);
    [vm_compute; lia|by vm_compute|done|].
  apply bodyChunks_stop. vm_compute. intros [_ Hne]. by apply Hne.
Qed.

Lemma hiEnvelope_repeated_unnamed (n : nat) :
  witnessInscriptions (H:=Examples.helpers)
    (@UnnamedParser.extractInscriptionData Examples.helpers)
    (copies n Examples.hiBytes)
  = replicate n (UnnamedParser.mkParsedInscription "text/plain"
                   [mkField [x01] Examples.textPlain] ["h"; "i"]%byte None).
Proof.
  apply (witnessInscriptions_copies (H:=Examples.helpers) _ Examples.hiBytes
           hiEnvelope_starts_with_the_mark hiEnvelope_has_no_other_mark).
  intros k Hk.
  rewrite (copies_split Examples.hiBytes n k Hk), <- (length_copies Examples.hiBytes k).
  apply (extract_in_context (H:=Examples.helpers) spec_readPushdata_local
           _ Examples.hiBytes _ 6 _ 19 _ 23 hiEnvelope_fields ltac:(vm_compute; lia)
           hiEnvelope_body ltac:(vm_compute; lia)).
  by vm_compute.
Qed.

Lemma hiEnvelope_repeated_src (n : nat) :
  witnessInscriptions (H:=Examples.helpers)
    (@SrcParser.extractInscriptionData Examples.helpers)
    (copies n Examples.hiBytes)
  = replicate n (SrcParser.mkParsedInscription "text/plain"
                   [mkField [x01] Examples.textPlain] ["h"; "i"]%byte).
Proof.
  apply (witnessInscriptions_copies (H:=Examples.helpers) _ Examples.hiBytes
           hiEnvelope_starts_with_the_mark hiEnvelope_has_no_other_mark).
  intros k Hk.
  rewrite (copies_split Examples.hiBytes n k Hk), <- (length_copies Examples.hiBytes k).
  apply (extract_in_context (H:=Examples.helpers) spec_readPushdata_local
           _ Examples.hiBytes _ 6 _ 19 _ 23 hiEnvelope_fields ltac:(vm_compute; lia)
           hiEnvelope_body ltac:(vm_compute; lia)).
  by vm_compute.
Qed.

(** * The claims *)

(** ** C1: what escapes [parseInscriptions] *)

(** One input whose witness has one more envelope than a call takes
    arguments, each item the envelope of [Examples.hiEnvelope]: every
    envelope is extracted, and the spread of the records throws.  This
    holds whatever the engine's bound is. *)
Lemma large_witness_overflows_the_spread (E : Engine) :
  let transaction :=
    mkTransaction [mkVin (Some (replicate (S maxArguments) Examples.hiItem))] in
  @UnnamedParser.parseInscriptions Examples.helpers E transaction
  = Throw (Error "RangeError: Maximum call stack size exceeded")
  ∧ @SrcParser.parseInscriptions Examples.helpers E transaction
    = Throw (Error "RangeError: Maximum call stack size exceeded").
Proof.
  intros transaction. split.
  - apply (parseVins_spread_overflow (H:=Examples.helpers) _
             (@unnamed_extract_returns Examples.helpers) _ _ [] []
             (hiEnvelope_repeated_hex _)).
    rewrite hiEnvelope_repeated_unnamed, length_replicate. lia.
  - apply (parseVins_spread_overflow (H:=Examples.helpers) _
             (@src_extract_returns Examples.helpers) _ _ [] []
             (hiEnvelope_repeated_hex _)).
    rewrite hiEnvelope_repeated_src, length_replicate. lia.
Qed.




(** ** C2: every record has a content type *)

(** C2: a record returned by [parseInscriptions] carries, among its fields,
    one whose tag is the single byte 1, and its [contentType] is that
    field's value read byte by byte.  A candidate whose field section has no
    such field yields no record and throws nothing, and the loop goes on
    from the candidate's offset with the records collected so far. *)
Theorem parseInscriptions_records_have_content_type `{HelperModule} {E : Engine} :
  (∀ transaction l r,
     UnnamedParser.parseInscriptions transaction = Ret l → r ∈ l →
     ∃ f, f ∈ UnnamedParser.fields r ∧ tag f = [knownFields.content_type]
          ∧ UnnamedParser.contentType r = uint8ArrayToSingleByteChars (value f))
  ∧ (∀ transaction l r,
       SrcParser.parseInscriptions transaction = Ret l → r ∈ l →
       ∃ f, f ∈ SrcParser.fields r ∧ tag f = [knownFields.content_type]
            ∧ SrcParser.contentType r = uint8ArrayToSingleByteChars (value f))
  ∧ (∀ raw s p fs p1,
       getNextInscriptionMark raw s = Some p →
       fieldPairs raw p fs p1 →
       Forall (λ f, tag f ≠ [knownFields.content_type]) fs →
       UnnamedParser.extractInscriptionData raw p = Ret None
       ∧ SrcParser.extractInscriptionData raw p = Ret None
       ∧ (∀ fuel acc,
            scanLoop UnnamedParser.extractInscriptionData (S fuel) raw s acc
            = scanLoop UnnamedParser.extractInscriptionData fuel raw p acc)
       ∧ (∀ fuel acc,
            scanLoop SrcParser.extractInscriptionData (S fuel) raw s acc
            = scanLoop SrcParser.extractInscriptionData fuel raw p acc)).
Proof.
  split_and!.
  - intros transaction l r Hl Hr.
    eapply parseInscriptions_provenance in Hr as (_ & _ & raw & p & _ & _ & _ & _ & Hext);
      [|apply unnamed_extract_returns|exact Hl].
    apply unnamed_extract_Some in Hext as (fs & _ & _ & _ & ct & body & _ & _ & Hct & _ & ->).
    apply getKnownFieldValue_Some in Hct as (f & Hin & Htag & Hval). exists f.
    simpl. by rewrite Hval.
  - intros transaction l r Hl Hr.
    eapply parseInscriptions_provenance in Hr as (_ & _ & raw & p & _ & _ & _ & _ & Hext);
      [|apply src_extract_returns|exact Hl].
    apply src_extract_Some in Hext as (fs & _ & data & _ & f & _ & _ & Hf & ->).
    apply find_some in Hf as [Hin Htag%single_byte_tag].
    exists f. by rewrite list_elem_of_In.
  - intros raw s p fs p1 Hscan Hfields Hnone.
    apply getKnownFieldValue_None in Hnone.
    assert (UnnamedParser.extractInscriptionData raw p = Ret None) as Hu
      by by eapply unnamed_extract_no_content_type.
    assert (SrcParser.extractInscriptionData raw p = Ret None) as Hs.
    { eapply src_extract_no_content_type; [done|].
      rewrite <- findContentTypeField_getKnownFieldValue in Hnone.
      by apply fmap_None in Hnone. }
    split_and!; [done|done|intros; by apply scanLoop_skip..].
Qed.

(** An envelope with a pointer field only, followed by a typed one: the
    first adds nothing, the second is returned. *)
Lemma parseInscriptions_content_type_example :
  let raw := Examples.rawOf Examples.untypedThenHi in
  @getNextInscriptionMark Examples.helpers raw 0 = Some 6
  ∧ @fieldPairs Examples.helpers raw 6 [mkField [x02] [x05]] 10
  ∧ @UnnamedParser.extractInscriptionData Examples.helpers raw 6 = Ret None
  ∧ @UnnamedParser.parseInscriptions Examples.helpers Examples.engine
      (Examples.transactionOf [Some Examples.untypedThenHi])
    = Ret [UnnamedParser.mkParsedInscription "text/plain"
             [mkField [x01] Examples.textPlain] ["h"; "i"]%byte None].
Proof.
  intros raw.
  assert (@fieldPairs Examples.helpers raw 6 [mkField [x02] [x05]] 10) as Hfields.
  { eapply (@fieldPairs_pair Examples.helpers raw 6 [x02] 8 [x05] 10);
      [vm_compute; lia|by vm_compute|done|done|].
    apply fieldPairs_stop. vm_compute. intros [_ Hne]. by apply Hne. }
  split_and!; [done|exact Hfields| |by vm_compute].
  destruct (parseInscriptions_records_have_content_type (H:=Examples.helpers)
              (E:=Examples.engine))
    as (_ & _ & Hdrop).
  eapply (Hdrop raw 0 6); [done|exact Hfields|].
  repeat constructor; by vm_compute.
Defined.

(** ** C3: [getMetadata] and a decoder that fails *)

(** C3 does not hold as stated: [getMetadata] returns [CBOR.decode(metadataRaw)]
    with no [try]/[catch] around the call, so a decode failure is raised to
    the caller of the accessor.  Here the metadata field holds the one byte
    0x18, an integer head without its argument. *)
Lemma getMetadata_decode_failure_escapes :
  ∃ r, @UnnamedParser.parseInscriptions Examples.helpers Examples.engine
         (Examples.transactionOf [Some Examples.badMetadataEnvelope]) = Ret [r]
       ∧ getKnownFieldValue (UnnamedParser.fields r) knownFields.metadata = Some [x18]
       ∧ @UnnamedParser.getMetadata Examples.helpers r
         = Raise (Error "MetadataDecodeFailure").
Proof. eexists. split_and!; vm_compute; reflexivity. Qed.

(** C3, amended: [getMetadata] is absent when the record has no metadata
    field; with one, it is whatever the decoder gives on the field's bytes,
    a value or the exception the decoder raises.  The decoder is not called
    while parsing: with any other decoder [parseInscriptions] returns the
    same list, and every other accessor of a record reads the same. *)
Theorem getMetadata_is_the_decoder_result `{H : HelperModule} {E : Engine}
    (r : UnnamedParser.ParsedInscription) :
  (getKnownFieldValue (UnnamedParser.fields r) knownFields.metadata = None →
     UnnamedParser.getMetadata r = Ok None)
  ∧ (∀ m v, getKnownFieldValue (UnnamedParser.fields r) knownFields.metadata = Some m →
            CBOR_decode m = Ok v → UnnamedParser.getMetadata r = Ok (Some v))
  ∧ (∀ m e, getKnownFieldValue (UnnamedParser.fields r) knownFields.metadata = Some m →
            CBOR_decode m = Raise e → UnnamedParser.getMetadata r = Raise e)
  ∧ (∀ decode transaction,
       @UnnamedParser.parseInscriptions (withDecoder H decode) E transaction
       = @UnnamedParser.parseInscriptions H E transaction)
  ∧ (∀ decode,
       @UnnamedParser.getContentString (withDecoder H decode) r
       = UnnamedParser.getContentString r
       ∧ @UnnamedParser.getData (withDecoder H decode) r = UnnamedParser.getData r
       ∧ @UnnamedParser.getDataUri (withDecoder H decode) r = UnnamedParser.getDataUri r
       ∧ @UnnamedParser.getPointer (withDecoder H decode) r = UnnamedParser.getPointer r
       ∧ @UnnamedParser.getParent (withDecoder H decode) r = UnnamedParser.getParent r
       ∧ @UnnamedParser.getMetaprotocol (withDecoder H decode) r
         = UnnamedParser.getMetaprotocol r).
Proof.
  unfold UnnamedParser.getMetadata. split_and!.
  - by intros ->.
  - by intros m v -> ->.
  - by intros m e -> ->.
  - reflexivity.
  - intros decode. split_and!; reflexivity.
Qed.

(** The record of an envelope without metadata, and of one whose metadata
    decodes. *)
Lemma getMetadata_example :
  let r := UnnamedParser.mkParsedInscription "text/plain"
             [mkField [x01] Examples.textPlain; mkField [x05] [x07]] ["h"; "i"]%byte None in
  let r' := UnnamedParser.mkParsedInscription "text/plain"
              [mkField [x01] Examples.textPlain] ["h"; "i"]%byte None in
  @UnnamedParser.getMetadata Examples.helpers r = Ok (Some (CborInt 7))
  ∧ @UnnamedParser.getMetadata Examples.helpers r' = Ok None.
Proof.
  intros r r'. split.
  - by apply (getMetadata_is_the_decoder_result (H:=Examples.helpers)
                (E:=Examples.engine) r) with (m := [x07]).
  - by apply (getMetadata_is_the_decoder_result (H:=Examples.helpers)
                (E:=Examples.engine) r').
Defined.

(** ** C4: a failing pushdata read drops one envelope only *)

(** C4: when reading the envelope found at [p] meets a pushdata read that
    raises, the extraction at [p] returns no record, the loop goes on from
    [p] with the records collected so far, and the witness buffer's result
    holds the record of every offset the scanner finds whose extraction
    yields one. *)
Theorem failing_pushdata_drops_one_envelope `{HelperModule}
    (raw : bytes) (s p : nat) (e : exn) :
  getNextInscriptionMark raw s = Some p →
  pushdataFails raw p e →
  (UnnamedParser.extractInscriptionData raw p = Ret None
   ∧ (∀ fuel acc,
        scanLoop UnnamedParser.extractInscriptionData (S fuel) raw s acc
        = scanLoop UnnamedParser.extractInscriptionData fuel raw p acc)
   ∧ ∃ l, scanWitness UnnamedParser.extractInscriptionData raw = Ret l
          ∧ ∀ q r, q ∈ envelopeOffsets raw →
                   UnnamedParser.extractInscriptionData raw q = Ret (Some r) → r ∈ l)
  ∧ (SrcParser.extractInscriptionData raw p = Ret None
     ∧ (∀ fuel acc,
          scanLoop SrcParser.extractInscriptionData (S fuel) raw s acc
          = scanLoop SrcParser.extractInscriptionData fuel raw p acc)
     ∧ ∃ l, scanWitness SrcParser.extractInscriptionData raw = Ret l
            ∧ ∀ q r, q ∈ envelopeOffsets raw →
                     SrcParser.extractInscriptionData raw q = Ret (Some r) → r ∈ l).
Proof.
  intros Hscan Hfail. split.
  - assert (UnnamedParser.extractInscriptionData raw p = Ret None) as Hnone
      by (eapply unnamed_extract_throw; by apply unnamed_extractBody_fail).
    split_and!; [done|intros; by apply scanLoop_skip|].
    eexists. split; [apply scanWitness_witnessInscriptions, unnamed_extract_returns|].
    intros q r Hq Hr. apply list_elem_of_omap. exists q. split; [done|].
    by apply extracted_Some.
  - assert (SrcParser.extractInscriptionData raw p = Ret None) as Hnone
      by (eapply src_extract_throw; by apply src_extractBody_fail).
    split_and!; [done|intros; by apply scanLoop_skip|].
    eexists. split; [apply scanWitness_witnessInscriptions, src_extract_returns|].
    intros q r Hq Hr. apply list_elem_of_omap. exists q. split; [done|].
    by apply extracted_Some.
Qed.

(** The value push of the first envelope declares 255 bytes; the envelope
    after it is parsed and returned. *)
Lemma failing_pushdata_example :
  let raw := Examples.rawOf Examples.truncatedThenHi in
  @getNextInscriptionMark Examples.helpers raw 0 = Some 6
  ∧ @pushdataFails Examples.helpers raw 6 (Error "TruncatedInput")
  ∧ @UnnamedParser.extractInscriptionData Examples.helpers raw 6 = Ret None
  ∧ scanWitness (H:=Examples.helpers)
      (@UnnamedParser.extractInscriptionData Examples.helpers) raw
    = Ret [UnnamedParser.mkParsedInscription "text/plain"
             [mkField [x01] Examples.textPlain] ["h"; "i"]%byte None].
Proof.
  intros raw.
  assert (@pushdataFails Examples.helpers raw 6 (Error "TruncatedInput")) as Hfail.
  { left. eapply (@fieldsFail_value Examples.helpers raw 6 [x01] 8);
      [vm_compute; lia|by vm_compute|done|done]. }
  split_and!; [done|exact Hfail| |by vm_compute].
  by destruct (failing_pushdata_drops_one_envelope (H:=Examples.helpers) raw 0 6 _
                 eq_refl Hfail) as [[Hnone _] _].
Defined.

(** ** C5: the scanning loop terminates *)

(** C5: an offset the scanner returns lies strictly past the offset the scan
    started at and not past the end of the buffer; the offsets the loop of
    [parseInscriptionsWithinWitness] visits are therefore strictly
    increasing, and the loop returns within [length raw + 1] iterations:
    any larger number of iterations allowed gives the same list. *)
Theorem scanning_loop_terminates `{HelperModule} (raw : bytes) :
  (∀ s p, getNextInscriptionMark raw s = Some p → s < p ≤ length raw)
  ∧ StronglySorted lt (envelopeOffsets raw)
  ∧ (∀ fuel, length raw < fuel →
       scanLoop UnnamedParser.extractInscriptionData fuel raw 0 []
       = Ret (witnessInscriptions UnnamedParser.extractInscriptionData raw))
  ∧ (∀ fuel, length raw < fuel →
       scanLoop SrcParser.extractInscriptionData fuel raw 0 []
       = Ret (witnessInscriptions SrcParser.extractInscriptionData raw))
  ∧ returns (scanWitness UnnamedParser.extractInscriptionData raw)
  ∧ returns (scanWitness SrcParser.extractInscriptionData raw).
Proof.
  split_and!.
  - intros s p. apply getNextInscriptionMark_advances.
  - pose proof (marksFrom_sorted (S (length raw)) raw 0) as Hsorted.
    by apply StronglySorted_inv in Hsorted as [? _].
  - intros fuel Hfuel. by apply scanLoop_enough_fuel; [apply unnamed_extract_returns|].
  - intros fuel Hfuel. by apply scanLoop_enough_fuel; [apply src_extract_returns|].
  - eexists. apply scanWitness_witnessInscriptions, unnamed_extract_returns.
  - eexists. apply scanWitness_witnessInscriptions, src_extract_returns.
Qed.

(** Three marks in a row and a truncated push: the offsets visited are 6, 12
    and 18, every extraction fails, and the loop returns the empty list. *)
Lemma scanning_loop_example :
  let raw := Examples.rawOf Examples.marksOnly in
  envelopeOffsets (H:=Examples.helpers) raw = [6; 12; 18]
  ∧ StronglySorted lt (envelopeOffsets (H:=Examples.helpers) raw)
  ∧ scanLoop (H:=Examples.helpers)
      (@UnnamedParser.extractInscriptionData Examples.helpers) 1000 raw 0 []
    = Ret [].
Proof.
  intros raw.
  destruct (scanning_loop_terminates (H:=Examples.helpers) raw)
    as (_ & Hsorted & Hfuel & _).
  split_and!; [by vm_compute|exact Hsorted|].
  rewrite Hfuel; [by vm_compute|vm_compute; lia].
Defined.

(** ** C6: content encoding "br" *)

(** C6 does not hold as stated for the revision in
    [inscription-parser.service.ts], which reads no content encoding: on an
    envelope whose content_encoding field is "br" its record holds the body
    chunk as it is, here the stored stream 00 68 69, and [getData] encodes
    those three bytes, not the two bytes "hi" they decompress to. *)
Lemma src_keeps_the_compressed_body :
  let raw := Examples.rawOf Examples.brEnvelope in
  let r := SrcParser.mkParsedInscription "text/plain"
             [mkField [x01] Examples.textPlain; mkField [x09] ["b"; "r"]%byte]
             [x00; "h"; "i"]%byte in
  @SrcParser.extractInscriptionData Examples.helpers raw 6 = Ret (Some r)
  ∧ uint8ArrayToSingleByteChars
      <$> getKnownFieldValue (SrcParser.fields r) knownFields.content_encoding
    = Some "br"
  ∧ @brotliDecodeUint8Array Examples.helpers (SrcParser.combinedData r)
    = Ok ["h"; "i"]%byte
  ∧ @SrcParser.getData Examples.helpers r = "AGhp"
  ∧ @SrcParser.getData Examples.helpers r
    ≠ @encodeToBase64 Examples.helpers (uint8ArrayToSingleByteChars ["h"; "i"]%byte).
Proof. intros raw r. split_and!; by vm_compute. Qed.

(** C6, amended: when the extraction in [part_000] yields a record, the
    bytes its accessors read are the concatenated body chunks passed through
    the decompressor if the first content_encoding field decodes to "br",
    and the concatenated chunks themselves for any other value or without
    such a field; [getContentString], [getData] and [getDataUri] all read
    those bytes.  The revision in [inscription-parser.service.ts] never
    decompresses: its accessors read the concatenated chunks whatever the
    fields say. *)
Theorem body_is_decompressed_before_the_record `{HelperModule}
    (raw : bytes) (p : nat) :
  (∀ r, UnnamedParser.extractInscriptionData raw p = Ret (Some r) →
     ∃ fs p1 data p2 body,
       fieldPairs raw p fs p1
       ∧ bodyChunks raw (afterSeparator raw p1) data p2
       ∧ UnnamedParser.getContentEncoding r
         = uint8ArrayToSingleByteChars <$> getKnownFieldValue fs knownFields.content_encoding
       ∧ (UnnamedParser.getContentEncoding r = Some "br" →
            brotliDecodeUint8Array (concat data) = Ok body)
       ∧ (UnnamedParser.getContentEncoding r ≠ Some "br" → body = concat data)
       ∧ UnnamedParser.getData r = encodeToBase64 (uint8ArrayToSingleByteChars body)
       ∧ UnnamedParser.getDataUri r
         = "data:" +:+ UnnamedParser.contentType r +:+ ";base64,"
           +:+ encodeToBase64 (uint8ArrayToSingleByteChars body)
       ∧ UnnamedParser.getContentString r
         = (s ← utf8BytesToUtf16String (Some body); mret (default "undefined" s +:+ "")))
  ∧ (∀ r, SrcParser.extractInscriptionData raw p = Ret (Some r) →
       ∃ fs p1 data p2,
         fieldPairs raw p fs p1
         ∧ bodyChunks raw (afterSeparator raw p1) data p2
         ∧ SrcParser.getData r
           = encodeToBase64 (uint8ArrayToSingleByteChars (concat data))
         ∧ SrcParser.getDataUri r
           = "data:" +:+ SrcParser.contentType r +:+ ";base64,"
             +:+ encodeToBase64 (uint8ArrayToSingleByteChars (concat data))
         ∧ SrcParser.getContentString r = uint8ArrayToUtf8String (concat data)).
Proof.
  split.
  - intros r
      (fs & p1 & data & p2 & ct & body & Hfields & Hdata & Hct & Hdecode & ->)%unnamed_extract_Some.
    exists fs, p1, data, p2, body. split_and!; try done.
    + unfold UnnamedParser.getContentEncoding. simpl. intros Hbr.
      unfold UnnamedParser.decodeBody in Hdecode.
      rewrite bool_decide_eq_true_2 in Hdecode by done. by apply call_Ret.
    + unfold UnnamedParser.getContentEncoding. simpl. intros Hbr.
      unfold UnnamedParser.decodeBody in Hdecode.
      rewrite bool_decide_eq_false_2 in Hdecode by done. by injection Hdecode.
  - intros r (fs & p1 & data & p2 & f & Hfields & Hdata & _ & ->)%src_extract_Some.
    by exists fs, p1, data, p2.
Qed.

(** An envelope with content encoding "br" in [part_000]: the body chunk is
    the stored stream 00 68 69, the accessors read "hi". *)
Lemma body_is_decompressed_example :
  let raw := Examples.rawOf Examples.brEnvelope in
  let r := UnnamedParser.mkParsedInscription "text/plain"
             [mkField [x01] Examples.textPlain; mkField [x09] ["b"; "r"]%byte]
             ["h"; "i"]%byte (Some "br") in
  @UnnamedParser.extractInscriptionData Examples.helpers raw 6 = Ret (Some r)
  ∧ ∃ data body,
      Examples.storedDecompress (concat data) = Ok body
      ∧ @UnnamedParser.getData Examples.helpers r
        = SpecHelpers.encodeToBase64 (uint8ArrayToSingleByteChars body)
      ∧ @UnnamedParser.getData Examples.helpers r = "aGk=".
Proof.
  intros raw r. split; [by vm_compute|].
  destruct (body_is_decompressed_before_the_record (H:=Examples.helpers) raw 6)
    as [Hunnamed _].
  destruct (Hunnamed r eq_refl)
    as (fs & p1 & data & p2 & body & _ & _ & _ & Hbr & _ & Hdata & _).
  exists data, body. split_and!; [by apply Hbr|exact Hdata|by vm_compute].
Defined.

(** ** C7: the body is the concatenation of its chunks *)



(** ** C8: [getData] and [getDataUri] *)

(** C8: for a record an extraction yields, [getData] is the base64 encoding
    of the body bytes (the concatenated chunks, decompressed in [part_000]
    when the content encoding is "br") read as single-byte characters, and
    [getDataUri] is "data:", the content type field's value read as
    single-byte characters, ";base64," and that same encoding. *)
Theorem getDataUri_is_data_type_base64 `{HelperModule} :
  (∀ raw p r,
     UnnamedParser.extractInscriptionData raw p = Ret (Some r) →
     ∃ fs p1 data p2 ct body,
       fieldPairs raw p fs p1
       ∧ bodyChunks raw (afterSeparator raw p1) data p2
       ∧ getKnownFieldValue fs knownFields.content_type = Some ct
       ∧ UnnamedParser.decodeBody (UnnamedParser.decodeContentEncoding fs) (concat data)
         = Ret body
       ∧ UnnamedParser.getData r = encodeToBase64 (uint8ArrayToSingleByteChars body)
       ∧ UnnamedParser.getDataUri r
         = "data:" +:+ uint8ArrayToSingleByteChars ct +:+ ";base64,"
           +:+ encodeToBase64 (uint8ArrayToSingleByteChars body))
  ∧ (∀ raw p r,
       SrcParser.extractInscriptionData raw p = Ret (Some r) →
       ∃ fs p1 data p2 ct,
         fieldPairs raw p fs p1
         ∧ bodyChunks raw (afterSeparator raw p1) data p2
         ∧ getKnownFieldValue fs knownFields.content_type = Some ct
         ∧ SrcParser.getData r
           = encodeToBase64 (uint8ArrayToSingleByteChars (concat data))
         ∧ SrcParser.getDataUri r
           = "data:" +:+ uint8ArrayToSingleByteChars ct +:+ ";base64,"
             +:+ encodeToBase64 (uint8ArrayToSingleByteChars (concat data)))
  ∧ (∀ r, UnnamedParser.getDataUri r
          = "data:" +:+ UnnamedParser.contentType r +:+ ";base64,"
            +:+ UnnamedParser.getData r)
  ∧ (∀ r, SrcParser.getDataUri r
          = "data:" +:+ SrcParser.contentType r +:+ ";base64," +:+ SrcParser.getData r).
Proof.
  split_and!; [| |done|done].
  - intros raw p r
      (fs & p1 & data & p2 & ct & body & Hfs & Hdata & Hct & Hdecode & ->)%unnamed_extract_Some.
    by exists fs, p1, data, p2, ct, body.
  - intros raw p r (fs & p1 & data & p2 & f & Hfs & Hdata & Hf & ->)%src_extract_Some.
    exists fs, p1, data, p2, (value f). split_and!; try done.
    by rewrite <- findContentTypeField_getKnownFieldValue, Hf.
Qed.

(** The envelope with content type text/plain and body "hi". *)
Lemma getDataUri_example :
  let raw := Examples.rawOf Examples.hiEnvelope in
  let r := UnnamedParser.mkParsedInscription "text/plain"
             [mkField [x01] Examples.textPlain] ["h"; "i"]%byte None in
  @UnnamedParser.extractInscriptionData Examples.helpers raw 6 = Ret (Some r)
  ∧ @UnnamedParser.getData Examples.helpers r = "aGk="
  ∧ @UnnamedParser.getDataUri Examples.helpers r = "data:text/plain;base64,aGk="
  ∧ @UnnamedParser.getContentString Examples.helpers r = Ok "hi".
Proof.
  intros raw r. split_and!; [by vm_compute|by vm_compute| |by vm_compute].
  destruct (getDataUri_is_data_type_base64 (H:=Examples.helpers)) as (_ & _ & Huri & _).
  rewrite Huri. by vm_compute.
Defined.

(** ** C9: the two revisions agree when no envelope has a content encoding *)

(** C9: on a witness buffer none of whose envelopes has a content_encoding
    field, the loop of [inscription-parser.service.ts] and the loop of
    [part_000] return lists of the same length whose records agree, one by
    one, on [contentType], on [fields], on [getData] and on [getDataUri]. *)
Theorem revisions_agree_without_content_encoding `{HelperModule} (raw : bytes) :
  noContentEncoding raw →
  ∃ l1 l2,
    scanWitness SrcParser.extractInscriptionData raw = Ret l1
    ∧ scanWitness UnnamedParser.extractInscriptionData raw = Ret l2
    ∧ length l1 = length l2
    ∧ Forall2 agree l1 l2.
Proof.
  intros Hplain.
  exists (witnessInscriptions SrcParser.extractInscriptionData raw),
         (witnessInscriptions UnnamedParser.extractInscriptionData raw).
  assert (Forall2 agree (witnessInscriptions SrcParser.extractInscriptionData raw)
            (witnessInscriptions UnnamedParser.extractInscriptionData raw)) as Hagree.
  { apply Forall2_omap. intros p Hp. apply extracted_agree.
    intros fs p1 Hfs. by eapply Hplain. }
  split_and!; [| |by eapply Forall2_length|done].
  - apply scanWitness_witnessInscriptions, src_extract_returns.
  - apply scanWitness_witnessInscriptions, unnamed_extract_returns.
Qed.

(** Two envelopes, the first without a content type: both revisions drop it
    and return the second. *)
Lemma revisions_agree_example :
  let raw := Examples.rawOf Examples.untypedThenHi in
  noContentEncoding (H:=Examples.helpers) raw
  ∧ ∃ a b,
      scanWitness (H:=Examples.helpers)
        (@SrcParser.extractInscriptionData Examples.helpers) raw = Ret [a]
      ∧ scanWitness (H:=Examples.helpers)
          (@UnnamedParser.extractInscriptionData Examples.helpers) raw = Ret [b]
      ∧ agree (H:=Examples.helpers) a b.
Proof.
  intros raw.
  assert (noContentEncoding (H:=Examples.helpers) raw) as Hplain.
  { intros p fs p1 Hp Hfs.
    apply (unnamed_readFields_complete (H:=Examples.helpers) (S (length raw)) _ _ [])
      in Hfs; [|lia].
    vm_compute in Hp. apply elem_of_cons in Hp as [->|Hp];
      [|apply elem_of_cons in Hp as [->|Hp]; [|by apply elem_of_nil in Hp]];
      vm_compute in Hfs; by injection Hfs as <- <-. }
  split; [exact Hplain|].
  destruct (revisions_agree_without_content_encoding (H:=Examples.helpers) raw Hplain)
    as (l1 & l2 & Hl1 & Hl2 & _ & Hagree).
  vm_compute in Hl1, Hl2. injection Hl1 as <-. injection Hl2 as <-.
  do 2 eexists. split_and!; [by vm_compute|by vm_compute|].
  by apply Forall2_cons in Hagree as [? _].
Defined.

(** ** C10: the content type needs the one-byte tag 1 *)

(** C10: in [inscription-parser.service.ts] the field taken as the content
    type is the first one whose tag is exactly the byte 1.  The record keeps
    every field read, whatever its tag; when no field has that one-byte tag,
    the two-byte tag 01 00 included, the envelope yields no record. *)
Theorem content_type_needs_the_one_byte_tag `{HelperModule}
    (raw : bytes) (p : nat) (fs : list Field) (p1 : nat) :
  fieldPairs raw p fs p1 →
  (∀ f, SrcParser.findContentTypeField fs = Some f ↔
        ∃ before after,
          fs = before ++ f :: after ∧ tag f = [knownFields.content_type]
          ∧ Forall (λ g, tag g ≠ [knownFields.content_type]) before)
  ∧ (∀ r, SrcParser.extractInscriptionData raw p = Ret (Some r) →
          SrcParser.fields r = fs
          ∧ ∃ f, SrcParser.findContentTypeField fs = Some f
                 ∧ SrcParser.contentType r = uint8ArrayToSingleByteChars (value f))
  ∧ (Forall (λ f, tag f ≠ [knownFields.content_type]) fs →
       SrcParser.extractInscriptionData raw p = Ret None).
Proof.
  intros Hfs. split_and!.
  - apply findContentTypeField_first.
  - intros r (fs' & p1' & data & p2 & f & Hfs' & _ & Hf & ->)%src_extract_Some.
    destruct (fieldPairs_functional _ _ _ _ _ _ Hfs Hfs') as [<- <-].
    split; [done|]. by exists f.
  - intros Hnone%findContentTypeField_None. by eapply src_extract_no_content_type.
Qed.

(** The type declared under the two-byte tag 01 00: the field is read, the
    envelope is dropped. *)
Lemma content_type_wide_tag_example :
  let raw := Examples.rawOf Examples.wideTagEnvelope in
  @fieldPairs Examples.helpers raw 6 [mkField [x01; x00] Examples.textPlain] 20
  ∧ @SrcParser.extractInscriptionData Examples.helpers raw 6 = Ret None.
Proof.
  intros raw.
  assert (@fieldPairs Examples.helpers raw 6 [mkField [x01; x00] Examples.textPlain] 20)
    as Hfs.
  { eapply (@fieldPairs_pair Examples.helpers raw 6 _ 9 _ 20);
      [vm_compute; lia|by vm_compute|done|done|].
    apply fieldPairs_stop. vm_compute. intros [_ Hne]. by apply Hne. }
  split; [exact Hfs|].
  apply (content_type_needs_the_one_byte_tag (H:=Examples.helpers) raw 6 _ _ Hfs).
  repeat constructor; by vm_compute.
Defined.

(** * Further properties of the two parsers *)

(** ** The loop over the inputs *)

Section InputsTheory.
Context `{HelperModule} {E : Engine}.
Context {ParsedInscription : Type}.
Variable extract : bytes → nat → outcome (option ParsedInscription).

Lemma bind_assoc {A B C} (m : outcome A) (f : A → outcome B) (g : B → outcome C) :
  (m ≫= f) ≫= g = m ≫= (λ a, f a ≫= g).
Proof. by destruct m. Qed.

Lemma bind_ext {A B} (m : outcome A) (f g : A → outcome B) :
  (∀ a, f a = g a) → m ≫= f = m ≫= g.
Proof. intros Hfg. destruct m; simpl; [apply Hfg|done|done]. Qed.

(** The records collected before the loop starts are a prefix of its result. *)
Lemma parseVins_acc (vins : list Vin) (acc : list ParsedInscription) :
  parseVins extract vins acc = parseVins extract vins [] ≫= λ l, Ret (acc ++ l).
Proof.
  revert acc. induction vins as [|v vins IH]; intros acc; simpl.
  { by rewrite app_nil_r. }
  destruct (witness v) as [w|]; [|apply IH].
  rewrite bind_assoc. apply bind_ext. intros [l|].
  - unfold Array_push_spread. case_bool_decide; [|done]. rewrite !bind_Ret_l.
    rewrite (IH (acc ++ l)), (IH ([] ++ l)), bind_assoc. apply bind_ext.
    intros l'. simpl. by rewrite (assoc_L (++)).
  - apply IH.
Qed.

Lemma parseVins_app (vins1 vins2 : list Vin) (acc : list ParsedInscription) :
  parseVins extract (vins1 ++ vins2) acc
  = parseVins extract vins1 acc ≫= parseVins extract vins2.
Proof.
  revert acc. induction vins1 as [|v vins1 IH]; intros acc; simpl; [done|].
  destruct (witness v) as [w|]; [|apply IH].
  rewrite bind_assoc. apply bind_ext. intros [l|]; [|apply IH].
  rewrite bind_assoc. apply bind_ext. intros acc'. apply IH.
Qed.

Lemma parseInscriptions_app (vins1 vins2 : list Vin) :
  parseInscriptions extract (mkTransaction (vins1 ++ vins2))
  = l1 ← parseInscriptions extract (mkTransaction vins1);
    l2 ← parseInscriptions extract (mkTransaction vins2);
    Ret (l1 ++ l2).
Proof.
  unfold parseInscriptions. simpl. rewrite parseVins_app. apply bind_ext.
  intros l1. apply parseVins_acc.
Qed.

Lemma parseVins_without_witness (vins : list Vin) (acc : list ParsedInscription) :
  parseVins extract (filter (λ v, is_Some (witness v)) vins) acc
  = parseVins extract vins acc.
Proof.
  revert acc. induction vins as [|v vins IH]; intros acc; [done|].
  rewrite filter_cons. destruct (decide (is_Some (witness v))) as [[w Hw]|Hnone]; simpl.
  - rewrite Hw. apply bind_ext. intros [l|]; [|apply IH].
    apply bind_ext. intros acc'. apply IH.
  - destruct (witness v) as [w|]; [by destruct Hnone|apply IH].
Qed.
End InputsTheory.

(** X1: parsing the inputs of two transactions one after the other is
    parsing the two transactions and appending the results; when the first
    one raises, so does the whole, whatever the second would give. *)
Theorem parseInscriptions_of_appended_inputs `{HelperModule} {E : Engine}
    (vins1 vins2 : list Vin) :
  (∀ l1 l2,
     UnnamedParser.parseInscriptions (mkTransaction vins1) = Ret l1 →
     UnnamedParser.parseInscriptions (mkTransaction vins2) = Ret l2 →
     UnnamedParser.parseInscriptions (mkTransaction (vins1 ++ vins2)) = Ret (l1 ++ l2))
  ∧ (∀ l1 l2,
       SrcParser.parseInscriptions (mkTransaction vins1) = Ret l1 →
       SrcParser.parseInscriptions (mkTransaction vins2) = Ret l2 →
       SrcParser.parseInscriptions (mkTransaction (vins1 ++ vins2)) = Ret (l1 ++ l2))
  ∧ (∀ e, UnnamedParser.parseInscriptions (mkTransaction vins1) = Throw e →
          UnnamedParser.parseInscriptions (mkTransaction (vins1 ++ vins2)) = Throw e)
  ∧ (∀ e, SrcParser.parseInscriptions (mkTransaction vins1) = Throw e →
          SrcParser.parseInscriptions (mkTransaction (vins1 ++ vins2)) = Throw e)
  ∧ (∀ l1 e,
       UnnamedParser.parseInscriptions (mkTransaction vins1) = Ret l1 →
       UnnamedParser.parseInscriptions (mkTransaction vins2) = Throw e →
       UnnamedParser.parseInscriptions (mkTransaction (vins1 ++ vins2)) = Throw e).
Proof.
  unfold UnnamedParser.parseInscriptions, SrcParser.parseInscriptions.
  split_and!; intros *; rewrite parseInscriptions_app.
  - by intros -> ->.
  - by intros -> ->.
  - by intros ->.
  - by intros ->.
  - by intros -> ->.
Qed.

(** Two inputs with one envelope each, then an input with one more
    envelope than a call takes arguments. *)
Lemma parseInscriptions_of_appended_inputs_example :
  let one := Examples.transactionOf [Some Examples.hiEnvelope] in
  let large :=
    [mkVin (Some (replicate (S (@maxArguments Examples.engine)) Examples.hiItem))] in
  let r := UnnamedParser.mkParsedInscription "text/plain"
             [mkField [x01] Examples.textPlain] ["h"; "i"]%byte None in
  @UnnamedParser.parseInscriptions Examples.helpers Examples.engine one = Ret [r]
  ∧ @UnnamedParser.parseInscriptions Examples.helpers Examples.engine
      (mkTransaction (vin one ++ vin one)) = Ret ([r] ++ [r])
  ∧ @UnnamedParser.parseInscriptions Examples.helpers Examples.engine
      (mkTransaction (vin one ++ large))
    = Throw (Error "RangeError: Maximum call stack size exceeded").
Proof.
  intros one large r.
  assert (@UnnamedParser.parseInscriptions Examples.helpers Examples.engine one = Ret [r])
    as Hone by (by vm_compute).
  destruct (parseInscriptions_of_appended_inputs (H:=Examples.helpers)
              (E:=Examples.engine) (vin one) (vin one)) as (Happ & _).
  destruct (parseInscriptions_of_appended_inputs (H:=Examples.helpers)
              (E:=Examples.engine) (vin one) large) as (_ & _ & _ & _ & Hraise).
  split_and!; [exact Hone|exact (Happ [r] [r] Hone Hone)|].
  exact (Hraise [r] _ Hone (proj1 (large_witness_overflows_the_spread Examples.engine))).
Defined.

(** X2: an input without witness adds nothing and calls no helper: leaving
    such inputs out does not change the result, and a transaction none of
    whose inputs has a witness gives the empty list, whatever the helper
    module does. *)
Theorem parseInscriptions_skips_inputs_without_witness `{HelperModule} {E : Engine}
    (transaction : Transaction) :
  UnnamedParser.parseInscriptions
    (mkTransaction (filter (λ v, is_Some (witness v)) (vin transaction)))
  = UnnamedParser.parseInscriptions transaction
  ∧ SrcParser.parseInscriptions
      (mkTransaction (filter (λ v, is_Some (witness v)) (vin transaction)))
    = SrcParser.parseInscriptions transaction
  ∧ (Forall (λ v, witness v = None) (vin transaction) →
       UnnamedParser.parseInscriptions transaction = Ret []
       ∧ SrcParser.parseInscriptions transaction = Ret []).
Proof.
  unfold UnnamedParser.parseInscriptions, SrcParser.parseInscriptions, parseInscriptions.
  split_and!; [apply parseVins_without_witness..|].
  intros Hnone.
  assert (filter (λ v, is_Some (witness v)) (vin transaction) = []) as Hfilter.
  { induction Hnone as [|v vins Hv _ IH]; [done|].
    rewrite filter_cons. rewrite Hv. by destruct (decide _) as [[? ?]|]. }
  split.
  - by rewrite <- (parseVins_without_witness
                     UnnamedParser.extractInscriptionData (vin transaction)), Hfilter.
  - by rewrite <- (parseVins_without_witness
                     SrcParser.extractInscriptionData (vin transaction)), Hfilter.
Qed.

(** Three inputs, none with a witness. *)
Lemma parseInscriptions_without_witness_example :
  let transaction := Examples.transactionOf [None; None; None] in
  Forall (λ v, witness v = None) (vin transaction)
  ∧ @UnnamedParser.parseInscriptions Examples.helpers Examples.engine transaction = Ret []
  ∧ @SrcParser.parseInscriptions Examples.helpers Examples.engine transaction = Ret [].
Proof.
  intros transaction.
  assert (Forall (λ v, witness v = None) (vin transaction)) as Hnone
    by (by repeat constructor).
  split; [exact Hnone|].
  by apply (parseInscriptions_skips_inputs_without_witness (H:=Examples.helpers)
              (E:=Examples.engine)).
Defined.

(** ** The records of one witness buffer *)

Lemma omap_sorted_offsets {B} (f : nat → option B) (l : list nat) :
  StronglySorted lt l →
  ∃ offsets,
    StronglySorted lt offsets
    ∧ (∀ p, p ∈ offsets → p ∈ l)
    ∧ Forall2 (λ p r, f p = Some r) offsets (omap f l).
Proof.
  induction 1 as [|x l Hl (offsets & Hsorted & Hin & Hrecords) Hx].
  { exists []. split_and!; [constructor|done|constructor]. }
  rewrite omap_cons. destruct (f x) as [r|] eqn:Hfx.
  - exists (x :: offsets). split_and!.
    + constructor; [done|]. apply Forall_forall. intros p Hp%Hin.
      by eapply (proj1 (Forall_forall _ _) Hx).
    + intros p [->|Hp]%elem_of_cons; [by left|right; by apply Hin].
    + by constructor.
  - exists offsets. split_and!; [done| |done].
    intros p Hp. right. by apply Hin.
Qed.

Lemma length_omap_le {A B} (f : A → option B) (l : list A) :
  length (omap f l) ≤ length l.
Proof.
  induction l as [|x l IH]; [done|]. rewrite omap_cons.
  destruct (f x); simpl; lia.
Qed.

(** Each scan starts where the previous mark ended, so the marks found do
    not overlap. *)
Lemma marksFrom_spaced `{HelperModule} (fuel : nat) (raw : bytes) (s : nat) :
  s ≤ length raw →
  length (marksFrom fuel raw s) * length inscriptionMark ≤ length raw - s.
Proof.
  revert s. induction fuel as [|fuel IH]; intros s Hs; simpl; [lia|].
  destruct (getNextInscriptionMark raw s) as [p|] eqn:Hscan; simpl; [|lia].
  pose proof (getNextInscriptionMark_advances _ _ _ Hscan) as Hp.
  apply getNextInscriptionMark_Some in Hscan as (index & -> & Hindex & _).
  specialize (IH (index + length inscriptionMark) ltac:(lia)). lia.
Qed.

Section WitnessTheory.
Context `{HelperModule}.
Context {ParsedInscription : Type}.
Variable extract : bytes → nat → outcome (option ParsedInscription).
Hypothesis extract_returns : ∀ raw p, returns (extract raw p).

Lemma scanWitness_in_offset_order (raw : bytes) :
  ∃ l offsets,
    scanWitness extract raw = Ret l
    ∧ StronglySorted lt offsets
    ∧ Forall2 (λ p r, extract raw p = Ret (Some r)) offsets l
    ∧ length l * length inscriptionMark ≤ length raw.
Proof using extract_returns.
  destruct (omap_sorted_offsets (extracted extract raw) (envelopeOffsets raw))
    as (offsets & Hsorted & _ & Hrecords).
  { pose proof (marksFrom_sorted (S (length raw)) raw 0) as Hall.
    by apply StronglySorted_inv in Hall as [? _]. }
  exists (witnessInscriptions extract raw), offsets. split_and!.
  - by apply scanWitness_witnessInscriptions.
  - done.
  - eapply Forall2_impl; [exact Hrecords|]. intros p r. by rewrite extracted_Some.
  - pose proof (marksFrom_spaced (S (length raw)) raw 0 ltac:(lia)) as Hspaced.
    pose proof (length_omap_le (extracted extract raw) (envelopeOffsets raw)) as Hle.
    unfold witnessInscriptions. unfold envelopeOffsets in *.
    etrans; [apply Nat.mul_le_mono_r, Hle|]. lia.
Qed.
End WitnessTheory.

(** X3: the records of one witness buffer come in the order of the offsets
    they were extracted at, each at an offset of its own, and there are at
    most as many as marks fit in the buffer side by side. *)
Theorem records_of_a_witness_are_in_offset_order `{HelperModule} (raw : bytes) :
  (∃ l offsets,
     scanWitness UnnamedParser.extractInscriptionData raw = Ret l
     ∧ StronglySorted lt offsets
     ∧ Forall2 (λ p r, UnnamedParser.extractInscriptionData raw p = Ret (Some r)) offsets l
     ∧ length l * length inscriptionMark ≤ length raw)
  ∧ (∃ l offsets,
       scanWitness SrcParser.extractInscriptionData raw = Ret l
       ∧ StronglySorted lt offsets
       ∧ Forall2 (λ p r, SrcParser.extractInscriptionData raw p = Ret (Some r)) offsets l
       ∧ length l * length inscriptionMark ≤ length raw).
Proof.
  split.
  - apply scanWitness_in_offset_order, unnamed_extract_returns.
  - apply scanWitness_in_offset_order, src_extract_returns.
Qed.

(** ** Envelopes at the edges *)

(** X4: a candidate that starts on the body separator, or at the end of the
    buffer, has no field, hence no content type: it yields no record in
    either revision, whatever follows the separator. *)
Theorem envelope_without_fields_is_dropped `{HelperModule} (raw : bytes) (p : nat) :
  raw !! p = Some OP_0 ∨ length raw ≤ p →
  fieldPairs raw p [] p
  ∧ UnnamedParser.extractInscriptionData raw p = Ret None
  ∧ SrcParser.extractInscriptionData raw p = Ret None.
Proof.
  intros Hstart.
  assert (fieldPairs raw p [] p) as Hfields.
  { apply fieldPairs_stop. intros [Hlt Hne]. destruct Hstart as [?|?]; [done|lia]. }
  split_and!; [done| |].
  - by eapply unnamed_extract_no_content_type.
  - by eapply src_extract_no_content_type.
Qed.

(** A mark followed at once by the separator and a body. *)
Lemma envelope_without_fields_example :
  let raw := Examples.rawOf [Examples.mark; "00"; "026869"; "68"] in
  raw !! 6 = Some OP_0
  ∧ @UnnamedParser.extractInscriptionData Examples.helpers raw 6 = Ret None
  ∧ @SrcParser.extractInscriptionData Examples.helpers raw 6 = Ret None.
Proof.
  intros raw. split; [done|].
  by apply (envelope_without_fields_is_dropped (H:=Examples.helpers) raw 6); left.
Defined.

(** X5: an envelope needs neither a body nor a terminator.  When, after the
    fields and the separator if there is one, the buffer is at its end or at
    OP_ENDIF, the record is returned with an empty body; in [part_000] the
    empty body still goes through the decompressor when the content
    encoding is "br". *)
Theorem envelope_without_body_is_returned `{HelperModule}
    (raw : bytes) (p : nat) (fs : list Field) (p1 : nat) (f : Field) :
  fieldPairs raw p fs p1 →
  length raw ≤ afterSeparator raw p1 ∨ raw !! afterSeparator raw p1 = Some OP_ENDIF →
  SrcParser.findContentTypeField fs = Some f →
  SrcParser.extractInscriptionData raw p
  = Ret (Some (SrcParser.mkParsedInscription
                 (uint8ArrayToSingleByteChars (value f)) fs []))
  ∧ (UnnamedParser.decodeContentEncoding fs ≠ Some "br" →
       UnnamedParser.extractInscriptionData raw p
       = Ret (Some (UnnamedParser.mkParsedInscription
                      (uint8ArrayToSingleByteChars (value f)) fs []
                      (UnnamedParser.decodeContentEncoding fs))))
  ∧ (UnnamedParser.decodeContentEncoding fs = Some "br" →
       ∀ body, brotliDecodeUint8Array [] = Ok body →
       UnnamedParser.extractInscriptionData raw p
       = Ret (Some (UnnamedParser.mkParsedInscription
                      (uint8ArrayToSingleByteChars (value f)) fs body (Some "br")))).
Proof.
  intros Hfields Hend Hf.
  assert (bodyChunks raw (afterSeparator raw p1) [] (afterSeparator raw p1)) as Hbody.
  { apply bodyChunks_stop. intros [Hlt Hne]. destruct Hend as [?|?]; [lia|done]. }
  assert (getKnownFieldValue fs knownFields.content_type = Some (value f)) as Hct.
  { by rewrite <- findContentTypeField_getKnownFieldValue, Hf. }
  split_and!.
  - apply src_extract_Some. by exists fs, p1, [], (afterSeparator raw p1), f.
  - intros Hbr. apply unnamed_extract_Some.
    exists fs, p1, [], (afterSeparator raw p1), (value f), [].
    split_and!; try done. unfold UnnamedParser.decodeBody.
    by rewrite bool_decide_eq_false_2.
  - intros Hbr body Hbody'. apply unnamed_extract_Some.
    exists fs, p1, [], (afterSeparator raw p1), (value f), body.
    split_and!; try done; [|by rewrite Hbr]. unfold UnnamedParser.decodeBody.
    rewrite bool_decide_eq_true_2 by done. simpl. by rewrite Hbody'.
Qed.

(** A buffer that ends with the fields: no separator, no body, no OP_ENDIF. *)
Lemma envelope_without_body_example :
  let raw := Examples.rawOf [Examples.mark; "0101"; "0a746578742f706c61696e"] in
  let fs := [mkField [x01] Examples.textPlain] in
  @fieldPairs Examples.helpers raw 6 fs 19
  ∧ length raw ≤ @afterSeparator raw 19
  ∧ @SrcParser.extractInscriptionData Examples.helpers raw 6
    = Ret (Some (SrcParser.mkParsedInscription "text/plain" fs [])).
Proof.
  intros raw fs.
  assert (@fieldPairs Examples.helpers raw 6 fs 19) as Hfields.
  { eapply (@fieldPairs_pair Examples.helpers raw 6 _ 8 _ 19);
      [vm_compute; lia|by vm_compute|done|done|].
    apply fieldPairs_stop. vm_compute. intros [Hlt _]. lia. }
  assert (length raw ≤ @afterSeparator raw 19) as Hend by (vm_compute; lia).
  split_and!; [exact Hfields|exact Hend|].
  by apply (envelope_without_body_is_returned (H:=Examples.helpers) raw 6 fs 19
              (mkField [x01] Examples.textPlain) Hfields (or_introl Hend)).
Defined.

(** ** The two revisions on any envelope *)

(** X6: every record the revision in [part_000] extracts is extracted by the
    revision in [inscription-parser.service.ts] too, with the same content
    type and fields; the bodies are equal unless the content encoding is
    "br", and then the newer body is the older one decompressed.  The other
    way round, the only records the newer revision loses are those whose
    content encoding is "br" and whose body the decompressor rejects. *)
Theorem newer_revision_differs_by_decompression_only `{HelperModule}
    (raw : bytes) (p : nat) :
  (∀ b, UnnamedParser.extractInscriptionData raw p = Ret (Some b) →
     ∃ a, SrcParser.extractInscriptionData raw p = Ret (Some a)
          ∧ SrcParser.contentType a = UnnamedParser.contentType b
          ∧ SrcParser.fields a = UnnamedParser.fields b
          ∧ (UnnamedParser.getContentEncoding b ≠ Some "br" →
               SrcParser.combinedData a = UnnamedParser.combinedData b)
          ∧ (UnnamedParser.getContentEncoding b = Some "br" →
               brotliDecodeUint8Array (SrcParser.combinedData a)
               = Ok (UnnamedParser.combinedData b)))
  ∧ (∀ a, SrcParser.extractInscriptionData raw p = Ret (Some a) →
       UnnamedParser.extractInscriptionData raw p = Ret None →
       UnnamedParser.decodeContentEncoding (SrcParser.fields a) = Some "br"
       ∧ ∃ e, brotliDecodeUint8Array (SrcParser.combinedData a) = Raise e)
  ∧ (∀ a e, SrcParser.extractInscriptionData raw p = Ret (Some a) →
       UnnamedParser.decodeContentEncoding (SrcParser.fields a) = Some "br" →
       brotliDecodeUint8Array (SrcParser.combinedData a) = Raise e →
       UnnamedParser.extractInscriptionData raw p = Ret None).
Proof.
  split_and!.
  - intros b
      (fs & p1 & data & p2 & ct & body & Hfs & Hdata & Hct & Hdecode & ->)%unnamed_extract_Some.
    rewrite <- findContentTypeField_getKnownFieldValue in Hct.
    destruct (SrcParser.findContentTypeField fs) as [f|] eqn:Hf; [|done].
    injection Hct as <-.
    exists (SrcParser.mkParsedInscription
              (uint8ArrayToSingleByteChars (value f)) fs (concat data)).
    unfold UnnamedParser.getContentEncoding, UnnamedParser.decodeBody in *. simpl.
    split_and!; [|done|done| |].
    + apply src_extract_Some. by exists fs, p1, data, p2, f.
    + intros Hbr. rewrite bool_decide_eq_false_2 in Hdecode by done. by injection Hdecode.
    + intros Hbr. rewrite bool_decide_eq_true_2 in Hdecode by done. by apply call_Ret.
  - intros a (fs & p1 & data & p2 & f & Hfs & Hdata & Hf & ->)%src_extract_Some Hnone.
    simpl.
    destruct (decide (UnnamedParser.decodeContentEncoding fs = Some "br")) as [Hbr|Hbr].
    + split; [done|].
      destruct (brotliDecodeUint8Array (concat data)) as [body|e] eqn:Hbody; [|by exists e].
      assert (UnnamedParser.extractInscriptionData raw p
              = Ret (Some (UnnamedParser.mkParsedInscription
                             (uint8ArrayToSingleByteChars (value f)) fs body
                             (UnnamedParser.decodeContentEncoding fs)))) as Hsome;
        [|congruence].
      apply unnamed_extract_Some. exists fs, p1, data, p2, (value f), body.
      split_and!; [done|done| | |done].
      * by rewrite <- findContentTypeField_getKnownFieldValue, Hf.
      * unfold UnnamedParser.decodeBody. rewrite bool_decide_eq_true_2 by done.
        by rewrite Hbody.
    + assert (UnnamedParser.extractInscriptionData raw p
              = Ret (Some (UnnamedParser.mkParsedInscription
                             (uint8ArrayToSingleByteChars (value f)) fs (concat data)
                             (UnnamedParser.decodeContentEncoding fs)))) as Hsome;
        [|congruence].
      apply unnamed_extract_Some. exists fs, p1, data, p2, (value f), (concat data).
      split_and!; [done|done| | |done].
      * by rewrite <- findContentTypeField_getKnownFieldValue, Hf.
      * unfold UnnamedParser.decodeBody. by rewrite bool_decide_eq_false_2.
  - intros a e (fs & p1 & data & p2 & f & Hfs & Hdata & Hf & ->)%src_extract_Some Hbr Hraise.
    simpl in *.
    destruct (unnamed_extract_returns raw p) as [[b|] Hb]; [|done].
    apply unnamed_extract_Some in Hb
      as (fs' & p1' & data' & p2' & ct & body & Hfs' & Hdata' & _ & Hdecode & _).
    destruct (fieldPairs_functional _ _ _ _ _ _ Hfs Hfs') as [<- <-].
    destruct (bodyChunks_functional _ _ _ _ _ _ Hdata Hdata') as [<- <-].
    unfold UnnamedParser.decodeBody in Hdecode.
    rewrite bool_decide_eq_true_2 in Hdecode by done. by rewrite Hraise in Hdecode.
Qed.

(** Content encoding "br" over a body that is no stream: the older revision
    returns the record, the newer one drops it. *)
Lemma decompression_failure_example :
  let raw := Examples.rawOf Examples.brokenBrEnvelope in
  let a := SrcParser.mkParsedInscription "text/plain"
             [mkField [x01] Examples.textPlain; mkField [x09] ["b"; "r"]%byte]
             ["h"; "i"]%byte in
  @SrcParser.extractInscriptionData Examples.helpers raw 6 = Ret (Some a)
  ∧ UnnamedParser.decodeContentEncoding (SrcParser.fields a) = Some "br"
  ∧ @brotliDecodeUint8Array Examples.helpers (SrcParser.combinedData a)
    = Raise (Error "DecompressionFailure")
  ∧ @UnnamedParser.extractInscriptionData Examples.helpers raw 6 = Ret None.
Proof.
  intros raw a.
  destruct (newer_revision_differs_by_decompression_only (H:=Examples.helpers) raw 6)
    as (_ & _ & Hdrop).
  split_and!; [by vm_compute|by vm_compute|by vm_compute|].
  by apply (Hdrop a (Error "DecompressionFailure")); vm_compute.
Defined.

(** ** Which marks become candidates *)

Lemma marksFrom_covers `{HelperModule} (fuel : nat) (raw : bytes) (s i : nat) :
  markAt inscriptionMark raw i → s ≤ i → length raw - s < fuel →
  ∃ j, j + length inscriptionMark ∈ marksFrom fuel raw s
       ∧ j ≤ i < j + length inscriptionMark.
Proof.
  intros Hmark. revert s. induction fuel as [|fuel IH]; intros s Hs Hfuel; [lia|].
  simpl. destruct (getNextInscriptionMark raw s) as [p|] eqn:Hscan.
  - pose proof (getNextInscriptionMark_advances _ _ _ Hscan) as Hp.
    apply getNextInscriptionMark_Some in Hscan as (j & -> & Hj & _ & Hfirst).
    assert (j ≤ i) as Hji.
    { destruct (decide (j ≤ i)) as [|Hlt]; [done|]. destruct (Hfirst i); [lia|done]. }
    destruct (decide (i < j + length inscriptionMark)) as [Hin|Hout].
    + exists j. split; [by left|lia].
    + destruct (IH (j + length inscriptionMark)) as (j' & Hj' & Hrange); [lia..|].
      exists j'. split; [by right|done].
  - pose proof (proj1 (getNextInscriptionMark_None raw s) Hscan i Hs) as Hnone. done.
Qed.

(** X7: no occurrence of the marker is passed over because an earlier
    envelope's pushes cover it: the loop resumes right after each mark
    found, so every occurrence is a candidate of its own or overlaps the
    mark of one.  An envelope inside the body of another is extracted as
    well. *)
Theorem every_mark_is_a_candidate `{HelperModule} (raw : bytes) (i : nat) :
  markAt inscriptionMark raw i →
  ∃ j l,
    j + length inscriptionMark ∈ envelopeOffsets raw
    ∧ j ≤ i < j + length inscriptionMark
    ∧ scanWitness UnnamedParser.extractInscriptionData raw = Ret l
    ∧ ∀ r, UnnamedParser.extractInscriptionData raw (j + length inscriptionMark)
           = Ret (Some r) → r ∈ l.
Proof.
  intros Hmark.
  destruct (marksFrom_covers (S (length raw)) raw 0 i Hmark) as (j & Hj & Hrange); [lia..|].
  exists j, (witnessInscriptions UnnamedParser.extractInscriptionData raw). split_and!.
  - done.
  - lia.
  - lia.
  - apply scanWitness_witnessInscriptions, unnamed_extract_returns.
  - intros r Hr. apply list_elem_of_omap. exists (j + length inscriptionMark).
    split; [done|]. by apply extracted_Some.
Qed.

(** An envelope whose body push carries a whole envelope: the inner mark at
    index 21 is a candidate, and both records are returned. *)
Lemma every_mark_is_a_candidate_example :
  let inner := [Examples.mark; "0101"; "0a746578742f706c61696e"; "00"; "026869"; "68"] in
  let raw := Examples.rawOf
               ([Examples.mark; "0101"; "0a746578742f706c61696e"; "00"; "19"]
                ++ inner ++ ["68"]) in
  markAt (@inscriptionMark Examples.helpers) raw 21
  ∧ envelopeOffsets (H:=Examples.helpers) raw = [6; 27]
  ∧ (∃ j, j + 6 ∈ envelopeOffsets (H:=Examples.helpers) raw ∧ j ≤ 21 < j + 6)
  ∧ ∃ outer r,
      scanWitness (H:=Examples.helpers)
        (@UnnamedParser.extractInscriptionData Examples.helpers) raw = Ret [outer; r]
      ∧ UnnamedParser.combinedData r = ["h"; "i"]%byte
      ∧ length (UnnamedParser.combinedData outer) = 25.
Proof.
  intros inner raw.
  assert (markAt (@inscriptionMark Examples.helpers) raw 21) as Hmark by by vm_compute.
  destruct (every_mark_is_a_candidate (H:=Examples.helpers) raw 21 Hmark)
    as (j & l & Hj & Hrange & _).
  split_and!; [exact Hmark|by vm_compute|by exists j|].
  do 2 eexists. split_and!; [by vm_compute|done|done].
Defined.

(** ** Witness items are joined before anything is read *)

Lemma join_split_item (w1 w2 : list string) (s1 s2 : string) :
  String.concat "" (w1 ++ [s1 +:+ s2] ++ w2) = String.concat "" (w1 ++ [s1; s2] ++ w2).
Proof.
  rewrite !join_app. reflexivity.
Qed.

Lemma parseInscriptionsWithinWitness_split_item `{HelperModule} {ParsedInscription : Type}
    (extract : bytes → nat → outcome (option ParsedInscription))
    (w1 w2 : list string) (s1 s2 : string) :
  parseInscriptionsWithinWitness extract (w1 ++ [s1 +:+ s2] ++ w2)
  = parseInscriptionsWithinWitness extract (w1 ++ [s1; s2] ++ w2).
Proof. unfold parseInscriptionsWithinWitness. by rewrite join_split_item. Qed.

Lemma parseVins_split_item `{HelperModule} {E : Engine} {ParsedInscription : Type}
    (extract : bytes → nat → outcome (option ParsedInscription))
    (before after : list Vin) (w1 w2 : list string) (s1 s2 : string)
    (acc : list ParsedInscription) :
  parseVins extract (before ++ [mkVin (Some (w1 ++ [s1 +:+ s2] ++ w2))] ++ after) acc
  = parseVins extract (before ++ [mkVin (Some (w1 ++ [s1; s2] ++ w2))] ++ after) acc.
Proof.
  rewrite !parseVins_app. apply bind_ext. intros acc'.
  rewrite !parseVins_app. cbn [parseVins witness].
  by rewrite parseInscriptionsWithinWitness_split_item.
Qed.

(** X8: only the concatenation of an input's witness items is read.
    Cutting an item in two at any place, inside a mark or a push as well,
    changes nothing in what [parseInscriptions] gives. *)
Theorem witness_items_can_be_split `{HelperModule} {E : Engine}
    (before after : list Vin) (w1 w2 : list string) (s1 s2 : string) :
  UnnamedParser.parseInscriptions
    (mkTransaction (before ++ [mkVin (Some (w1 ++ [s1 +:+ s2] ++ w2))] ++ after))
  = UnnamedParser.parseInscriptions
      (mkTransaction (before ++ [mkVin (Some (w1 ++ [s1; s2] ++ w2))] ++ after))
  ∧ SrcParser.parseInscriptions
      (mkTransaction (before ++ [mkVin (Some (w1 ++ [s1 +:+ s2] ++ w2))] ++ after))
    = SrcParser.parseInscriptions
        (mkTransaction (before ++ [mkVin (Some (w1 ++ [s1; s2] ++ w2))] ++ after)).
Proof.
  unfold UnnamedParser.parseInscriptions, SrcParser.parseInscriptions, parseInscriptions.
  split; apply parseVins_split_item.
Qed.

(** * The Mooncat parser *)

Section MooncatTheory.
Import MooncatParser.
Context `{Imports}.

#[local] Arguments Nat.modulo : simpl never.
#[local] Arguments Nat.div : simpl never.

Lemma split_nonempty (sep : ascii) (s : string) : split sep s ≠ [].
Proof.
  induction s as [|c s IH]; simpl; [done|].
  destruct (decide (c = sep)); [done|]. by destruct (split sep s).
Qed.

Lemma between_Some (n lo hi : nat) : between (Some n) lo hi = true ↔ lo ≤ n ≤ hi.
Proof.
  unfold between. rewrite andb_true_iff, !bool_decide_eq_true. tauto.
Qed.

Lemma between_true (x : option nat) (lo hi : nat) :
  between x lo hi = true ↔ ∃ n, x = Some n ∧ lo ≤ n ≤ hi.
Proof.
  destruct x as [n|].
  - rewrite between_Some. split; [by exists n|by intros (? & [= <-] & ?)].
  - simpl. split; [done|by intros (? & ? & _)].
Qed.

Lemma between_false (x : option nat) (lo hi : nat) :
  between x lo hi = false ↔ ∀ n, x = Some n → ¬ lo ≤ n ≤ hi.
Proof.
  rewrite <- not_true_iff_false, between_true. split.
  - intros Hn n -> Hr. apply Hn. by exists n.
  - intros Hn (n & -> & Hr). by apply (Hn n).
Qed.

Lemma byteAt_Some (b : bytes) (i n : nat) : byteAt b i = Some n → i < length b ∧ n < 256.
Proof.
  unfold byteAt. intros Hb. apply fmap_Some in Hb as (x & Hx & ->).
  split; [by eapply lookup_lt_Some|]. pose proof (Byte.to_nat_bounded x). lia.
Qed.

Lemma byteAt_None (b : bytes) (i : nat) : byteAt b i = None ↔ length b ≤ i.
Proof. unfold byteAt. by rewrite fmap_None, lookup_ge_None. Qed.

Lemma byteAt_is_Some (b : bytes) (i : nat) : i < length b → ∃ n, byteAt b i = Some n ∧ n < 256.
Proof.
  intros Hi. destruct (byteAt b i) as [n|] eqn:Hb.
  - exists n. split; [done|]. by apply byteAt_Some in Hb as [_ ?].
  - apply byteAt_None in Hb. lia.
Qed.

(** The four quarters of a byte leave nothing over. *)
Lemma laserEyesOf_Some (n : nat) :
  n < 256 →
  ∃ laserEyesColors laserEyesName,
    laserEyesOf (Some n) = Ok (laserEyesColors, laserEyesName) ∧
    [orange; red; green; blue] !! (n `div` 64) = Some laserEyesName.
Proof.
  intros Hn. unfold laserEyesOf.
  destruct (between (Some n) 64 127) eqn:Hred.
  { apply between_Some in Hred. eexists _, _. split; [done|].
    replace (n `div` 64) with 1; [done|]. apply Nat.div_unique with (n - 64); lia. }
  destruct (between (Some n) 128 191) eqn:Hgreen.
  { apply between_Some in Hgreen. eexists _, _. split; [done|].
    replace (n `div` 64) with 2; [done|]. apply Nat.div_unique with (n - 128); lia. }
  destruct (between (Some n) 192 255) eqn:Hblue.
  { apply between_Some in Hblue. eexists _, _. split; [done|].
    replace (n `div` 64) with 3; [done|]. apply Nat.div_unique with (n - 192); lia. }
  destruct (between (Some n) 0 63) eqn:Horange.
  { apply between_Some in Horange. eexists _, _. split; [done|].
    replace (n `div` 64) with 0; [done|]. apply Nat.div_unique with n; lia. }
  exfalso.
  pose proof (proj1 (between_false _ _ _) Hred n eq_refl).
  pose proof (proj1 (between_false _ _ _) Hgreen n eq_refl).
  pose proof (proj1 (between_false _ _ _) Hblue n eq_refl).
  pose proof (proj1 (between_false _ _ _) Horange n eq_refl). lia.
Qed.

Lemma laserEyesOf_Ok (b5 : option nat) (eyes : (string * string) * LaserEyes) :
  laserEyesOf b5 = Ok eyes → is_Some b5.
Proof. destruct b5; [by eexists|done]. Qed.

(** What a returning [parse] went through. *)
Lemma parse_Ok (catHash : string) (feeRate : number)
    (catData : list (list cell)) (traits : CatTraits) :
  parse catHash feeRate = Ok (catData, traits) →
  ∃ bytes k text eyes palette pose expression pattern facing,
    hexToBytes catHash = Ok bytes ∧
    byteAt bytes 1 = Some k ∧
    (if between (byteAt bytes 7) 120 145 then laserCrownDesigns else laserDesigns)
      !! (k mod 128) = Some text ∧
    laserEyesOf (byteAt bytes 5) = Ok eyes ∧
    (if bool_decide (byteAt bytes 0 = Some 79)
     then Ok (genesisPalette (k mod 128) (bool_decide (128 ≤ k)))
     else '(r, g, b) ← feeRateToMempoolColor feeRate;
          derivePalette r g b (bool_decide (128 ≤ k))) = Ok palette ∧
    catData =
      colorRow (palette ++ [Some eyes.1.1; Some eyes.1.2;
                            Some (if between (byteAt bytes 6) 154 255
                                  then ("#b8d8e7", "#cbe3f0") else ("#ffaf51", "#ffcf39")).1;
                            Some (if between (byteAt bytes 6) 154 255
                                  then ("#b8d8e7", "#cbe3f0") else ("#ffaf51", "#ffcf39")).2])
        <$> split "." text ∧
    traits =
      mkCatTraits (bool_decide (byteAt bytes 0 = Some 79))
        (let colors :=
           palette ++ [Some eyes.1.1; Some eyes.1.2;
                       Some (if between (byteAt bytes 6) 154 255
                             then ("#b8d8e7", "#cbe3f0") else ("#ffaf51", "#ffcf39")).1;
                       Some (if between (byteAt bytes 6) 154 255
                             then ("#b8d8e7", "#cbe3f0") else ("#ffaf51", "#ffcf39")).2] in
         [colors !! 1; colors !! 2; colors !! 3; colors !! 4; colors !! 5])
        (if bool_decide (128 ≤ k) then female else male) (k mod 128)
        pose expression pattern facing eyes.2
        (if between (byteAt bytes 6) 0 25 then block9
         else if between (byteAt bytes 6) 26 76 then cyberpunk
         else if between (byteAt bytes 6) 77 153 then whitepaper
         else bg_orange)
        (if between (byteAt bytes 7) 120 145
         then if between (byteAt bytes 6) 154 255 then diamond else gold
         else none).
Proof.
  unfold parse. intros Hparse.
  destruct (hexToBytes catHash) as [bytes|e] eqn:Hhex; simpl in Hparse; [|done].
  destruct (byteAt bytes 1) as [k|] eqn:Hk; simpl in Hparse; [|done].
  destruct ((if between (byteAt bytes 7) 120 145 then laserCrownDesigns else laserDesigns)
              !! (k mod 128)) as [text|] eqn:Htext; [|done].
  destruct (laserEyesOf (byteAt bytes 5)) as [[laserEyesColors laserEyesName]|e] eqn:Heyes;
    simpl in Hparse; [|done].
  match type of Hparse with (?m ≫= _) = _ => destruct m as [palette|e] eqn:Hpalette end;
    simpl in Hparse; [|done].
  destruct (List.find _ mooncatDesignsToTraits)
    as [[i [[[pose expression] pattern] facing]]|]; [|done].
  injection Hparse as <- <-.
  by exists bytes, k, text, (laserEyesColors, laserEyesName), palette,
    pose, expression, pattern, facing.
Qed.

Lemma colorRow_length (colors : list (option string)) (row : string) :
  length (colorRow colors row) = String.length row.
Proof.
  unfold colorRow. rewrite length_fmap.
  induction row as [|c row IH]; simpl; [done|]. by rewrite IH.
Qed.

Lemma mod_128_mod_2 (k : nat) : (k `mod` 128) `mod` 2 = k `mod` 2.
Proof.
  pose proof (Nat.div_mod_eq k 128). pose proof (Nat.div_mod_eq k 2).
  pose proof (Nat.div_mod_eq (k `mod` 128) 2).
  pose proof (Nat.mod_upper_bound k 2). pose proof (Nat.mod_upper_bound (k `mod` 128) 2).
  lia.
Qed.

(** X9: a hash of fewer than six bytes is never parsed: [parse] throws
    whatever the fee rate is.  The error is the one of line 138, the branch
    marked as never happening, exactly when the hash has a second byte and
    the table of designs without crown has the design of that byte; otherwise
    it is the TypeError of the design lookup, [split] read on [undefined]. *)
Theorem hash_shorter_than_six_bytes_is_refused (catHash : string) (feeRate : number)
    (bytes : bytes) :
  hexToBytes catHash = Ok bytes →
  length bytes < 6 →
  ∃ e, parse catHash feeRate = Raise e ∧
       (e = Error "This should never never happen" ↔
        ∃ k text, byteAt bytes 1 = Some k ∧ laserDesigns !! (k `mod` 128) = Some text) ∧
       (e = Error "TypeError: Cannot read properties of undefined (reading 'split')" ↔
        ¬ ∃ k text, byteAt bytes 1 = Some k ∧ laserDesigns !! (k `mod` 128) = Some text).
Proof.
  intros Hhex Hlen. unfold parse. rewrite Hhex. simpl.
  assert (byteAt bytes 5 = None) as -> by (apply byteAt_None; lia).
  assert (byteAt bytes 7 = None) as -> by (apply byteAt_None; lia).
  destruct (byteAt bytes 1) as [k|]; simpl.
  - destruct (laserDesigns !! (k `mod` 128)) as [text|] eqn:Htext.
    + eexists. split; [done|]. split.
      * split; [|done]. intros _. by exists k, text.
      * split; [done|]. intros Hnone. destruct Hnone. by exists k, text.
    + eexists. split; [done|].
      assert (¬ ∃ k' text, Some k = Some k' ∧ laserDesigns !! (k' `mod` 128) = Some text)
        as Hnone by (intros (k' & text & [= <-] & Ht); congruence).
      split; split; done.
  - eexists. split; [done|].
    assert (¬ ∃ k' text, @None nat = Some k' ∧ laserDesigns !! (k' `mod` 128) = Some text)
      as Hnone by (by intros (k' & text & ? & _)).
    split; split; done.
Qed.

(** X10: a cat is returned for hashes of six bytes or more only, and its
    traits are read off the hash: byte 1 is the design index plus 128 for a
    female cat, the design index is below 128, the quarter of byte 5 chooses
    the laser eyes in the order orange, red, green, blue, and the cat is a
    genesis cat exactly when byte 0 is 79. *)
Theorem traits_are_read_off_the_hash (catHash : string) (feeRate : number)
    (catData : list (list cell)) (traits : CatTraits) :
  parse catHash feeRate = Ok (catData, traits) →
  ∃ bytes k e,
    hexToBytes catHash = Ok bytes ∧ 6 ≤ length bytes ∧
    byteAt bytes 1 = Some k ∧ byteAt bytes 5 = Some e ∧
    k = designIndex traits + (match gender traits with female => 128 | male => 0 end) ∧
    designIndex traits < 128 ∧
    [orange; red; green; blue] !! (e `div` 64) = Some (laserEyes traits) ∧
    (genesis traits = true ↔ byteAt bytes 0 = Some 79).
Proof.
  intros Hparse. apply parse_Ok in Hparse
    as (bytes & k & text & eyes & palette & pose & expression & pattern & facing
        & Hhex & Hk & _ & Heyes & _ & _ & ->). simpl.
  destruct (laserEyesOf_Ok _ _ Heyes) as [e He].
  pose proof (byteAt_Some _ _ _ He) as [Hlen He256].
  pose proof (byteAt_Some _ _ _ Hk) as [_ Hk256].
  exists bytes, k, e. split; [done|]. split; [lia|]. split; [done|]. split; [done|].
  pose proof (Nat.div_mod_eq k 128) as Hdiv.
  pose proof (Nat.mod_upper_bound k 128 ltac:(lia)) as Hmod.
  split; [|split; [done|split]].
  - case_bool_decide as Hinv.
    + assert (k `div` 128 = 1) by (symmetry; apply Nat.div_unique with (k - 128); lia). lia.
    + assert (k `div` 128 = 0) by (symmetry; apply Nat.div_unique with k; lia). lia.
  - rewrite He in Heyes.
    destruct (laserEyesOf_Some e He256) as (c & name & Hc & Hname).
    rewrite Hc in Heyes. injection Heyes as <-. exact Hname.
  - apply bool_decide_eq_true.
Qed.

(** X11: crown and background go together: a diamond crown is worn on the
    orange background only and a gold crown never on it; a hash without an
    eighth byte gives no crown, and a hash without a seventh byte the orange
    background.  Otherwise byte 6 chooses the background by its range and
    byte 7, between 120 and 145, gives the crown. *)
Theorem crown_and_background_go_together (catHash : string) (feeRate : number)
    (bytes : bytes) (catData : list (list cell)) (traits : CatTraits) :
  hexToBytes catHash = Ok bytes →
  parse catHash feeRate = Ok (catData, traits) →
  (crown traits = diamond → background traits = bg_orange) ∧
  (crown traits = gold → background traits ≠ bg_orange) ∧
  (crown traits ≠ none ↔ ∃ c, byteAt bytes 7 = Some c ∧ 120 ≤ c ≤ 145) ∧
  (background traits ≠ bg_orange ↔ ∃ b, byteAt bytes 6 = Some b ∧ b ≤ 153) ∧
  (length bytes ≤ 7 → crown traits = none) ∧
  (length bytes ≤ 6 → background traits = bg_orange).
Proof.
  intros Hhex Hparse. apply parse_Ok in Hparse
    as (bytes' & k & text & eyes & palette & pose & expression & pattern & facing
        & Hhex' & _ & _ & _ & _ & _ & ->).
  assert (bytes' = bytes) as -> by congruence. simpl.
  assert (between (byteAt bytes 6) 154 255 = true →
          between (byteAt bytes 6) 0 25 = false ∧ between (byteAt bytes 6) 26 76 = false ∧
          between (byteAt bytes 6) 77 153 = false) as Horange.
  { intros (b & Hb & ?)%between_true. rewrite Hb.
    repeat split; apply between_false; intros ? [= <-]; lia. }
  assert ((if between (byteAt bytes 6) 0 25 then block9
           else if between (byteAt bytes 6) 26 76 then cyberpunk
           else if between (byteAt bytes 6) 77 153 then whitepaper else bg_orange)
            ≠ bg_orange ↔ ∃ b, byteAt bytes 6 = Some b ∧ b ≤ 153) as Hbackground.
  { destruct (byteAt bytes 6) as [b|] eqn:Hb.
    - destruct (between (Some b) 0 25) eqn:H1;
        [apply between_Some in H1; split; [intros _; exists b; split; [done|lia]|done]|].
      destruct (between (Some b) 26 76) eqn:H2;
        [apply between_Some in H2; split; [intros _; exists b; split; [done|lia]|done]|].
      destruct (between (Some b) 77 153) eqn:H3;
        [apply between_Some in H3; split; [intros _; exists b; split; [done|lia]|done]|].
      split; [done|]. intros (b' & [= <-] & Hle).
      pose proof (proj1 (between_false _ _ _) H1 b eq_refl).
      pose proof (proj1 (between_false _ _ _) H2 b eq_refl).
      pose proof (proj1 (between_false _ _ _) H3 b eq_refl). lia.
    - simpl. split; [done|]. by intros (b & ? & _). }
  split; [|split; [|split; [|split; [|split]]]].
  - destruct (between (byteAt bytes 7) 120 145); [|done].
    destruct (between (byteAt bytes 6) 154 255) eqn:Ho; [|done].
    intros _. destruct (Horange eq_refl) as (-> & -> & ->). done.
  - destruct (between (byteAt bytes 7) 120 145) eqn:Hc; [|done].
    destruct (between (byteAt bytes 6) 154 255) eqn:Ho; [done|]. intros _.
    apply Hbackground.
    apply between_true in Hc as (c & Hc & _). apply byteAt_Some in Hc as [Hlen _].
    destruct (byteAt_is_Some bytes 6 ltac:(lia)) as (b & Hb & Hb256).
    exists b. split; [done|].
    rewrite Hb in Ho. pose proof (proj1 (between_false _ _ _) Ho b eq_refl). lia.
  - destruct (between (byteAt bytes 7) 120 145) eqn:Hc.
    + apply between_true in Hc. split; [done|]. intros _.
      by destruct (between (byteAt bytes 6) 154 255).
    + split; [done|]. intros (c & Hc' & Hr). exfalso.
      by apply (proj1 (between_false _ _ _) Hc c Hc').
  - exact Hbackground.
  - intros Hlen. assert (byteAt bytes 7 = None) as -> by (apply byteAt_None; lia). done.
  - intros Hlen. assert (byteAt bytes 6 = None) as -> by (apply byteAt_None; lia). done.
Qed.

(** X12: a genesis cat, byte 0 being 79, has its colours from the hash
    alone: [parse] gives the same for every fee rate, and the five colours of
    the traits are the light palette when byte 1 is even and at least 128 or
    odd and below 128, and the dark palette otherwise. *)
Theorem genesis_cat_ignores_the_fee_rate (catHash : string) (bytes : bytes)
    (feeRate1 feeRate2 : number) :
  hexToBytes catHash = Ok bytes →
  byteAt bytes 0 = Some 79 →
  parse catHash feeRate1 = parse catHash feeRate2 ∧
  ∀ catData traits,
    parse catHash feeRate1 = Ok (catData, traits) →
    genesis traits = true ∧
    ∃ k, byteAt bytes 1 = Some k ∧
         colors traits =
           (λ c, Some (Some c)) <$>
             (if bool_decide (k `mod` 2 = 0 ↔ 128 ≤ k)
              then ["#555555"; "#d3d3d3"; "#ffffff"; "#aaaaaa"; "#ff9999"]
              else ["#555555"; "#222222"; "#111111"; "#bbbbbb"; "#ff9999"]).
Proof.
  intros Hhex Hgenesis. split.
  - unfold parse. rewrite Hhex. simpl. rewrite Hgenesis.
    by rewrite bool_decide_eq_true_2.
  - intros catData traits Hparse. apply parse_Ok in Hparse
      as (bytes' & k & text & eyes & palette & pose & expression & pattern & facing
          & Hhex' & Hk & _ & _ & Hpalette & _ & ->).
    assert (bytes' = bytes) as -> by congruence. simpl.
    rewrite bool_decide_eq_true_2 in Hpalette |- * by done.
    split; [done|]. exists k. split; [done|].
    injection Hpalette as <-. unfold genesisPalette. rewrite mod_128_mod_2.
    pose proof (Nat.mod_upper_bound k 2 ltac:(lia)).
    destruct (decide (k `mod` 2 = 0)) as [Heven|Hodd];
      destruct (decide (128 ≤ k)) as [Hinv|Hinv].
    + rewrite (bool_decide_eq_true_2 (k `mod` 2 = 0)), (bool_decide_eq_true_2 (128 ≤ k)) by done.
      simpl. by rewrite bool_decide_eq_true_2 by tauto.
    + rewrite (bool_decide_eq_true_2 (k `mod` 2 = 0)), (bool_decide_eq_false_2 (128 ≤ k)),
        (bool_decide_eq_false_2 (k `mod` 2 = 1)) by (done || lia).
      simpl. by rewrite bool_decide_eq_false_2 by tauto.
    + rewrite (bool_decide_eq_false_2 (k `mod` 2 = 0)), (bool_decide_eq_true_2 (128 ≤ k)),
        (bool_decide_eq_true_2 (k `mod` 2 = 1)) by (done || lia).
      simpl. by rewrite bool_decide_eq_false_2 by tauto.
    + rewrite (bool_decide_eq_false_2 (k `mod` 2 = 0)), (bool_decide_eq_false_2 (128 ≤ k)),
        (bool_decide_eq_true_2 (k `mod` 2 = 1)) by (done || lia).
      simpl. by rewrite bool_decide_eq_true_2 by tauto.
Qed.

Lemma parse_nonempty (catHash : string) (feeRate : number)
    (catData : list (list cell)) (traits : CatTraits) :
  parse catHash feeRate = Ok (catData, traits) → catData ≠ [].
Proof.
  intros Hparse. apply parse_Ok in Hparse
    as (bytes & k & text & eyes & palette & pose & expression & pattern & facing
        & _ & _ & _ & _ & _ & -> & _).
  pose proof (split_nonempty "." text). by destruct (split "." text).
Qed.

(** X13: the cat has the shape of its design: one column for every piece
    of the design between the dots, so at least one, each as long as its
    piece; and the design is the one of the design index, taken from the
    crown designs exactly when the cat wears a crown. *)
Theorem cat_has_the_shape_of_its_design (catHash : string) (feeRate : number)
    (catData : list (list cell)) (traits : CatTraits) :
  parse catHash feeRate = Ok (catData, traits) →
  ∃ text,
    (match crown traits with none => laserDesigns | _ => laserCrownDesigns end)
      !! designIndex traits = Some text ∧
    catData ≠ [] ∧
    Forall2 (λ column piece, length column = String.length piece)
            catData (split "." text).
Proof.
  intros Hparse. pose proof (parse_nonempty _ _ _ _ Hparse) as Hne.
  apply parse_Ok in Hparse
    as (bytes & k & text & eyes & palette & pose & expression & pattern & facing
        & _ & _ & Htext & _ & _ & -> & ->). simpl.
  exists text. split; [|split].
  - destruct (between (byteAt bytes 7) 120 145); [|done].
    by destruct (between (byteAt bytes 6) 154 255).
  - exact Hne.
  - apply Forall2_fmap_l, Forall_Forall2_diag, Forall_forall.
    intros piece _. apply colorRow_length.
Qed.

(** ** The drawing loops *)

Lemma foldl_append_some {A} (t : A → option string) (r : A → string → string)
    (l : list A) (svg : string) :
  foldl (λ svg x, match t x with Some c => svg +:+ r x c | None => svg end) svg l =
  svg +:+ String.concat "" (omap (λ x, r x <$> t x) l).
Proof.
  revert svg. induction l as [|x l IH]; intros svg.
  - simpl. by rewrite append_empty_r.
  - rewrite omap_cons. cbn [foldl]. rewrite IH.
    destruct (t x) as [c|]; cbn [fmap option_fmap option_map]; [|done].
    by rewrite join_cons, append_assoc.
Qed.

Lemma foldl_append_all {A} (g : A → string) (l : list A) (svg : string) :
  foldl (λ svg x, svg +:+ g x) svg l = svg +:+ String.concat "" (g <$> l).
Proof.
  revert svg. induction l as [|x l IH]; intros svg.
  - simpl. by rewrite append_empty_r.
  - rewrite fmap_cons, join_cons. cbn [foldl]. by rewrite IH, append_assoc.
Qed.

Lemma join_concat {A} (f : A → string) (ls : list (list A)) :
  String.concat "" (f <$> concat ls) =
  String.concat "" ((λ l, String.concat "" (f <$> l)) <$> ls).
Proof.
  induction ls as [|l ls IH]; [done|].
  rewrite fmap_cons, join_cons. cbn [concat]. by rewrite fmap_app, join_app, IH.
Qed.

Lemma fmap_omap {A B C} (f : B → C) (g : A → option B) (l : list A) :
  f <$> omap g l = omap (λ x, f <$> g x) l.
Proof.
  induction l as [|x l IH]; [done|]. rewrite !omap_cons.
  destruct (g x); cbn [fmap option_fmap option_map]; [rewrite fmap_cons|]; by rewrite IH.
Qed.

Lemma omap_ext' {A B} (f g : A → option B) (l : list A) :
  (∀ x, x ∈ l → f x = g x) → omap f l = omap g l.
Proof.
  induction l as [|x l IH]; intros Hfg; [done|]. rewrite !omap_cons.
  rewrite (Hfg x) by left. rewrite IH; [done|]. intros y Hy. apply Hfg. by right.
Qed.

(** A column by its cells and by its indices. *)
Lemma column_by_index {B} (g : nat → string → B) (column : list cell) (catHeight : nat) :
  omap (λ '(j, color), g j <$> truthy color) (imap pair (take catHeight column)) =
  omap (λ j, g j <$> truthy (mjoin (column !! j))) (seq 0 catHeight).
Proof.
  induction catHeight as [|h IH]; [done|].
  rewrite seq_S, omap_app, <- IH. cbn [Nat.add]. rewrite (omap_cons _ h []).
  destruct (column !! h) as [c|] eqn:Hc.
  - rewrite (take_S_r _ _ _ Hc), imap_app, omap_app. f_equal.
    rewrite length_take_le by (apply lookup_lt_Some in Hc; lia).
    cbn [imap compose]. rewrite Nat.add_0_r, omap_cons. done.
  - apply lookup_ge_None in Hc. rewrite !take_ge by lia. by rewrite app_nil_r.
Qed.

Lemma imap_by_index {A B} (f : nat → A → B) (g : nat → B) (l : list A) :
  (∀ i x, l !! i = Some x → f i x = g i) → imap f l = g <$> seq 0 (length l).
Proof.
  intros Hfg. apply list_eq. intros i.
  rewrite list_lookup_imap, list_lookup_fmap.
  destruct (l !! i) as [x|] eqn:Hx; simpl.
  - rewrite lookup_seq_lt by (by eapply lookup_lt_Some). simpl. f_equal. by apply Hfg.
  - apply lookup_ge_None in Hx. by rewrite lookup_seq_ge by lia.
Qed.

Lemma drawColumn_append (catData : list (list cell)) (xOffset yOffset : Z)
    (catHeight i : nat) (svg : string) :
  drawColumn catData xOffset yOffset catHeight i svg =
  svg +:+ String.concat ""
            (omap (λ j, rect (Z.of_nat i + xOffset) (Z.of_nat j + yOffset)
                          <$> truthy (cellAt catData i j)) (seq 0 catHeight)).
Proof.
  exact (foldl_append_some (λ j, truthy (cellAt catData i j))
           (λ j, rect (Z.of_nat i + xOffset) (Z.of_nat j + yOffset)) _ svg).
Qed.

Lemma drawColumns_append (catData : list (list cell)) (xOffset yOffset : Z)
    (catHeight : nat) (l : list nat) (svg : string) :
  foldl (λ svg i, drawColumn catData xOffset yOffset catHeight i svg) svg l =
  svg +:+ String.concat ""
            ((λ i, String.concat ""
                     (omap (λ j, rect (Z.of_nat i + xOffset) (Z.of_nat j + yOffset)
                                   <$> truthy (cellAt catData i j)) (seq 0 catHeight)))
               <$> l).
Proof.
  revert svg. induction l as [|i l IH]; intros svg.
  - simpl. by rewrite append_empty_r.
  - cbn [foldl]. by rewrite IH, drawColumn_append, fmap_cons, join_cons, append_assoc.
Qed.

Section Svg.
Context (cubePattern : string).

Lemma generateSvg_svgOf (catData : list (list cell)) (traits : option CatTraits) :
  catData ≠ [] →
  generateSvg cubePattern catData traits = Ok (svgOf cubePattern catData traits, traits).
Proof.
  intros Hne. unfold generateSvg, svgOf, pixels.
  destruct catData as [|column0 catData']; [done|].
  set (catData := column0 :: catData').
  change (catData !! 0) with (Some column0). cbv beta iota zeta. unfold default.
  set (xOffset := ((22 - Z.of_nat (length catData)) `div` 2)%Z).
  set (yOffset := Z.max (22 - Z.of_nat (length column0) - 1) 0).
  do 2 f_equal. rewrite drawColumns_append, !append_assoc. do 2 f_equal.
  rewrite (imap_by_index _
    (λ i, omap (λ j, (λ c, ((Z.of_nat i + xOffset)%Z, (Z.of_nat j + yOffset)%Z, c))
                       <$> truthy (cellAt catData i j)) (seq 0 (length column0)))).
  2: { intros i column Hi. unfold pixelsOfColumn. rewrite column_by_index.
       unfold cellAt. by rewrite Hi. }
  f_equal. rewrite join_concat, <- list_fmap_compose. f_equal.
  apply list_fmap_ext. intros _ i _. cbn [compose]. f_equal.
  rewrite fmap_omap. apply omap_ext'. intros j _.
  by destruct (truthy (cellAt catData i j)).
Qed.

Lemma parsed_nonempty (catHash : option string) (feeRate : number)
    (catData : list (list cell)) (traits : option CatTraits) :
  parsed catHash feeRate = Ok (catData, traits) → catData ≠ [].
Proof.
  assert (parsePlaceholder ≠ []) as Hplaceholder.
  { unfold parsePlaceholder. pose proof (split_nonempty "." placeholderDesign).
    by destruct (split "." placeholderDesign). }
  unfold parsed. destruct catHash as [h|]; [|by intros [= <- _]].
  destruct (decide (h = EmptyString)); [by intros [= <- _]|].
  destruct (parse h feeRate) as [[catData' traits']|e] eqn:Hparse; simpl; [|done].
  intros [= <- _].
  by eapply parse_nonempty.
Qed.

(** Where the squares are: column [i], cell [j] of it, moved by the offsets. *)
Lemma pixels_elem (catData : list (list cell)) (x y : Z) (c : string) :
  (x, y, c) ∈ pixels catData →
  ∃ i j column0,
    catData !! 0 = Some column0 ∧ i < length catData ∧ j < length column0 ∧
    x = (Z.of_nat i + (22 - Z.of_nat (length catData)) `div` 2)%Z ∧
    y = (Z.of_nat j + Z.max (22 - Z.of_nat (length column0) - 1) 0)%Z ∧
    truthy (cellAt catData i j) = Some c.
Proof.
  unfold pixels. intros Hin.
  apply list_elem_of_In, in_concat in Hin as (l & Hl & Hin).
  apply list_elem_of_In, elem_of_lookup_imap in Hl as (i & column & -> & Hi).
  apply list_elem_of_In in Hin. unfold pixelsOfColumn in Hin.
  apply list_elem_of_omap in Hin as ([j color] & Hj & Hc).
  apply elem_of_lookup_imap in Hj as (j' & color' & [= <- <-] & Hj).
  destruct (truthy color) as [c'|] eqn:Hcolor; [|done]. injection Hc as <- <- <-.
  destruct catData as [|column0 catData']; [done|]. simpl in Hj.
  exists i, j, column0. split; [done|]. split; [by eapply lookup_lt_Some|].
  apply lookup_take_Some in Hj as [Hj Hlt].
  split; [done|]. split; [done|]. split; [done|].
  unfold cellAt. rewrite Hi. simpl. by rewrite Hj.
Qed.

(** X14: drawing adds no failure of its own.  Without a hash, [null] or
    the empty string, the placeholder is drawn, the same for every fee rate
    and without traits; with a hash the SVG is returned with the traits
    whenever [parse] returns, and what [parse] throws is thrown.  The
    TypeError of [catData[0].length] is never met: a design has a column. *)
Theorem svg_is_generated_whenever_the_cat_is_parsed :
  (∃ svg, ∀ feeRate,
     parseAndGenerateSvg cubePattern None feeRate = Ok (svg, None) ∧
     parseAndGenerateSvg cubePattern (Some EmptyString) feeRate = Ok (svg, None)) ∧
  (∀ h feeRate,
     h ≠ EmptyString →
     match parse h feeRate with
     | Ok (_, traits) =>
         ∃ svg, parseAndGenerateSvg cubePattern (Some h) feeRate = Ok (svg, Some traits)
     | Raise e => parseAndGenerateSvg cubePattern (Some h) feeRate = Raise e
     end).
Proof.
  split.
  - exists (svgOf cubePattern parsePlaceholder None). intros feeRate.
    unfold parseAndGenerateSvg. simpl.
    by rewrite generateSvg_svgOf by (by eapply (parsed_nonempty None feeRate)).
  - intros h feeRate Hh. unfold parseAndGenerateSvg, parsed.
    destruct (decide (h = EmptyString)); [done|].
    destruct (parse h feeRate) as [[catData traits]|e] eqn:Hparse; simpl; [|done].
    exists (svgOf cubePattern catData (Some traits)).
    apply generateSvg_svgOf. by eapply parse_nonempty.
Qed.

(** X15: the SVG is the header, the background of the traits, one square
    for every cell with a colour, column after column and no further down a
    column than the first column is long, and the closing tag. *)
Theorem svg_is_header_background_and_squares (catHash : option string) (feeRate : number)
    (catData : list (list cell)) (traits : option CatTraits) :
  parsed catHash feeRate = Ok (catData, traits) →
  parseAndGenerateSvg cubePattern catHash feeRate =
    Ok (svgHeader +:+ backgroundSvg cubePattern traits
        +:+ String.concat "" ((λ '(x, y, color), rect x y color) <$> pixels catData)
        +:+ "</svg>", traits) ∧
  ∀ x y c, (x, y, c) ∈ pixels catData ↔
    ∃ i j column0,
      catData !! 0 = Some column0 ∧ j < length column0 ∧
      x = (Z.of_nat i + (22 - Z.of_nat (length catData)) `div` 2)%Z ∧
      y = (Z.of_nat j + Z.max (22 - Z.of_nat (length column0) - 1) 0)%Z ∧
      truthy (cellAt catData i j) = Some c.
Proof.
  intros Hparsed. split.
  - unfold parseAndGenerateSvg. rewrite Hparsed. simpl.
    apply generateSvg_svgOf. by eapply parsed_nonempty.
  - intros x y c. split.
    + intros (i & j & column0 & ? & _ & ? & ? & ? & ?)%pixels_elem.
      by exists i, j, column0.
    + intros (i & j & column0 & Hcolumn0 & Hj & -> & -> & Hc).
      unfold cellAt in Hc.
      destruct (catData !! i) as [column|] eqn:Hi; [|done]. simpl in Hc.
      destruct (column !! j) as [color|] eqn:Hcolor; [|done]. simpl in Hc.
      unfold pixels. rewrite Hcolumn0. simpl.
      apply list_elem_of_In, in_concat.
      eexists. split.
      * apply list_elem_of_In. by apply (elem_of_lookup_imap_2 _ _ _ _ Hi).
      * apply list_elem_of_In. unfold pixelsOfColumn.
        apply list_elem_of_omap. exists (j, color). split.
        -- apply (elem_of_lookup_imap_2 pair _ color j).
           by apply lookup_take_Some.
        -- by rewrite Hc.
Qed.

(** X16: a cat of at most 22 columns of at most 22 cells is drawn inside
    the grid of 22 by 22: every square has its coordinates between 0 and 21,
    and a cat of at most 21 cells in its first column leaves the bottom row
    free. *)
Theorem squares_stay_inside_the_grid (catHash : option string) (feeRate : number)
    (catData : list (list cell)) (traits : option CatTraits) (column0 : list cell) :
  parsed catHash feeRate = Ok (catData, traits) →
  catData !! 0 = Some column0 →
  length catData ≤ 22 →
  length column0 ≤ 22 →
  ∃ squares,
    parseAndGenerateSvg cubePattern catHash feeRate =
      Ok (svgHeader +:+ backgroundSvg cubePattern traits
          +:+ String.concat "" ((λ '(x, y, color), rect x y color) <$> squares)
          +:+ "</svg>", traits) ∧
    Forall (λ '(x, y, _), (0 ≤ x ≤ 21)%Z ∧ (0 ≤ y ≤ 21)%Z ∧
                          (length column0 ≤ 21 → (y ≤ 20)%Z)) squares.
Proof.
  intros Hparsed Hcolumn0 Hwidth Hheight. exists (pixels catData). split.
  - unfold parseAndGenerateSvg. rewrite Hparsed. simpl.
    apply generateSvg_svgOf. by eapply parsed_nonempty.
  - apply Forall_forall. intros [[x y] c] Hin.
    apply pixels_elem in Hin as (i & j & column0' & Hc & Hi & Hj & -> & -> & _).
    assert (column0' = column0) as -> by congruence.
    pose proof (Z.div_mod (22 - Z.of_nat (length catData)) 2 ltac:(lia)).
    pose proof (Z.mod_pos_bound (22 - Z.of_nat (length catData)) 2 ltac:(lia)).
    lia.
Qed.

End Svg.
End MooncatTheory.

(** ** The Mooncat parser on the stand-ins *)

Lemma hash_shorter_than_six_bytes_example :
  let bytes := ["O"; x00; x00; x00]%byte in
  @MooncatParser.hexToBytes MooncatExamples.imports MooncatExamples.shortHash = Ok bytes
  ∧ length bytes < 6
  ∧ ∃ e, @MooncatParser.parse MooncatExamples.imports MooncatExamples.shortHash 3 = Raise e
         ∧ (e = Error "This should never never happen" ↔
            ∃ k text, MooncatParser.byteAt bytes 1 = Some k
                      ∧ @MooncatParser.laserDesigns MooncatExamples.imports !! (k `mod` 128)
                        = Some text)
         ∧ (e = Error "TypeError: Cannot read properties of undefined (reading 'split')" ↔
            ¬ ∃ k text, MooncatParser.byteAt bytes 1 = Some k
                        ∧ @MooncatParser.laserDesigns MooncatExamples.imports
                            !! (k `mod` 128) = Some text).
Proof.
  intros bytes.
  assert (@MooncatParser.hexToBytes MooncatExamples.imports MooncatExamples.shortHash
          = Ok bytes) as Hhex by (by vm_compute).
  assert (length bytes < 6) as Hlen by (vm_compute; lia).
  split_and!; [exact Hhex|exact Hlen|].
  exact (hash_shorter_than_six_bytes_is_refused (H:=MooncatExamples.imports)
           MooncatExamples.shortHash 3 bytes Hhex Hlen).
Defined.

Lemma genesisHash_parsed (feeRate : nat) :
  @MooncatParser.parse MooncatExamples.imports MooncatExamples.genesisHash feeRate
  = Ok (MooncatExamples.genesisCat, MooncatExamples.genesisTraits).
Proof. by vm_compute. Qed.

Lemma traits_are_read_off_the_hash_example :
  @MooncatParser.parse MooncatExamples.imports MooncatExamples.genesisHash 3
  = Ok (MooncatExamples.genesisCat, MooncatExamples.genesisTraits)
  ∧ ∃ bytes k e,
      @MooncatParser.hexToBytes MooncatExamples.imports MooncatExamples.genesisHash
      = Ok bytes
      ∧ 6 ≤ length bytes
      ∧ MooncatParser.byteAt bytes 1 = Some k ∧ MooncatParser.byteAt bytes 5 = Some e
      ∧ k = 1 + 128 ∧ 1 < 128
      ∧ [MooncatParser.orange; MooncatParser.red; MooncatParser.green; MooncatParser.blue]
          !! (e `div` 64) = Some MooncatParser.red
      ∧ (true = true ↔ MooncatParser.byteAt bytes 0 = Some 79).
Proof.
  split; [apply genesisHash_parsed|].
  exact (traits_are_read_off_the_hash (H:=MooncatExamples.imports)
           MooncatExamples.genesisHash 3 MooncatExamples.genesisCat
           MooncatExamples.genesisTraits (genesisHash_parsed 3)).
Defined.

Lemma crownedHash_parsed (feeRate : nat) :
  @MooncatParser.parse MooncatExamples.imports MooncatExamples.crownedHash feeRate
  = Ok (MooncatExamples.crownedCat, MooncatExamples.crownedTraits).
Proof. by vm_compute. Qed.

Lemma crown_and_background_example :
  let bytes := [x00; x00; x00; x00; x00; xc0; xff; x80] in
  @MooncatParser.hexToBytes MooncatExamples.imports MooncatExamples.crownedHash = Ok bytes
  ∧ @MooncatParser.parse MooncatExamples.imports MooncatExamples.crownedHash 3
    = Ok (MooncatExamples.crownedCat, MooncatExamples.crownedTraits)
  ∧ (MooncatParser.crown MooncatExamples.crownedTraits ≠ MooncatParser.none ↔
     ∃ c, MooncatParser.byteAt bytes 7 = Some c ∧ 120 ≤ c ≤ 145)
  ∧ (MooncatParser.background MooncatExamples.crownedTraits ≠ MooncatParser.bg_orange ↔
     ∃ b, MooncatParser.byteAt bytes 6 = Some b ∧ b ≤ 153).
Proof.
  intros bytes.
  assert (@MooncatParser.hexToBytes MooncatExamples.imports MooncatExamples.crownedHash
          = Ok bytes) as Hhex by (by vm_compute).
  split_and!; [exact Hhex|apply crownedHash_parsed| |];
    by destruct (crown_and_background_go_together (H:=MooncatExamples.imports)
                   MooncatExamples.crownedHash 3 bytes MooncatExamples.crownedCat
                   MooncatExamples.crownedTraits
                   Hhex (crownedHash_parsed 3)) as (_ & _ & ? & ? & _).
Defined.

Lemma genesis_cat_example :
  let bytes := ["O"; x81; x00; x00; x00; "y"; "x"; x00]%byte in
  @MooncatParser.hexToBytes MooncatExamples.imports MooncatExamples.genesisHash = Ok bytes
  ∧ MooncatParser.byteAt bytes 0 = Some 79
  ∧ @MooncatParser.parse MooncatExamples.imports MooncatExamples.genesisHash 1
    = @MooncatParser.parse MooncatExamples.imports MooncatExamples.genesisHash 250.
Proof.
  intros bytes.
  assert (@MooncatParser.hexToBytes MooncatExamples.imports MooncatExamples.genesisHash
          = Ok bytes) as Hhex by (by vm_compute).
  assert (MooncatParser.byteAt bytes 0 = Some 79) as Hgenesis by (by vm_compute).
  split_and!; [exact Hhex|exact Hgenesis|].
  exact (proj1 (genesis_cat_ignores_the_fee_rate (H:=MooncatExamples.imports)
                  MooncatExamples.genesisHash bytes 1 250 Hhex Hgenesis)).
Defined.

Lemma cat_has_the_shape_of_its_design_example :
  @MooncatParser.parse MooncatExamples.imports MooncatExamples.crownedHash 3
  = Ok (MooncatExamples.crownedCat, MooncatExamples.crownedTraits)
  ∧ ∃ text,
      @MooncatParser.laserCrownDesigns MooncatExamples.imports !! 0 = Some text
      ∧ MooncatExamples.crownedCat ≠ []
      ∧ Forall2 (λ column piece, length column = String.length piece)
                MooncatExamples.crownedCat (MooncatParser.split "." text).
Proof.
  split; [apply crownedHash_parsed|].
  exact (cat_has_the_shape_of_its_design (H:=MooncatExamples.imports)
           MooncatExamples.crownedHash 3 MooncatExamples.crownedCat
           MooncatExamples.crownedTraits (crownedHash_parsed 3)).
Defined.

Lemma genesisHash_parsed_for_drawing :
  @MooncatParser.parsed MooncatExamples.imports (Some MooncatExamples.genesisHash) 3
  = Ok (MooncatExamples.genesisCat, Some MooncatExamples.genesisTraits).
Proof. by vm_compute. Qed.

Lemma svg_of_the_genesis_cat_example :
  @MooncatParser.parsed MooncatExamples.imports (Some MooncatExamples.genesisHash) 3
  = Ok (MooncatExamples.genesisCat, Some MooncatExamples.genesisTraits)
  ∧ MooncatParser.pixels MooncatExamples.genesisCat
    = [(9, 19, "#555555"); (10, 18, "#555555"); (10, 19, "#ff0000");
       (10, 20, "#555555"); (11, 19, "#222222")]%Z
  ∧ @MooncatParser.parseAndGenerateSvg MooncatExamples.imports MooncatExamples.cubes
      (Some MooncatExamples.genesisHash) 3
    = Ok (MooncatParser.svgHeader
          +:+ MooncatParser.backgroundSvg MooncatExamples.cubes (Some MooncatExamples.genesisTraits)
          +:+ String.concat ""
                ((λ '(x, y, color), MooncatParser.rect x y color)
                   <$> MooncatParser.pixels MooncatExamples.genesisCat)
          +:+ "</svg>", Some MooncatExamples.genesisTraits).
Proof.
  split_and!; [apply genesisHash_parsed_for_drawing|by vm_compute|].
  exact (proj1 (svg_is_header_background_and_squares (H:=MooncatExamples.imports)
                  MooncatExamples.cubes (Some MooncatExamples.genesisHash) 3
                  MooncatExamples.genesisCat (Some MooncatExamples.genesisTraits)
                  genesisHash_parsed_for_drawing)).
Defined.

Lemma squares_stay_inside_the_grid_example :
  let column0 := [Some None; Some (Some "#555555"); Some None] in
  @MooncatParser.parsed MooncatExamples.imports (Some MooncatExamples.genesisHash) 3
  = Ok (MooncatExamples.genesisCat, Some MooncatExamples.genesisTraits)
  ∧ MooncatExamples.genesisCat !! 0 = Some column0
  ∧ length MooncatExamples.genesisCat ≤ 22
  ∧ length column0 ≤ 22
  ∧ ∃ squares,
      @MooncatParser.parseAndGenerateSvg MooncatExamples.imports MooncatExamples.cubes
        (Some MooncatExamples.genesisHash) 3
      = Ok (MooncatParser.svgHeader
            +:+ MooncatParser.backgroundSvg MooncatExamples.cubes
                  (Some MooncatExamples.genesisTraits)
            +:+ String.concat ""
                  ((λ '(x, y, color), MooncatParser.rect x y color) <$> squares)
            +:+ "</svg>", Some MooncatExamples.genesisTraits)
      ∧ Forall (λ '(x, y, _), (0 ≤ x ≤ 21)%Z ∧ (0 ≤ y ≤ 21)%Z ∧
                              (length column0 ≤ 21 → (y ≤ 20)%Z)) squares.
Proof.
  intros column0.
  assert (length MooncatExamples.genesisCat ≤ 22) as Hwidth by (vm_compute; lia).
  assert (length column0 ≤ 22) as Hheight by (vm_compute; lia).
  split_and!; [apply genesisHash_parsed_for_drawing|done|exact Hwidth|exact Hheight|].
  exact (squares_stay_inside_the_grid (H:=MooncatExamples.imports) MooncatExamples.cubes
           (Some MooncatExamples.genesisHash) 3 MooncatExamples.genesisCat
           (Some MooncatExamples.genesisTraits) column0
           genesisHash_parsed_for_drawing eq_refl Hwidth Hheight).
Defined.

Lemma svg_is_generated_example :
  MooncatExamples.shortHash ≠ EmptyString
  ∧ @MooncatParser.parseAndGenerateSvg MooncatExamples.imports MooncatExamples.cubes
      (Some MooncatExamples.shortHash) 3
    = Raise (Error "This should never never happen").
Proof.
  assert (MooncatExamples.shortHash ≠ EmptyString) as Hhash by done.
  split; [exact Hhash|].
  exact (proj2 (svg_is_generated_whenever_the_cat_is_parsed (H:=MooncatExamples.imports)
                  MooncatExamples.cubes) MooncatExamples.shortHash 3 Hhash).
Defined.
